(** * Live2dRender: WAV decoding and the lip-sync RMS envelope

    A shallow embedding of the two audio paths of the repository:

    - [Wav]: the stand-alone handler ([parseWav] and the class
      [LAppWavFileHandler] with its module-level singleton [s_instance]);
    - [AudioAnalyser]: the class [AudioAnalyser] of
      [src/core/live2d/AudioAnalyser.ts], the one [Live2DModel] drives.

    Conventions of the embedding.

    - An [ArrayBuffer] is a [list byte]; a [DataView] read outside the buffer
      raises [RangeError], as the runtime does.
    - Indices, sizes and cursors are integer-valued JS numbers far below
      2^53: they are [Z].
    - Finite JS numbers are exact rationals ([Q]); the arithmetic of the
      decoder is exact in binary64 (integers below 2^32 divided by a power of
      two), and its one lossy step, the store into a [Float32Array], is
      [fround].  [NaN] is kept where the code can produce it.
    - In the trackers the clock and the sum of squares are taken without
      their binary64 rounding, and [Math.sqrt] is a parameter. *)

From Stdlib Require Import ZArith QArith Qround Qminmax Qabs String Ascii Lia Bool.
From Stdlib.Strings Require Import Byte.
From stdpp Require Import base list gmap strings.

Local Open Scope Z_scope.

(** ** Exceptions and results *)

Inductive exn : Type := RangeError | TypeError.

Inductive res (A : Type) : Type :=
| Ok (a : A)
| Throw (e : exn).
Arguments Ok {A} a.
Arguments Throw {A} e.

Definition bind {A B : Type} (c : res A) (k : A -> res B) : res B :=
  match c with
  | Ok a => k a
  | Throw e => Throw e
  end.

Notation "x <- c ;; k" := (bind c (fun x => k))
  (at level 62, c at next level, right associativity).

(** [for (let i = 0; i < n; i++) body], threading the loop state and
    stopping at the first exception. *)
Fixpoint for_each {S : Type} (idxs : list nat) (body : nat -> S -> res S) (s : S) : res S :=
  match idxs with
  | [] => Ok s
  | i :: rest => s' <- body i s ;; for_each rest body s'
  end.

(** ** JS numbers that may be NaN *)

Inductive number : Type :=
| Num (q : Q)
| NaN.

(** ** DataView *)

Module DataView.

Definition byteLength (view : list byte) : Z := Z.of_nat (length view).

Definition getUint8 (view : list byte) (byteOffset : Z) : res Z :=
  if byteOffset <? 0 then Throw RangeError
  else match view !! Z.to_nat byteOffset with
       | Some b => Ok (Z.of_N (Byte.to_N b))
       | None => Throw RangeError
       end.

(** [getUint16(o, true)] *)
Definition getUint16 (view : list byte) (o : Z) : res Z :=
  b0 <- getUint8 view o ;;
  b1 <- getUint8 view (o + 1) ;;
  Ok (b0 + b1 * 256).

(** [getUint32(o, true)] *)
Definition getUint32 (view : list byte) (o : Z) : res Z :=
  b0 <- getUint8 view o ;;
  b1 <- getUint8 view (o + 1) ;;
  b2 <- getUint8 view (o + 2) ;;
  b3 <- getUint8 view (o + 3) ;;
  Ok (b0 + b1 * 256 + b2 * 65536 + b3 * 16777216).

(** [getUint32(o, false)]: big-endian *)
Definition getUint32BE (view : list byte) (o : Z) : res Z :=
  b0 <- getUint8 view o ;;
  b1 <- getUint8 view (o + 1) ;;
  b2 <- getUint8 view (o + 2) ;;
  b3 <- getUint8 view (o + 3) ;;
  Ok (b0 * 16777216 + b1 * 65536 + b2 * 256 + b3).

(** [getInt16(o, true)] *)
Definition getInt16 (view : list byte) (o : Z) : res Z :=
  u <- getUint16 view o ;;
  Ok (if u <? 32768 then u else u - 65536).

(** [getInt32(o, true)] *)
Definition getInt32 (view : list byte) (o : Z) : res Z :=
  u <- getUint32 view o ;;
  Ok (if u <? 2147483648 then u else u - 4294967296).

End DataView.
Import DataView.

(** [ToInt32], the wrap-around of the bitwise operators. *)
Definition toInt32 (z : Z) : Z :=
  let m := z mod 4294967296 in
  if m <? 2147483648 then m else m - 4294967296.

(** ** Float32Array stores

    [fround x] is the binary32 value nearest to [x], ties to even, for [x]
    in the normal range of binary32 (2^-126 <= |x| < 2^128, or 0); every
    value the decoders store is 0 or has 2^-31 <= |x| <= 1. *)

Definition below_pow2 (a d e : Z) : bool :=
  if 0 <=? e then a <? d * 2 ^ e else a * 2 ^ (- e) <? d.

Definition binade (a d : Z) : Z :=
  let e0 := Z.log2 a - Z.log2 d in
  if below_pow2 a d e0 then e0 - 1 else e0.

Definition round_half_even (num den : Z) : Z :=
  let q := num / den in
  let r := num mod den in
  if 2 * r <? den then q
  else if den <? 2 * r then q + 1
  else if Z.even q then q else q + 1.

Definition fround (x : Q) : Q :=
  let n := Qnum x in
  let d := Z.pos (Qden x) in
  if n =? 0 then 0%Q
  else
    let a := Z.abs n in
    let u := binade a d - 23 in
    let k := if u <? 0 then round_half_even (a * 2 ^ (- u)) d
             else round_half_even a (d * 2 ^ u) in
    let v := if u <? 0 then (inject_Z k / inject_Z (2 ^ (- u)))%Q
             else inject_Z (k * 2 ^ u) in
    if n <? 0 then (- v)%Q else v.

(** [Math.max(-1, Math.min(1, sample))] *)
Definition clamp (sample : Q) : Q := Qmax (-1) (Qmin 1 sample).

(** ** Decoded audio: [Float32Array[]], one array per channel *)

Definition new_Float32Array (len : nat) : list Q := replicate len 0%Q.

(** ** The RMS window, shared by both trackers

    [for (ch < channels) { data = pcm[ch];
       for (i = from; i < to; i++) { v = data[i]; sum += v * v; count += 1 } }]

    [pcm[ch]] beyond the array is [undefined], and indexing it raises
    [TypeError]; [data[i]] beyond a [Float32Array] is [undefined], and the
    sum becomes [NaN]. *)

Definition typedGet (data : list Q) (i : Z) : option Q :=
  if i <? 0 then None else data !! Z.to_nat i.

Definition addSquare (sum : number) (v : option Q) : number :=
  match sum, v with
  | Num s, Some x => Num (s + x * x)
  | _, _ => NaN
  end.

Definition sumWindow (data : list Q) (from to : Z) (acc : number * Z) : number * Z :=
  foldl (fun acc i => (addSquare (fst acc) (typedGet data i), snd acc + 1))
        acc (seqZ from (to - from)).

Definition sumSquares (pcm : list (list Q)) (channels : Z) (from to : Z)
  : res (number * Z) :=
  for_each (seq 0 (Z.to_nat channels))
    (fun ch acc =>
       match pcm !! ch with
       | Some data => Ok (sumWindow data from to acc)
       | None => if from <? to then Throw TypeError else Ok acc
       end)
    (Num 0, 0).

Definition divNumber (x : number) (count : Z) : number :=
  match x with
  | Num q => Num (q / inject_Z count)
  | NaN => NaN
  end.

Section MathSqrt.
Variable sqrt : Q -> Q.

(** [Math.sqrt] on numbers: [NaN] below zero. *)
Definition Math_sqrt (x : number) : number :=
  match x with
  | Num q => if Qle_bool 0 q then Num (sqrt q) else NaN
  | NaN => NaN
  end.

(** [count ? Math.sqrt(sum / count) : 0] *)
Definition rmsOf (sum : number) (count : Z) : number :=
  if count =? 0 then Num 0 else Math_sqrt (divNumber sum count).

End MathSqrt.

(** ** The stand-alone handler: [parseWav] and [LAppWavFileHandler] *)

Module Wav.

Record ParsedWav : Type := {
  sampleRate : Z;
  channels : Z;
  pcm : list (list Q)
}.

Definition fromCharCode (c : Z) : ascii := ascii_of_N (Z.to_N c).

Definition readFourCC (view : list byte) (offset : Z) : res string :=
  c0 <- getUint8 view offset ;;
  c1 <- getUint8 view (offset + 1) ;;
  c2 <- getUint8 view (offset + 2) ;;
  c3 <- getUint8 view (offset + 3) ;;
  Ok (String (fromCharCode c0) (String (fromCharCode c1)
       (String (fromCharCode c2) (String (fromCharCode c3) EmptyString)))).

(** The four variables of the chunk loop. *)
Record chunkVars : Type := {
  fmtOffset : Z;
  fmtSize : Z;
  dataOffset : Z;
  dataSize : Z
}.

Definition noChunks : chunkVars :=
  {| fmtOffset := -1; fmtSize := 0; dataOffset := -1; dataSize := 0 |}.

Definition noteChunk (id : string) (payload size : Z) (c : chunkVars) : chunkVars :=
  if String.eqb id "fmt " then
    {| fmtOffset := payload; fmtSize := size;
       dataOffset := dataOffset c; dataSize := dataSize c |}
  else if String.eqb id "data" then
    {| fmtOffset := fmtOffset c; fmtSize := fmtSize c;
       dataOffset := payload; dataSize := size |}
  else c.

(** [while (offset + 8 <= view.byteLength) { ... }].  Every turn moves
    [offset] forward by at least 8, so [fuel = length view] turns are never
    used up ([scanChunks_fuel]). *)
Fixpoint scanChunks (fuel : nat) (view : list byte) (offset : Z) (c : chunkVars)
  : res chunkVars :=
  if offset + 8 <=? byteLength view then
    match fuel with
    | O => Ok c
    | S fuel' =>
        id <- readFourCC view offset ;;
        size <- getUint32 view (offset + 4) ;;
        let payload := offset + 8 in
        scanChunks fuel' view (payload + size + size mod 2) (noteChunk id payload size c)
    end
  else Ok c.

(** One sample at [p]: the normalised value and the next [p]. *)
Definition readSample (view : list byte) (bitsPerSample p : Z) : res (Q * Z) :=
  if bitsPerSample =? 8 then
    b <- getUint8 view p ;;
    Ok ((inject_Z (b - 128) / 128)%Q, p + 1)
  else if bitsPerSample =? 16 then
    v <- getInt16 view p ;;
    Ok ((inject_Z v / 32768)%Q, p + 2)
  else if bitsPerSample =? 24 then
    b0 <- getUint8 view p ;;
    b1 <- getUint8 view (p + 1) ;;
    b2 <- getUint8 view (p + 2) ;;
    let v := Z.lor (Z.lor b0 (Z.shiftl b1 8)) (Z.shiftl b2 16) in
    let v := if negb (Z.land v 0x800000 =? 0) then toInt32 (Z.lor v 0xff000000) else v in
    Ok ((inject_Z v / 8388608)%Q, p + 3)
  else
    v <- getInt32 view p ;;
    Ok ((inject_Z v / 2147483648)%Q, p + 4).

(** [pcm[ch][i] = x] on an array of [Float32Array]s. *)
Definition storeSample (pcm : list (list Q)) (ch i : nat) (x : Q) : list (list Q) :=
  alter (fun data => <[i := fround x]> data) ch pcm.

Definition decodeFrame (view : list byte) (bitsPerSample : Z) (channels : nat)
    (i : nat) (st : Z * list (list Q)) : res (Z * list (list Q)) :=
  for_each (seq 0 channels)
    (fun ch st =>
       r <- readSample view bitsPerSample (fst st) ;;
       Ok (snd r, storeSample (snd st) ch i (clamp (fst r))))
    st.

Definition includes (l : list Z) (x : Z) : bool := existsb (Z.eqb x) l.

Definition parseWav (buffer : list byte) : res (option ParsedWav) :=
  let view := buffer in
  if byteLength view <? 12 then Ok None else
  riff <- readFourCC view 0 ;;
  if negb (String.eqb riff "RIFF") then Ok None else
  wave <- readFourCC view 8 ;;
  if negb (String.eqb wave "WAVE") then Ok None else
  c <- scanChunks (length view) view 12 noChunks ;;
  if (fmtOffset c <? 0) || (dataOffset c <? 0) then Ok None else
  if byteLength view <? fmtOffset c + Z.min (fmtSize c) 16 then Ok None else
  audioFormat <- getUint16 view (fmtOffset c + 0) ;;
  channels <- getUint16 view (fmtOffset c + 2) ;;
  sampleRate <- getUint32 view (fmtOffset c + 4) ;;
  bitsPerSample <- getUint16 view (fmtOffset c + 14) ;;
  if negb (audioFormat =? 1) then Ok None else
  if (channels =? 0) || (sampleRate =? 0) then Ok None else
  if negb (includes [8; 16; 24; 32] bitsPerSample) then Ok None else
  let bytesPerSample := bitsPerSample / 8 in
  let frameBytes := channels * bytesPerSample in
  let available := Z.min (dataSize c) (byteLength view - dataOffset c) in
  let frames := available / frameBytes in
  let pcm := replicate (Z.to_nat channels) (new_Float32Array (Z.to_nat frames)) in
  st <- for_each (seq 0 (Z.to_nat frames))
          (decodeFrame view bitsPerSample (Z.to_nat channels))
          (dataOffset c, pcm) ;;
  Ok (Some {| sampleRate := sampleRate; channels := channels; pcm := snd st |}).

(** *** [class LAppWavFileHandler] *)

Record LAppWavFileHandler : Type := {
  parsed : option ParsedWav;
  sampleCursor : Z;
  timeSeconds : Q;
  lastRms : number;
  inflight : option nat  (* the promise of the last [start], by number *)
}.

Definition newHandler : LAppWavFileHandler :=
  {| parsed := None; sampleCursor := 0; timeSeconds := 0; lastRms := Num 0;
     inflight := None |}.

Definition set_parsed (p : option ParsedWav) (h : LAppWavFileHandler) :=
  {| parsed := p; sampleCursor := sampleCursor h; timeSeconds := timeSeconds h;
     lastRms := lastRms h; inflight := inflight h |}.
Definition set_sampleCursor (c : Z) (h : LAppWavFileHandler) :=
  {| parsed := parsed h; sampleCursor := c; timeSeconds := timeSeconds h;
     lastRms := lastRms h; inflight := inflight h |}.
Definition set_timeSeconds (t : Q) (h : LAppWavFileHandler) :=
  {| parsed := parsed h; sampleCursor := sampleCursor h; timeSeconds := t;
     lastRms := lastRms h; inflight := inflight h |}.
Definition set_lastRms (r : number) (h : LAppWavFileHandler) :=
  {| parsed := parsed h; sampleCursor := sampleCursor h; timeSeconds := timeSeconds h;
     lastRms := r; inflight := inflight h |}.
Definition set_inflight (p : option nat) (h : LAppWavFileHandler) :=
  {| parsed := parsed h; sampleCursor := sampleCursor h; timeSeconds := timeSeconds h;
     lastRms := lastRms h; inflight := p |}.

(** [wav.pcm[0]?.length ?? 0] *)
Definition frameCount (wav : ParsedWav) : Z :=
  match pcm wav with
  | [] => 0
  | data :: _ => Z.of_nat (length data)
  end.

(** [Math.min(frames, Math.floor(this.timeSeconds * wav.sampleRate))] *)
Definition targetSample (wav : ParsedWav) (time : Q) : Z :=
  Z.min (frameCount wav) (Qfloor (time * inject_Z (sampleRate wav))).

Section Handler.
Variable sqrt : Q -> Q.

(** [update(deltaTimeSeconds)]: the handler after the call, and how the call
    completed. *)
Definition update (h : LAppWavFileHandler) (deltaTimeSeconds : Q)
  : LAppWavFileHandler * res bool :=
  match parsed h with
  | None => (set_lastRms (Num 0) h, Ok false)
  | Some wav =>
      let frames := frameCount wav in
      if frames =? 0 then (set_lastRms (Num 0) h, Ok false)
      else
        let h := set_timeSeconds (timeSeconds h + deltaTimeSeconds)%Q h in
        let target := targetSample wav (timeSeconds h) in
        if target <=? sampleCursor h then (set_lastRms (Num 0) h, Ok false)
        else
          match sumSquares (pcm wav) (channels wav) (sampleCursor h) target with
          | Throw e => (h, Throw e)
          | Ok (sum, count) =>
              (set_lastRms (rmsOf sqrt sum count) (set_sampleCursor target h), Ok true)
          end
  end.

Definition getRms (h : LAppWavFileHandler) : number := lastRms h.

End Handler.

(** *** [start] and the settling of its promise chain

    [fetch(filePath).then(r => r.arrayBuffer())] settles later with the bytes
    or with a rejection; the callbacks chained on it then run on the
    handler as it is at that moment. *)

Inductive response : Type :=
| Body (buf : list byte)
| Rejected.

(** The synchronous part of [start]. *)
Definition startSync (id : nat) (h : LAppWavFileHandler) : LAppWavFileHandler :=
  {| parsed := None; sampleCursor := 0; timeSeconds := 0; lastRms := Num 0;
     inflight := Some id |}.

(** [.then(buf => { this.parsed = parseWav(buf) })
    .catch(() => { this.parsed = null })
    .finally(() => { this.inflight = null })] *)
Definition settle (r : response) (h : LAppWavFileHandler) : LAppWavFileHandler :=
  let h :=
    match r with
    | Body buf =>
        match parseWav buf with
        | Ok p => set_parsed p h
        | Throw _ => set_parsed None h
        end
    | Rejected => set_parsed None h
    end in
  set_inflight None h.

(** One handler, the promises still pending for it, and the events of its
    life in the order the event loop runs them. *)
Record world : Type := {
  this : LAppWavFileHandler;
  pending : gmap nat string;
  nextPromise : nat
}.

Inductive event : Type :=
| Start (filePath : string)
| Settle (id : nat) (r : response)
| Update (deltaTimeSeconds : Q).

Definition start (filePath : string) (w : world) : world :=
  {| this := startSync (nextPromise w) (this w);
     pending := <[nextPromise w := filePath]> (pending w);
     nextPromise := S (nextPromise w) |}.

Section Run.
Variable sqrt : Q -> Q.

Definition step (w : world) (e : event) : world :=
  match e with
  | Start filePath => start filePath w
  | Settle id r =>
      match pending w !! id with
      | Some _ =>
          {| this := settle r (this w); pending := delete id (pending w);
             nextPromise := nextPromise w |}
      | None => w
      end
  | Update dt =>
      {| this := fst (update sqrt (this w) dt); pending := pending w;
         nextPromise := nextPromise w |}
  end.

Definition run (w : world) (es : list event) : world := foldl step w es.

End Run.

(** *** The singleton: [s_instance], [getInstance], [releaseInstance]

    Objects live in a heap and are named by their address; [s_instance] is
    a module variable holding an address or [null]. *)

Record moduleState : Type := {
  heap : list LAppWavFileHandler;
  s_instance : option nat
}.

Definition getInstance (m : moduleState) : moduleState * nat :=
  match s_instance m with
  | Some a => (m, a)
  | None =>
      let a := length (heap m) in
      ({| heap := heap m ++ [newHandler]; s_instance := Some a |}, a)
  end.

Definition releaseInstance (m : moduleState) : moduleState :=
  {| heap := heap m; s_instance := None |}.

(** A method call on the object at [a]. *)
Definition invoke (a : nat) (method : LAppWavFileHandler -> LAppWavFileHandler)
    (m : moduleState) : moduleState :=
  {| heap := alter method a (heap m); s_instance := s_instance m |}.

End Wav.

(** ** [class AudioAnalyser] *)

Module AudioAnalyser.

Record state : Type := {
  _pcmData : option (list (list Q));
  _sampleRate : Z;
  _channelCount : Z;
  _lastRms : number;
  _sampleOffset : Z;
  _userTimeSeconds : Q
}.

Definition new : state :=
  {| _pcmData := None; _sampleRate := 44100; _channelCount := 1;
     _lastRms := Num 0; _sampleOffset := 0; _userTimeSeconds := 0 |}.

Definition set_pcmData (p : option (list (list Q))) (s : state) :=
  {| _pcmData := p; _sampleRate := _sampleRate s; _channelCount := _channelCount s;
     _lastRms := _lastRms s; _sampleOffset := _sampleOffset s;
     _userTimeSeconds := _userTimeSeconds s |}.
Definition set_sampleRate (r : Z) (s : state) :=
  {| _pcmData := _pcmData s; _sampleRate := r; _channelCount := _channelCount s;
     _lastRms := _lastRms s; _sampleOffset := _sampleOffset s;
     _userTimeSeconds := _userTimeSeconds s |}.
Definition set_channelCount (c : Z) (s : state) :=
  {| _pcmData := _pcmData s; _sampleRate := _sampleRate s; _channelCount := c;
     _lastRms := _lastRms s; _sampleOffset := _sampleOffset s;
     _userTimeSeconds := _userTimeSeconds s |}.
Definition set_lastRms (r : number) (s : state) :=
  {| _pcmData := _pcmData s; _sampleRate := _sampleRate s; _channelCount := _channelCount s;
     _lastRms := r; _sampleOffset := _sampleOffset s;
     _userTimeSeconds := _userTimeSeconds s |}.
Definition set_sampleOffset (o : Z) (s : state) :=
  {| _pcmData := _pcmData s; _sampleRate := _sampleRate s; _channelCount := _channelCount s;
     _lastRms := _lastRms s; _sampleOffset := o;
     _userTimeSeconds := _userTimeSeconds s |}.
Definition set_userTimeSeconds (t : Q) (s : state) :=
  {| _pcmData := _pcmData s; _sampleRate := _sampleRate s; _channelCount := _channelCount s;
     _lastRms := _lastRms s; _sampleOffset := _sampleOffset s;
     _userTimeSeconds := t |}.

(** *** Methods: state, exceptions and loops that never end

    A method body runs on [this] and either returns, raises, or never
    returns; what it wrote to [this] before raising stays written. *)

Inductive completion (A : Type) : Type :=
| Return (a : A)
| Raise (e : exn)
| Diverge.
Arguments Return {A} a.
Arguments Raise {A} e.
Arguments Diverge {A}.

Definition method (A : Type) : Type := state -> state * completion A.

Definition ret {A : Type} (a : A) : method A := fun s => (s, Return a).

Definition andThen {A B : Type} (c : method A) (k : A -> method B) : method B :=
  fun s =>
    match c s with
    | (s', Return a) => k a s'
    | (s', Raise e) => (s', Raise e)
    | (s', Diverge) => (s', Diverge)
    end.

Notation "x <~ c ;; k" := (andThen c (fun x => k))
  (at level 62, c at next level, right associativity).
Notation "c ;;; k" := (andThen c (fun _ => k))
  (at level 62, right associativity).

(** A [DataView] read inside a method. *)
Definition read {A : Type} (r : res A) : method A :=
  fun s => match r with
           | Ok a => (s, Return a)
           | Throw e => (s, Raise e)
           end.

Definition assign (f : state -> state) : method unit := fun s => (f s, Return tt).
Definition this : method state := fun s => (s, Return s).
Definition hang {A : Type} : method A := fun s => (s, Diverge).

(** A [for] loop over [idxs] that carries the local variables [acc]. *)
Fixpoint forM {S : Type} (idxs : list nat) (body : nat -> S -> method S) (acc : S)
  : method S :=
  match idxs with
  | [] => ret acc
  | i :: rest => acc' <~ body i acc ;; forM rest body acc'
  end.

(** [sampleCount / this._channelCount] of a non-negative [sampleCount]. *)
Inductive quotient : Type :=
| Finite (q : Q)
| PlusInfinity
| NotANumber.

Definition divide (sampleCount : Q) (channelCount : Z) : quotient :=
  if channelCount =? 0 then
    (if Qeq_bool sampleCount 0 then NotANumber else PlusInfinity)
  else Finite (sampleCount / inject_Z channelCount).

(** [this._pcmData[c][i] = x] *)
Definition storeSample (c i : nat) (x : Q) : method unit :=
  assign (fun s =>
    set_pcmData
      (option_map (alter (fun data => <[i := fround x]> data) c) (_pcmData s)) s).

(** The [data] branch of [parseWav], from [this._pcmData = new Array(...)]
    to [return true]; [offset] is the start of the payload. *)
Definition decodeData (data : list byte) (chunkSize offset : Z) : method bool :=
  let sampleCount := (inject_Z chunkSize / 2)%Q in
  s <~ this ;;
  let channelCount := Z.to_nat (_channelCount s) in
  match divide sampleCount (_channelCount s) with
  | PlusInfinity =>
      (* no channel, so no array is built and the frame loop has an empty
         body and no end *)
      assign (set_pcmData (Some [])) ;;; hang
  | NotANumber =>
      assign (set_pcmData (Some [])) ;;;
      assign (fun s => set_lastRms (Num 0)
                (set_userTimeSeconds 0 (set_sampleOffset 0 s))) ;;;
      ret true
  | Finite samplesPerChannel =>
      assign (set_pcmData
                (Some (replicate channelCount
                         (new_Float32Array (Z.to_nat (Qfloor samplesPerChannel)))))) ;;;
      forM (seq 0 (Z.to_nat (Qceiling samplesPerChannel)))
        (fun i =>
           forM (seq 0 channelCount)
             (fun c pcmOffset =>
                sample <~ read (getInt16 data pcmOffset) ;;
                storeSample c i (inject_Z sample / 32768)%Q ;;;
                ret (pcmOffset + 2)))
        offset ;;;
      assign (fun s => set_lastRms (Num 0)
                (set_userTimeSeconds 0 (set_sampleOffset 0 s))) ;;;
      ret true
  end.

(** The chunk loop of [parseWav]; every turn moves [offset] forward by at
    least 8, so [fuel = length data] turns are never used up. *)
Fixpoint chunkLoop (fuel : nat) (data : list byte) (offset : Z) : method bool :=
  if offset <? byteLength data then
    match fuel with
    | O => ret false
    | S fuel' =>
        chunkId <~ read (getUint32BE data offset) ;;
        chunkSize <~ read (getUint32 data (offset + 4)) ;;
        let offset := offset + 8 in
        if chunkId =? 0x666d7420 then
          audioFormat <~ read (getUint16 data offset) ;;
          if negb (audioFormat =? 1) then ret false
          else
            channelCount <~ read (getUint16 data (offset + 2)) ;;
            assign (set_channelCount channelCount) ;;;
            sampleRate <~ read (getUint32 data (offset + 4)) ;;
            assign (set_sampleRate sampleRate) ;;;
            bitsPerSample <~ read (getUint16 data (offset + 14)) ;;
            if negb (bitsPerSample =? 16) then ret false
            else chunkLoop fuel' data (offset + chunkSize)
        else if chunkId =? 0x64617461 then
          decodeData data chunkSize offset
        else chunkLoop fuel' data (offset + chunkSize)
    end
  else ret false.

Definition parseWav (buffer : list byte) : method bool :=
  let data := buffer in
  riff <~ read (getUint32BE data 0) ;;
  if negb (riff =? 0x52494646) then ret false
  else
    wave <~ read (getUint32BE data 8) ;;
    if negb (wave =? 0x57415645) then ret false
    else chunkLoop (length data) data 12.

(** *** [load]

    The call itself only issues the fetch; [loadSettle] is the rest of the
    [async] body, run when [fetch(path)] and [arrayBuffer()] have settled:
    [try { ... return this.parseWav(buffer) } catch (e) { return false }]. *)

Inductive response : Type :=
| Body (buf : list byte)
| Rejected.


Definition loadSettle (r : response) : method bool :=
  fun s =>
    match r with
    | Body buffer =>
        match parseWav buffer s with
        | (s', Return b) => (s', Return b)
        | (s', Raise _) => (s', Return false)
        | (s', Diverge) => (s', Diverge)
        end
    | Rejected => (s, Return false)
    end.

Section Update.
Variable sqrt : Q -> Q.

Definition update (deltaTimeSeconds : Q) : method number :=
  fun s =>
    match _pcmData s with
    | None => (s, Return (Num 0))
    | Some pcm =>
        let s := set_userTimeSeconds (_userTimeSeconds s + deltaTimeSeconds)%Q s in
        let goalOffset := Qfloor (_userTimeSeconds s * inject_Z (_sampleRate s)) in
        match pcm with
        | [] => (s, Raise TypeError)          (* this._pcmData[0].length *)
        | data0 :: _ =>
            let maxOffset := Z.of_nat (length data0) in
            let goalOffset := if maxOffset <? goalOffset then maxOffset else goalOffset in
            if goalOffset <=? _sampleOffset s then (s, Return (_lastRms s))
            else
              match sumSquares pcm (_channelCount s) (_sampleOffset s) goalOffset with
              | Throw e => (s, Raise e)
              | Ok (sumSquared, sampleCount) =>
                  let s := set_sampleOffset goalOffset s in
                  let s := set_lastRms
                             (if 0 <? sampleCount
                              then Math_sqrt sqrt (divNumber sumSquared sampleCount)
                              else Num 0) s in
                  (s, Return (_lastRms s))
              end
        end
    end.

Definition getRms : method number := fun s => (s, Return (_lastRms s)).

End Update.

End AudioAnalyser.

(** ** The WAV layout, read off a buffer

    The fields the claims speak of, as values of the buffer alone: reads
    that need no bounds check ([byteAt] is 0 outside the buffer), the list
    of chunks from offset 12 (an id, a little-endian size, the payload,
    padded to an even length), and the sample stored at an offset. *)

Module WavFormat.

Definition byteAt (buf : list byte) (o : Z) : Z :=
  match getUint8 buf o with
  | Ok b => b
  | Throw _ => 0
  end.

Definition u16At (buf : list byte) (o : Z) : Z :=
  byteAt buf o + byteAt buf (o + 1) * 256.

Definition u32At (buf : list byte) (o : Z) : Z :=
  byteAt buf o + byteAt buf (o + 1) * 256 + byteAt buf (o + 2) * 65536
  + byteAt buf (o + 3) * 16777216.

Definition u32BEAt (buf : list byte) (o : Z) : Z :=
  byteAt buf o * 16777216 + byteAt buf (o + 1) * 65536
  + byteAt buf (o + 2) * 256 + byteAt buf (o + 3).

Definition fourCCAt (buf : list byte) (o : Z) : string :=
  String (Wav.fromCharCode (byteAt buf o))
    (String (Wav.fromCharCode (byteAt buf (o + 1)))
      (String (Wav.fromCharCode (byteAt buf (o + 2)))
        (String (Wav.fromCharCode (byteAt buf (o + 3))) EmptyString))).

Record chunk : Type := {
  ckId : string;
  ckSize : Z;
  ckPayload : Z
}.

(** The chunks whose 8-byte header lies inside the buffer, from [offset]
    on. *)
Fixpoint chunkList (fuel : nat) (buf : list byte) (offset : Z) : list chunk :=
  match fuel with
  | O => []
  | S fuel' =>
      if offset + 8 <=? byteLength buf then
        let size := u32At buf (offset + 4) in
        {| ckId := fourCCAt buf offset; ckSize := size; ckPayload := offset + 8 |}
          :: chunkList fuel' buf (offset + 8 + size + size mod 2)
      else []
  end.

Definition chunksOf (buf : list byte) : list chunk := chunkList (length buf) buf 12.

(** The last chunk with a given id. *)
Definition lastChunk (id : string) (cks : list chunk) : option chunk :=
  last (filter (fun ck => ckId ck = id) cks).

Definition int16At (buf : list byte) (p : Z) : Z :=
  let u := u16At buf p in if u <? 32768 then u else u - 65536.

Definition int24At (buf : list byte) (p : Z) : Z :=
  let u := byteAt buf p + byteAt buf (p + 1) * 256 + byteAt buf (p + 2) * 65536 in
  if u <? 8388608 then u else u - 16777216.

Definition int32At (buf : list byte) (p : Z) : Z :=
  let u := u32At buf p in if u <? 2147483648 then u else u - 4294967296.

(** The normalised value of the sample stored at [p]: [(byte - 128) / 128],
    [int16 / 32768], the sign-extended [int24 / 8388608],
    [int32 / 2147483648]. *)
Definition sampleAt (buf : list byte) (bits p : Z) : Q :=
  if bits =? 8 then (inject_Z (byteAt buf p - 128) / 128)%Q
  else if bits =? 16 then (inject_Z (int16At buf p) / 32768)%Q
  else if bits =? 24 then (inject_Z (int24At buf p) / 8388608)%Q
  else (inject_Z (int32At buf p) / 2147483648)%Q.

(** The arrays of a data chunk at [dataOffset]: sample [i] of channel [ch]
    is the [(i * nch + ch)]-th stored sample, clamped and stored as
    binary32. *)
Definition decodedPcm (buf : list byte) (bits : Z) (nch frames : nat) (dataOffset : Z)
  : list (list Q) :=
  map (fun ch =>
         map (fun i =>
                fround (clamp (sampleAt buf bits
                  (dataOffset + (Z.of_nat i * Z.of_nat nch + Z.of_nat ch) * (bits / 8)))))
             (seq 0 frames))
      (seq 0 nch).

(** The frame count of a data chunk [d]: the bytes it declares, but no more
    than the buffer still holds, in whole frames. *)
Definition framesOf (buf : list byte) (d : chunk) (channels bits : Z) : Z :=
  Z.min (ckSize d) (byteLength buf - ckPayload d) / (channels * (bits / 8)).

(** What [Wav.parseWav] returns, case by case ([parseWav_cases]). *)
Definition parseWavCases (buf : list byte) : res (option Wav.ParsedWav) :=
  if byteLength buf <? 12 then Ok None
  else if negb (String.eqb (fourCCAt buf 0) "RIFF") then Ok None
  else if negb (String.eqb (fourCCAt buf 8) "WAVE") then Ok None
  else
    match lastChunk "fmt " (chunksOf buf), lastChunk "data" (chunksOf buf) with
    | Some f, Some d =>
        let o := ckPayload f in
        if byteLength buf <? o + Z.min (ckSize f) 16 then Ok None
        else if byteLength buf <? o + 16 then Throw RangeError
        else if negb (u16At buf o =? 1) then Ok None
        else if (u16At buf (o + 2) =? 0) || (u32At buf (o + 4) =? 0) then Ok None
        else if negb (Wav.includes [8; 16; 24; 32] (u16At buf (o + 14))) then Ok None
        else
          let channels := u16At buf (o + 2) in
          let bits := u16At buf (o + 14) in
          Ok (Some {| Wav.sampleRate := u32At buf (o + 4);
                      Wav.channels := channels;
                      Wav.pcm := decodedPcm buf bits (Z.to_nat channels)
                                   (Z.to_nat (framesOf buf d channels bits))
                                   (ckPayload d) |})
    | _, _ => Ok None
    end.

(** One turn of the chunk loop of [Wav.parseWav], on a chunk. *)
Definition note (c : Wav.chunkVars) (ck : chunk) : Wav.chunkVars :=
  Wav.noteChunk (ckId ck) (ckPayload ck) (ckSize ck) c.


(** A well-formed PCM file with [fmt ] chunk [f] and [data] chunk [d]: the
    tags, both chunks, the 16 bytes of the format header inside the buffer,
    format code 1, at least one channel, a non-zero rate, a supported bit
    depth. *)
Record wellFormed (buf : list byte) (f d : chunk) : Prop := {
  wf_length : 12 <= byteLength buf;
  wf_riff : fourCCAt buf 0 = "RIFF"%string;
  wf_wave : fourCCAt buf 8 = "WAVE"%string;
  wf_fmt : lastChunk "fmt " (chunksOf buf) = Some f;
  wf_data : lastChunk "data" (chunksOf buf) = Some d;
  wf_header : ckPayload f + 16 <= byteLength buf;
  wf_format : u16At buf (ckPayload f) = 1;
  wf_channels : u16At buf (ckPayload f + 2) <> 0;
  wf_rate : u32At buf (ckPayload f + 4) <> 0;
  wf_bits : Wav.includes [8; 16; 24; 32] (u16At buf (ckPayload f + 14)) = true
}.

End WavFormat.
Import WavFormat.

(** ** The pooled mean square of a window *)

Definition sumSq (l : list Q) : Q := foldr (fun v acc => (v * v + acc)%Q) 0%Q l.

(** The samples of one channel in the window [[from, to)]. *)
Definition windowOf (data : list Q) (from to : Z) : list Q :=
  take (Z.to_nat (to - from)) (drop (Z.to_nat from) data).

(** The sum, over every channel and every index of the window, of the
    squared sample. *)
Definition pooledSquares (pcm : list (list Q)) (from to : Z) : Q :=
  foldr (fun data acc => (sumSq (windowOf data from to) + acc)%Q) 0%Q pcm.

(** ** States of the two trackers *)

Module WavState.
Import Wav.

(** Decoded audio as [parseWav] builds it: one array per channel, all of
    the same length. *)
Definition wavOk (wav : ParsedWav) : Prop :=
  channels wav = Z.of_nat (length (pcm wav))
  /\ Forall (fun data => Z.of_nat (length data) = frameCount wav) (pcm wav).

(** The handler after the calls [update(dt)] for the [dt] of [dts]. *)
Definition after (sqrt : Q -> Q) (h : LAppWavFileHandler) (dts : list Q)
  : LAppWavFileHandler :=
  foldl (fun h dt => fst (update sqrt h dt)) h dts.

(** What a settled fetch leaves in [parsed]. *)
Definition outcomeOf (r : response) : option ParsedWav :=
  match r with
  | Body buf => match parseWav buf with Ok p => p | Throw _ => None end
  | Rejected => None
  end.

(** What the code of a page does with the singleton, short of releasing
    it. *)
Inductive operation : Type :=
| GetInstance
| Invoke (a : nat) (method : LAppWavFileHandler -> LAppWavFileHandler).

Definition perform (m : moduleState) (o : operation) : moduleState :=
  match o with
  | GetInstance => fst (getInstance m)
  | Invoke a method => invoke a method m
  end.

End WavState.

Module AnalyserState.
Import AudioAnalyser.

(** [this._pcmData[0].length], 0 while there is no first channel. *)
Definition frameCount (s : state) : Z :=
  match _pcmData s with
  | Some (data :: _) => Z.of_nat (length data)
  | _ => 0
  end.

(** The clamped [goalOffset] of [update]. *)
Definition goalOf (s : state) (dt : Q) : Z :=
  Z.min (frameCount s) (Qfloor ((_userTimeSeconds s + dt) * inject_Z (_sampleRate s))).

(** A consistent analyser: one array per counted channel, all of the same
    length. *)
Definition stateOk (s : state) : Prop :=
  exists pcm, _pcmData s = Some pcm
    /\ _channelCount s = Z.of_nat (length pcm)
    /\ Forall (fun data => Z.of_nat (length data) = frameCount s) pcm.

(** The analyser after the calls [update(dt)] for the [dt] of [dts]. *)
Definition after (sqrt : Q -> Q) (s : state) (dts : list Q) : state :=
  foldl (fun s dt => fst (update sqrt dt s)) s dts.

End AnalyserState.

(** The arrays of the frame loop when frames below [i], and channels below
    [k] of frame [i], have been written with [val]. *)
Definition filled (val : nat -> nat -> Q) (nch frames i k : nat) : list (list Q) :=
  map (fun ch =>
         map (fun j => if (j <? i)%nat || ((j =? i)%nat && (ch <? k)%nat)
                       then val ch j else 0%Q)
             (seq 0 frames))
      (seq 0 nch).

(** ** Test buffers and a square root for the examples *)

Module Fixtures.

Definition u8 (z : Z) : byte :=
  match Byte.of_N (Z.to_N (z mod 256)) with
  | Some b => b
  | None => "000"%byte
  end.

(** [n] bytes of [z], little-endian. *)
Fixpoint le (n : nat) (z : Z) : list byte :=
  match n with
  | O => []
  | S n' => u8 z :: le n' (z / 256)
  end.

Definition tag (s : string) : list byte := list_byte_of_string s.

(** A chunk with a declared size and the bytes that follow the header. *)
Definition chunk (id : string) (size : Z) (payload : list byte) : list byte :=
  tag id ++ le 4 size ++ payload.

Definition riff (body : list byte) : list byte :=
  tag "RIFF" ++ le 4 (4 + Z.of_nat (length body)) ++ tag "WAVE" ++ body.

(** The 16-byte PCM [fmt ] payload. *)
Definition fmtPayload (format channels rate bits : Z) : list byte :=
  le 2 format ++ le 2 channels ++ le 4 rate
    ++ le 4 (rate * channels * (bits / 8)) ++ le 2 (channels * (bits / 8)) ++ le 2 bits.

Definition wavFile (format channels rate bits : Z) (dataSize : Z) (data : list byte)
  : list byte :=
  riff (chunk "fmt " 16 (fmtPayload format channels rate bits)
          ++ chunk "data" dataSize data).

(** The root rounded down to a multiple of 2^-30; exact on the squares of
    such multiples. *)
Definition sqrtFloor (q : Q) : Q :=
  Z.sqrt (Qnum q * 2 ^ 60 / Z.pos (Qden q)) # 1073741824.

(** 8000 Hz, mono, 16 bits, the samples 0.5 and -0.5. *)
Definition halfTone : list byte :=
  wavFile 1 1 8000 16 4 (le 2 16384 ++ le 2 (-16384)).

(** 16000 Hz, mono, 16 bits, the sample 0.25. *)
Definition otherTone : list byte := wavFile 1 1 16000 16 2 (le 2 8192).


(** [halfTone] with a data chunk that declares 8 bytes and holds 4. *)
Definition truncated : list byte :=
  wavFile 1 1 8000 16 8 (le 2 16384 ++ le 2 (-16384)).

(** 8000 Hz, mono, 32 bits, the one sample 16777217 = 2^24 + 1. *)
Definition deep32 : list byte := wavFile 1 1 8000 32 4 (le 4 16777217).

(** 22050 Hz, stereo, 8 bits, one frame. *)
Definition stereo8 : list byte := wavFile 1 2 22050 8 2 [u8 0; u8 255].

(** A handler just constructed, nothing pending. *)
Definition world0 : Wav.world :=
  {| Wav.this := Wav.newHandler; Wav.pending := ∅; Wav.nextPromise := 0 |}.

(** The handler playing [halfTone], after [start], the settling of its
    fetch, and one second of [update]. *)
Definition playedHandler : Wav.LAppWavFileHandler :=
  Wav.this (Wav.run sqrtFloor world0
              [Wav.Start "a.wav"; Wav.Settle 0 (Wav.Body halfTone); Wav.Update 1]).

(** The analyser that has loaded [halfTone], and the same after one second
    of [update]. *)
Definition loadedAnalyser : AudioAnalyser.state :=
  fst (AudioAnalyser.loadSettle (AudioAnalyser.Body halfTone) AudioAnalyser.new).

Definition playedAnalyser : AudioAnalyser.state :=
  fst (AudioAnalyser.update sqrtFloor 1 loadedAnalyser).

End Fixtures.

(** ** Playback: frame times and sample bounds *)


(** Arrays whose samples all lie in [[-1, 1]]. *)
Definition bounded (pcm : list (list Q)) : Prop :=
  Forall (Forall (fun y => (-1 <= y)%Q /\ (y <= 1)%Q)) pcm.

(** A value [update] can leave in [lastRms] on samples in [[-1, 1]]: 0, or
    the root of a mean square. *)
Definition unitRms (sqrt : Q -> Q) (r : number) : Prop :=
  r = Num 0 \/ exists q, (0 <= q)%Q /\ (q <= 1)%Q /\ r = Num (sqrt q).

(** A handler [update] can run on: the cursor is not negative, and the
    audio, if there is any, has one array per channel, all of one length,
    with samples in [[-1, 1]]. *)
Definition playable (sqrt : Q -> Q) (h : Wav.LAppWavFileHandler) : Prop :=
  0 <= Wav.sampleCursor h
  /\ unitRms sqrt (Wav.lastRms h)
  /\ forall wav, Wav.parsed h = Some wav -> WavState.wavOk wav /\ bounded (Wav.pcm wav).

(** Two buffers that differ at most in the four bytes of the RIFF size
    field, at offsets 4 to 7. *)
Definition sameButRiffSize (buf buf' : list byte) : Prop :=
  length buf' = length buf
  /\ forall i : nat, (i < 4 \/ 8 <= i)%nat -> buf' !! i = buf !! i.

(** ** The frame clock: [Live2DPAL] and [LAppPal]

    [Date.now()] is an integer number of milliseconds; each call of
    [updateTime] takes its value [now] as an argument. *)

Module Live2DPAL.

Record state : Type := {
  _lastUpdateTime : Z;
  _deltaTime : Q
}.

Definition initial : state := {| _lastUpdateTime := 0; _deltaTime := 0 |}.

Definition getDeltaTime (p : state) : Q := _deltaTime p.

Definition updateTime (now : Z) (p : state) : state :=
  let current := now in
  {| _deltaTime := (inject_Z (current - _lastUpdateTime p) / 1000)%Q;
     _lastUpdateTime := current |}.

(** The PAL after the calls of [updateTime], and the frame times
    [Live2DManager.update] reads with [getDeltaTime] after each of them. *)
Definition after (p : state) (nows : list Z) : state :=
  foldl (fun p now => updateTime now p) p nows.

Fixpoint deltas (p : state) (nows : list Z) : list Q :=
  match nows with
  | [] => []
  | now :: rest => getDeltaTime (updateTime now p) :: deltas (updateTime now p) rest
  end.

End Live2DPAL.

Module LAppPal.

Record state : Type := {
  currentTs : Z;
  lastTs : Z;
  deltaSeconds : Q
}.

Definition initial : state := {| currentTs := 0; lastTs := 0; deltaSeconds := 0 |}.

Definition getDeltaTime (p : state) : Q := deltaSeconds p.

Definition updateTime (now : Z) (p : state) : state :=
  let lastTs0 := if lastTs p =? 0 then now else lastTs p in   (* if (!this.lastTs) *)
  let currentTs := now in
  {| currentTs := currentTs;
     deltaSeconds := (inject_Z (currentTs - lastTs0) / 1000)%Q;
     lastTs := currentTs |}.

Definition after (p : state) (nows : list Z) : state :=
  foldl (fun p now => updateTime now p) p nows.

Fixpoint deltas (p : state) (nows : list Z) : list Q :=
  match nows with
  | [] => []
  | now :: rest => getDeltaTime (updateTime now p) :: deltas (updateTime now p) rest
  end.

End LAppPal.


(** ** The fetch cache: [cacheFetch], [installFetchCache], [uninstallFetchCache]

    The page is a browser page: [window] and [fetch] exist, and
    [window.fetch] is written by [installFetchCache] and
    [uninstallFetchCache] only.  One call runs from its start to the
    settling of its promise with no other call between its [await]s; a
    request on the object store takes effect where it is made (IndexedDB
    runs the transactions on one store in the order they were created).
    Console output is left out. *)

Module Cache.

(** *** IndexedDB, as far as [db.ts] uses it *)

Record UrlDBItem : Type := {
  url : string;
  arraybuffer : list byte
}.

(** An object store as [initialiseIndexDB] creates it: [autoIncrement]
    keys, so the records in the order they were added; an index [url] that
    is [unique], and an index [arraybuffer]. *)
Abbreviation objectStore := (list UrlDBItem).

(** A database: its object stores by name. *)
Abbreviation IDBDatabase := (gmap string objectStore).

(** Why a promise is rejected. *)
Inductive reason : Type :=
| FetchFailed        (* the rejection of the browser's [fetch] *)
| NotFoundError      (* [db.transaction] or [store.index] on a name that is not there *)
| NotAFunction.      (* [TypeError]: [originalFetch] is [null] *)

(** How a promise settles; [Unsettled] stands for a call that has no end. *)
Inductive settled (A : Type) : Type :=
| Fulfilled (a : A)
| RejectedWith (r : reason)
| Unsettled.
Arguments Fulfilled {A} a.
Arguments RejectedWith {A} r.
Arguments Unsettled {A}.

(** *** Requests and responses *)

Inductive RequestInfo : Type :=
| InString (url : string)
| InURL (href : string)
| InRequest (url : string) (method : string).

Record RequestInit : Type := {
  init_method : option string
}.

Record request : Type := {
  rq_input : RequestInfo;
  rq_init : option RequestInit
}.

Record Response : Type := {
  status : Z;
  body : list byte
}.

(** [resp.ok] *)
Definition ok (resp : Response) : bool := (200 <=? status resp) && (status resp <=? 299).

(** What the network answers to a request: a response, or nothing (the
    fetch is rejected). *)
Definition network : Type := request -> option Response.

(** [String.prototype.toUpperCase] on the ASCII strings that method names
    are. *)
Definition upper (c : ascii) : ascii :=
  let n := nat_of_ascii c in
  if ((97 <=? n) && (n <=? 122))%nat then ascii_of_nat (n - 32) else c.

Fixpoint toUpperCase (s : string) : string :=
  match s with
  | EmptyString => EmptyString
  | String c rest => String (upper c) (toUpperCase rest)
  end.

(** *** The page *)

(** The two functions [window.fetch] can be. *)
Inductive fetchFn : Type :=
| Native      (* the browser's [fetch] *)
| Wrapper.    (* the [async (input, init) => ...] of [installFetchCache] *)

Record page : Type := {
  LoadFromCache : bool;               (* runtimeConfig.LoadFromCache *)
  Live2dDB : option IDBDatabase;      (* runtimeConfig.Live2dDB *)
  refreshCache : bool;                (* CacheFetchSetting.refreshCache *)
  installed : bool;
  originalFetch : option fetchFn;
  window_fetch : fetchFn;
  sent : list request                 (* what went to the network, the last request first *)
}.

Definition set_Live2dDB (db : option IDBDatabase) (p : page) : page :=
  {| LoadFromCache := LoadFromCache p; Live2dDB := db; refreshCache := refreshCache p;
     installed := installed p; originalFetch := originalFetch p;
     window_fetch := window_fetch p; sent := sent p |}.

Definition set_refreshCache (b : bool) (p : page) : page :=
  {| LoadFromCache := LoadFromCache p; Live2dDB := Live2dDB p; refreshCache := b;
     installed := installed p; originalFetch := originalFetch p;
     window_fetch := window_fetch p; sent := sent p |}.

Definition send (rq : request) (p : page) : page :=
  {| LoadFromCache := LoadFromCache p; Live2dDB := Live2dDB p;
     refreshCache := refreshCache p; installed := installed p;
     originalFetch := originalFetch p; window_fetch := window_fetch p;
     sent := rq :: sent p |}.

(** *** [db.ts] *)

(** The default of the [storeName] parameter; no caller passes another. *)
Definition storeName : string := "live2d".

Definition hasUrl (value : string) (item : UrlDBItem) : bool := String.eqb (url item) value.

(** [selectItemIndexDB(key, value)]: without a database [undefined]; a
    missing store or index makes [transaction] or [index] throw inside the
    executor, which rejects the promise. *)
Definition selectItemIndexDB (key value : string) (p : page) : settled (option UrlDBItem) :=
  match Live2dDB p with
  | None => Fulfilled None
  | Some db =>
      match db !! storeName with
      | None => RejectedWith NotFoundError
      | Some store =>
          if String.eqb key "url" then Fulfilled (find (hasUrl value) store)
          else if String.eqb key "arraybuffer" then Fulfilled None
          else RejectedWith NotFoundError
      end
  end.

(** [createItemIndexDB(value)]: [store.add] fails on a [url] the unique
    index has already, and the promise is then fulfilled with [false]. *)
Definition createItemIndexDB (value : UrlDBItem) (p : page) : page * settled bool :=
  match Live2dDB p with
  | None => (p, Fulfilled false)
  | Some db =>
      match db !! storeName with
      | None => (p, RejectedWith NotFoundError)
      | Some store =>
          if existsb (hasUrl (url value)) store then (p, Fulfilled false)
          else (set_Live2dDB (Some (<[storeName := store ++ [value]]> db)) p,
                Fulfilled true)
      end
  end.

(** The databases of the browser by name, each with its version and its
    object stores.  The page keeps the database it has opened in
    [Live2dDB]; this is the state of the browser when it is opened. *)
Record database : Type := {
  dbVersion : Z;
  objectStores : IDBDatabase
}.

Abbreviation browser := (gmap string database).

(** [initialiseIndexDB(dbName, version, storeName)] for a [version] of at
    least 1, on a page where [window.indexedDB] is there or not.
    [indexedDB.open] fails on a database of a higher version ([onerror]),
    runs [onupgradeneeded] and then [onsuccess] on a new database or one of
    a lower version, and [onsuccess] alone on a database of that version. *)
Definition initialiseIndexDB (indexedDB : bool) (dbName : string) (version : positive)
    (storeName : option string) (b : browser) : browser * option IDBDatabase :=
  if negb indexedDB then (b, None)
  else
    let old := default {| dbVersion := 0; objectStores := ∅ |} (b !! dbName) in
    if Z.pos version <? dbVersion old then (b, None)
    else if dbVersion old <? Z.pos version then
      let db :=
        match storeName with
        | None => objectStores old                         (* if (!storeName) return *)
        | Some name =>
            if String.eqb name "" then objectStores old
            else if bool_decide (is_Some (objectStores old !! name))
                 then objectStores old                     (* objectStoreNames.contains *)
                 else <[name := []]> (objectStores old)
        end in
      (<[dbName := {| dbVersion := Z.pos version; objectStores := db |}]> b, Some db)
    else (b, Some (objectStores old)).

(** *** [fetch] *)

Section Network.
Variable net : network.

Definition nativeFetch (rq : request) (p : page) : page * settled Response :=
  (send rq p,
   match net rq with
   | Some resp => Fulfilled resp
   | None => RejectedWith FetchFailed
   end).

(** [originalFetch(input, init)] inside the wrapper.  The wrapper as its
    own original would call itself without end; [installFetchCache] never
    stores it. *)
Definition callOriginal (rq : request) (p : page) : page * settled Response :=
  match originalFetch p with
  | None => (p, RejectedWith NotAFunction)
  | Some Native => nativeFetch rq p
  | Some Wrapper => (p, Unsettled)
  end.

(** [(init?.method ?? (typeof input === 'object' && 'method' in input
      ? input.method : 'GET')).toUpperCase()] *)
Definition methodOf (rq : request) : string :=
  toUpperCase
    (match rq_init rq ≫= init_method with
     | Some m => m
     | None =>
         match rq_input rq with
         | InRequest _ m => m
         | _ => "GET"
         end
     end).

Definition urlOf (input : RequestInfo) : string :=
  match input with
  | InString u => u
  | InURL href => href
  | InRequest u _ => u
  end.

(** The function [installFetchCache] puts in [window.fetch]. *)
Definition wrapper (rq : request) (p : page) : page * settled Response :=
  if negb (LoadFromCache p) || negb (bool_decide (is_Some (Live2dDB p)))
  then callOriginal rq p
  else if negb (String.eqb (methodOf rq) "GET") then callOriginal rq p
  else
    let url := urlOf (rq_input rq) in
    match (if negb (refreshCache p) then selectItemIndexDB "url" url p
           else Fulfilled None) with
    | RejectedWith r => (p, RejectedWith r)
    | Unsettled => (p, Unsettled)
    | Fulfilled (Some cached) =>
        (p, Fulfilled {| status := 200; body := arraybuffer cached |})
    | Fulfilled None =>
        match callOriginal rq p with
        | (p', Fulfilled resp) =>
            if ok resp
            then (fst (createItemIndexDB {| url := url; arraybuffer := body resp |} p'),
                  Fulfilled resp)
            else (p', Fulfilled resp)
        | (p', RejectedWith r) => (p', RejectedWith r)
        | (p', Unsettled) => (p', Unsettled)
        end
    end.

(** A call of the global [fetch]. *)
Definition fetch (rq : request) (p : page) : page * settled Response :=
  match window_fetch p with
  | Native => nativeFetch rq p
  | Wrapper => wrapper rq p
  end.

(** The request of [fetch(url)]. *)
Definition plain (url : string) : request := {| rq_input := InString url; rq_init := None |}.

(** [cacheFetch(url)]; the result is what [arrayBuffer()] of the returned
    object gives. *)
Definition cacheFetch (url : string) (p : page) : page * settled (list byte) :=
  let enabled := LoadFromCache p && bool_decide (is_Some (Live2dDB p)) in
  match (if negb (refreshCache p) && enabled then selectItemIndexDB "url" url p
         else Fulfilled None) with
  | RejectedWith r => (p, RejectedWith r)
  | Unsettled => (p, Unsettled)
  | Fulfilled (Some item) => (p, Fulfilled (arraybuffer item))
  | Fulfilled None =>
      match fetch (plain url) p with
      | (p', Fulfilled originalResponse) =>
          let arraybuffer := body originalResponse in
          ((if enabled
            then fst (createItemIndexDB {| url := url; arraybuffer := arraybuffer |} p')
            else p'),
           Fulfilled arraybuffer)
      | (p', RejectedWith r) => (p', RejectedWith r)
      | (p', Unsettled) => (p', Unsettled)
      end
  end.

End Network.

(** *** [installFetchCache] and [uninstallFetchCache] *)

Definition installFetchCache (p : page) : page :=
  if installed p then p
  else
    {| LoadFromCache := LoadFromCache p; Live2dDB := Live2dDB p;
       refreshCache := refreshCache p;
       installed := true;
       originalFetch := Some (window_fetch p);     (* fetch.bind(window) *)
       window_fetch := Wrapper;
       sent := sent p |}.

Definition uninstallFetchCache (p : page) : page :=
  if negb (installed p) then p
  else
    {| LoadFromCache := LoadFromCache p; Live2dDB := Live2dDB p;
       refreshCache := refreshCache p;
       installed := false;
       originalFetch := None;
       window_fetch := match originalFetch p with
                       | Some f => f
                       | None => window_fetch p
                       end;
       sent := sent p |}.

(** *** What a page does with the cache *)

Inductive call : Type :=
| CacheFetch (net : network) (url : string)
| Fetch (net : network) (rq : request)
| InstallFetchCache
| UninstallFetchCache
| SetRefreshCache (refresh : bool).       (* CacheFetchSetting.refreshCache = refresh *)

Definition perform (p : page) (c : call) : page :=
  match c with
  | CacheFetch net url => fst (cacheFetch net url p)
  | Fetch net rq => fst (fetch net rq p)
  | InstallFetchCache => installFetchCache p
  | UninstallFetchCache => uninstallFetchCache p
  | SetRefreshCache refresh => set_refreshCache refresh p
  end.

(** The record the cache holds for a [url]. *)
Definition cached (url : string) (p : page) : option UrlDBItem :=
  match Live2dDB p with
  | Some db =>
      match db !! storeName with
      | Some store => find (hasUrl url) store
      | None => None
      end
  | None => None
  end.

(** A page as the module leaves it when nothing is installed, and as
    [installFetchCache] leaves it. *)
Definition wired (p : page) : Prop :=
  (installed p = false /\ originalFetch p = None /\ window_fetch p = Native)
  \/ (installed p = true /\ originalFetch p = Some Native /\ window_fetch p = Wrapper).

End Cache.

(** Pages and networks for the examples. *)
Module CacheFixtures.
Import Cache.

(** A database with an empty store [live2d], and one without the store. *)
Definition emptyDB : IDBDatabase := {[ "live2d"%string := [] ]}.
Definition otherDB : IDBDatabase := {[ "models"%string := [] ]}.

(** A page with the cache in use and nothing installed. *)
Definition page0 : page :=
  {| LoadFromCache := true; Live2dDB := Some emptyDB; refreshCache := false;
     installed := false; originalFetch := None; window_fetch := Native; sent := [] |}.

(** A network that answers every request with 200 and the same bytes, one
    that answers 404, and none. *)
Definition site (bytes : list byte) : network :=
  fun _ => Some {| status := 200; body := bytes |}.
Definition missing : network :=
  fun _ => Some {| status := 404; body := Fixtures.tag "Not Found" |}.
Definition offline : network := fun _ => None.

(** [page0] after [cacheFetch("model.json")] has stored the bytes "v1". *)
Definition page1 : page := fst (cacheFetch (site (Fixtures.tag "v1")) "model.json" page0).

End CacheFixtures.

(** * Lemmas *)

(** ** DataView reads *)

Lemma getUint8_Ok view o :
  0 <= o < byteLength view -> exists b, getUint8 view o = Ok b /\ 0 <= b < 256.
Proof.
  intros [H0 H1]. unfold getUint8, byteLength in *.
  destruct (o <? 0) eqn:E; [lia|].
  destruct (lookup_lt_is_Some_2 view (Z.to_nat o)) as [b Hb]; [lia|].
  rewrite Hb. exists (Z.of_N (Byte.to_N b)). split; [done|].
  pose proof (Byte.to_N_bounded b). lia.
Qed.

Lemma getUint8_Throw view o :
  ~ (0 <= o < byteLength view) -> getUint8 view o = Throw RangeError.
Proof.
  intros H. unfold getUint8, byteLength in *.
  destruct (o <? 0) eqn:E; [done|].
  rewrite lookup_ge_None_2; [done|lia].
Qed.

Lemma getUint8_inv view o b :
  getUint8 view o = Ok b -> 0 <= o < byteLength view /\ 0 <= b < 256.
Proof.
  intros H. destruct (decide (0 <= o < byteLength view)) as [Hr|Hr].
  - split; [done|]. destruct (getUint8_Ok view o Hr) as (b' & Hb & ?). congruence.
  - rewrite getUint8_Throw in H; [done|done].
Qed.

Lemma getUint8_byteAt view o :
  0 <= o < byteLength view -> getUint8 view o = Ok (byteAt view o).
Proof.
  intros H. unfold byteAt. destruct (getUint8_Ok view o H) as (b & -> & _). done.
Qed.

Lemma byteAt_range view o : 0 <= byteAt view o < 256.
Proof.
  unfold byteAt. destruct (getUint8 view o) eqn:E; [|lia].
  by apply getUint8_inv in E as [_ ?].
Qed.

Lemma getUint16_Ok view o :
  0 <= o -> o + 2 <= byteLength view -> getUint16 view o = Ok (u16At view o).
Proof.
  intros. unfold getUint16, u16At.
  rewrite !getUint8_byteAt by lia. done.
Qed.

Lemma getUint32_Ok view o :
  0 <= o -> o + 4 <= byteLength view -> getUint32 view o = Ok (u32At view o).
Proof.
  intros. unfold getUint32, u32At.
  rewrite !getUint8_byteAt by lia. done.
Qed.

Lemma getUint16_inv view o v :
  getUint16 view o = Ok v -> 0 <= o /\ o + 2 <= byteLength view /\ v = u16At view o.
Proof.
  unfold getUint16. intros H.
  destruct (getUint8 view o) eqn:E0; simpl in H; [|done].
  destruct (getUint8 view (o + 1)) eqn:E1; simpl in H; [|done].
  apply getUint8_inv in E0 as E0', E1 as E1'.
  split; [lia|]. split; [lia|]. unfold u16At, byteAt. rewrite E0, E1. congruence.
Qed.

Lemma getUint16_Throw view o :
  ~ (0 <= o /\ o + 2 <= byteLength view) -> getUint16 view o = Throw RangeError.
Proof.
  intros H. unfold getUint16.
  destruct (getUint8 view o) eqn:E0; simpl.
  - apply getUint8_inv in E0 as [? _]. rewrite getUint8_Throw; [done|lia].
  - destruct (decide (0 <= o < byteLength view)) as [Hr|Hr].
    + rewrite getUint8_byteAt in E0 by done. done.
    + rewrite getUint8_Throw in E0 by done. congruence.
Qed.

Lemma u16At_range view o : 0 <= u16At view o < 65536.
Proof.
  unfold u16At. pose proof (byteAt_range view o). pose proof (byteAt_range view (o+1)). lia.
Qed.

Lemma u32At_range view o : 0 <= u32At view o < 4294967296.
Proof.
  unfold u32At. pose proof (byteAt_range view o). pose proof (byteAt_range view (o+1)).
  pose proof (byteAt_range view (o+2)). pose proof (byteAt_range view (o+3)). lia.
Qed.

(** ** The chunk loop of [Wav.parseWav] *)

Import Wav.

Lemma readFourCC_Ok view o :
  0 <= o -> o + 4 <= byteLength view -> readFourCC view o = Ok (fourCCAt view o).
Proof.
  intros. unfold readFourCC, fourCCAt. rewrite !getUint8_byteAt by lia. done.
Qed.

Lemma scanChunks_chunkList fuel view offset c :
  0 <= offset ->
  byteLength view - offset < 8 * Z.of_nat fuel + 8 ->
  scanChunks fuel view offset c = Ok (foldl note c (chunkList fuel view offset)).
Proof.
  revert offset c. induction fuel as [|fuel IH]; intros offset c H0 Hf.
  - simpl. destruct (offset + 8 <=? byteLength view) eqn:E; [lia|done].
  - simpl. destruct (offset + 8 <=? byteLength view) eqn:E; [|done].
    apply Z.leb_le in E.
    rewrite readFourCC_Ok by lia. simpl.
    rewrite getUint32_Ok by lia. simpl.
    pose proof (u32At_range view (offset + 4)).
    pose proof (Z.mod_pos_bound (u32At view (offset + 4)) 2).
    rewrite IH by lia. done.
Qed.

(** More fuel changes nothing: the loop has reached its exit. *)
Lemma chunkList_fuel fuel k view offset :
  0 <= offset ->
  byteLength view - offset < 8 * Z.of_nat fuel + 8 ->
  chunkList (fuel + k) view offset = chunkList fuel view offset.
Proof.
  revert offset. induction fuel as [|fuel IH]; intros offset H0 Hf.
  - simpl. destruct k; [done|]. simpl.
    destruct (offset + 8 <=? byteLength view) eqn:E; [lia|done].
  - simpl. destruct (offset + 8 <=? byteLength view) eqn:E; [|done].
    apply Z.leb_le in E.
    pose proof (u32At_range view (offset + 4)).
    pose proof (Z.mod_pos_bound (u32At view (offset + 4)) 2).
    rewrite IH by lia. done.
Qed.

Lemma scanChunks_fuel k view c :
  scanChunks (length view + k) view 12 c = scanChunks (length view) view 12 c.
Proof.
  rewrite !scanChunks_chunkList; unfold byteLength; try lia.
  rewrite chunkList_fuel; [done|lia|unfold byteLength; lia].
Qed.

Lemma chunkList_payload fuel view offset ck :
  0 <= offset -> ck ∈ chunkList fuel view offset ->
  offset + 8 <= ckPayload ck <= byteLength view /\ 0 <= ckSize ck < 4294967296.
Proof.
  revert offset. induction fuel as [|fuel IH]; intros offset H0 Hin; simpl in Hin.
  - by apply elem_of_nil in Hin.
  - destruct (offset + 8 <=? byteLength view) eqn:E; [|by apply elem_of_nil in Hin].
    apply Z.leb_le in E.
    pose proof (u32At_range view (offset + 4)).
    pose proof (Z.mod_pos_bound (u32At view (offset + 4)) 2).
    apply elem_of_cons in Hin as [->|Hin]; simpl; [lia|].
    apply IH in Hin; lia.
Qed.

Lemma foldl_note_fmt cks c :
  fmtOffset (foldl note c cks) =
    match lastChunk "fmt " cks with Some ck => ckPayload ck | None => fmtOffset c end
  /\ fmtSize (foldl note c cks) =
    match lastChunk "fmt " cks with Some ck => ckSize ck | None => fmtSize c end
  /\ dataOffset (foldl note c cks) =
    match lastChunk "data" cks with Some ck => ckPayload ck | None => dataOffset c end
  /\ dataSize (foldl note c cks) =
    match lastChunk "data" cks with Some ck => ckSize ck | None => dataSize c end.
Proof.
  revert c. induction cks as [|ck cks IH] using rev_ind; intros c; [done|].
  rewrite foldl_app. simpl. unfold lastChunk. rewrite !filter_app, !filter_cons, !filter_nil.
  destruct (IH c) as (I1 & I2 & I3 & I4). unfold lastChunk in *.
  unfold note at 1 3 5 7. unfold noteChunk.
  destruct (String.eqb_spec (ckId ck) "fmt ") as [e|n];
    [|destruct (String.eqb_spec (ckId ck) "data") as [e'|n']];
    destruct (decide (ckId ck = "fmt ")) as [d1|d1]; try congruence;
    destruct (decide (ckId ck = "data")) as [d2|d2]; try congruence;
    rewrite ?last_snoc, ?app_nil_r; simpl; done.
Qed.

(** ** Reading one sample *)

Lemma land_shiftl_disjoint a b n :
  0 <= a < 2 ^ n -> 0 <= n -> Z.land a (Z.shiftl b n) = 0.
Proof.
  intros Ha Hn.
  apply Z.bits_inj'. intros k Hk. rewrite Z.land_spec, Z.bits_0.
  destruct (Z.lt_ge_cases k n).
  - rewrite Z.shiftl_spec_low by lia. apply andb_false_r.
  - assert (Z.testbit a k = false) as ->; [|done].
    destruct (Z.eq_dec a 0) as [->|]; [apply Z.bits_0|].
    apply Z.bits_above_log2; [lia|].
    apply Z.lt_le_trans with n; [|lia].
    apply Z.log2_lt_pow2; lia.
Qed.

Lemma lor_disjoint_add a b n :
  0 <= a < 2 ^ n -> 0 <= n -> Z.lor a (Z.shiftl b n) = a + b * 2 ^ n.
Proof.
  intros Ha Hn.
  rewrite <- Z.shiftl_mul_pow2 by lia.
  rewrite <- Z.lxor_lor by (by apply land_shiftl_disjoint).
  symmetry. apply Z.add_nocarry_lxor. by apply land_shiftl_disjoint.
Qed.

Lemma sign_extend24 v :
  0 <= v < 16777216 ->
  (if negb (Z.land v 0x800000 =? 0) then toInt32 (Z.lor v 0xff000000) else v)
  = if v <? 8388608 then v else v - 16777216.
Proof.
  intros Hv.
  assert (Hbit : Z.land v 0x800000 = if Z.testbit v 23 then 0x800000 else 0).
  { apply Z.bits_inj'. intros k Hk. rewrite Z.land_spec.
    change 0x800000 with (2 ^ 23). 
    destruct (Z.eq_dec k 23) as [->|Hne].
    - rewrite (Z.pow2_bits_true 23) by lia. rewrite andb_true_r.
      destruct (Z.testbit v 23); [by rewrite (Z.pow2_bits_true 23) by lia|by rewrite Z.bits_0].
    - rewrite (Z.pow2_bits_false 23 k) by lia. rewrite andb_false_r.
      destruct (Z.testbit v 23); [by rewrite (Z.pow2_bits_false 23 k) by lia|by rewrite Z.bits_0]. }
  assert (Ht : Z.testbit v 23 = negb (v <? 8388608)).
  { rewrite Z.testbit_eqb by lia. change (2 ^ 23) with 8388608.
    destruct (v <? 8388608) eqn:E.
    - apply Z.ltb_lt in E. rewrite Z.div_small by lia. done.
    - apply Z.ltb_ge in E. 
      assert (v / 8388608 = 1) as -> by (symmetry; apply Z.div_unique with (v - 8388608); lia). done. }
  rewrite Hbit, Ht. destruct (v <? 8388608) eqn:E; simpl; [done|].
  apply Z.ltb_ge in E.
  assert (Hl : Z.lor v 0xff000000 = v + 0xff000000).
  { change (Z.lor v 0xff000000) with (Z.lor v (Z.shiftl 255 24)).
    rewrite lor_disjoint_add by (change (2 ^ 24) with 16777216; lia).
    change (2 ^ 24) with 16777216. lia. }
  rewrite Hl. unfold toInt32. rewrite Z.mod_small by lia.
  destruct (v + 0xff000000 <? 2147483648) eqn:E2; [apply Z.ltb_lt in E2; lia|lia].
Qed.

Lemma readSample_Ok view bits p :
  includes [8; 16; 24; 32] bits = true ->
  0 <= p -> p + bits / 8 <= byteLength view ->
  readSample view bits p = Ok (sampleAt view bits p, p + bits / 8).
Proof.
  intros Hb H0 H1. unfold includes in Hb. simpl in Hb.
  unfold readSample, sampleAt.
  destruct (bits =? 8) eqn:E8.
  { apply Z.eqb_eq in E8. subst. change (8 / 8) with 1 in *.
    rewrite getUint8_byteAt by lia. done. }
  destruct (bits =? 16) eqn:E16.
  { apply Z.eqb_eq in E16. subst. change (16 / 8) with 2 in *.
    unfold getInt16. rewrite getUint16_Ok by lia. done. }
  destruct (bits =? 24) eqn:E24.
  { apply Z.eqb_eq in E24. subst. change (24 / 8) with 3 in *.
    rewrite !getUint8_byteAt by lia. simpl.
    pose proof (byteAt_range view p). pose proof (byteAt_range view (p+1)).
    pose proof (byteAt_range view (p+2)).
    rewrite (lor_disjoint_add (byteAt view p) _ 8) by lia.
    rewrite (lor_disjoint_add _ _ 16) by lia.
    change (2 ^ 8) with 256. change (2 ^ 16) with 65536.
    rewrite sign_extend24 by lia. done. }
  destruct (bits =? 32) eqn:E32; [|done].
  apply Z.eqb_eq in E32. subst. change (32 / 8) with 4 in *.
  unfold getInt32. rewrite getUint32_Ok by lia. done.
Qed.

(** ** The frame loop of [Wav.parseWav] in closed form *)

Section Filling.
Variable val : nat -> nat -> Q.
Variables nch frames : nat.

#[local] Abbreviation filled := (filled val nch frames).

Lemma filled_lookup i k ch j :
  (ch < nch)%nat -> (j < frames)%nat ->
  filled i k !! ch ≫= (fun data => data !! j)
  = Some (if (j <? i)%nat || ((j =? i)%nat && (ch <? k)%nat) then val ch j else 0%Q).
Proof.
  intros Hc Hj. unfold filled.
  rewrite list_lookup_fmap, lookup_seq_lt by done. simpl.
  rewrite list_lookup_fmap, lookup_seq_lt by done. done.
Qed.

Lemma grid_eq (g1 g2 : list (list Q)) :
  length g1 = nch -> length g2 = nch ->
  (forall ch d, g1 !! ch = Some d -> length d = frames) ->
  (forall ch d, g2 !! ch = Some d -> length d = frames) ->
  (forall ch j, (ch < nch)%nat -> (j < frames)%nat ->
     g1 !! ch ≫= (fun d => d !! j) = g2 !! ch ≫= (fun d => d !! j)) ->
  g1 = g2.
Proof.
  intros L1 L2 F1 F2 H. apply list_eq. intros ch.
  destruct (decide (ch < nch)%nat) as [Hc|Hc].
  - destruct (lookup_lt_is_Some_2 g1 ch) as [d1 E1]; [lia|].
    destruct (lookup_lt_is_Some_2 g2 ch) as [d2 E2]; [lia|].
    rewrite E1, E2. f_equal. apply list_eq. intros j.
    destruct (decide (j < frames)%nat) as [Hj|Hj].
    + specialize (H ch j Hc Hj). rewrite E1, E2 in H. done.
    + rewrite !lookup_ge_None_2; [done| |].
      * rewrite (F2 _ _ E2). lia.
      * rewrite (F1 _ _ E1). lia.
  - rewrite !lookup_ge_None_2; [done|lia|lia].
Qed.

Lemma filled_length i k : length (filled i k) = nch.
Proof. unfold filled. by rewrite length_map, length_seq. Qed.

Lemma filled_row_length i k ch d : filled i k !! ch = Some d -> length d = frames.
Proof.
  unfold filled. rewrite list_lookup_fmap. intros H.
  destruct (seq 0 nch !! ch); simpl in H; [|done].
  injection H as <-. by rewrite length_map, length_seq.
Qed.

Lemma filled_start : filled 0 0 = replicate nch (new_Float32Array frames).
Proof.
  apply grid_eq.
  - apply filled_length.
  - apply length_replicate.
  - apply filled_row_length.
  - intros ch d [-> _]%lookup_replicate. apply length_replicate.
  - intros ch j Hc Hj. rewrite filled_lookup by done.
    rewrite lookup_replicate_2 by done. simpl.
    unfold new_Float32Array. rewrite lookup_replicate_2 by done.
    change (j <? 0)%nat with false. change (ch <? 0)%nat with false.
    by rewrite andb_false_r.
Qed.

Lemma filled_next_frame i : filled i nch = filled (S i) 0.
Proof.
  apply grid_eq; try apply filled_length; try apply filled_row_length.
  intros ch j Hc Hj. rewrite !filled_lookup by done. f_equal.
  destruct (Nat.ltb_spec j i), (Nat.eqb_spec j i), (Nat.ltb_spec ch nch),
    (Nat.ltb_spec j (S i)), (Nat.eqb_spec j (S i)); simpl; try done; lia.
Qed.

Lemma filled_store i k :
  (k < nch)%nat -> (i < frames)%nat ->
  alter (fun data => <[i := val k i]> data) k (filled i k) = filled i (S k).
Proof.
  intros Hk Hi.
  apply grid_eq; try apply filled_length; try apply filled_row_length.
  - rewrite length_alter. apply filled_length.
  - intros ch d. destruct (decide (ch = k)) as [->|Hne].
    + rewrite list_lookup_alter_eq. intros H.
      destruct (filled i k !! k) eqn:E; simpl in H; [|done].
      injection H as <-. rewrite length_insert. by apply filled_row_length in E.
    + rewrite list_lookup_alter_ne by done. apply filled_row_length.
  - intros ch j Hc Hj. rewrite (filled_lookup i (S k)) by done.
    destruct (decide (ch = k)) as [->|Hne].
    + rewrite list_lookup_alter_eq.
      pose proof (filled_lookup i k k j Hc Hj) as HL.
      destruct (filled i k !! k) as [d|] eqn:E; simpl in *; [|done].
      destruct (decide (j = i)) as [->|Hji].
      * rewrite list_lookup_insert_eq by (apply filled_row_length in E; lia).
        f_equal. rewrite Nat.eqb_refl.
        destruct (Nat.ltb_spec k (S k)); [|lia]. by rewrite orb_true_r.
      * rewrite list_lookup_insert_ne by done. rewrite HL. f_equal.
        destruct (Nat.eqb_spec j i); [done|]. simpl. done.
    + rewrite list_lookup_alter_ne by done. rewrite filled_lookup by done. f_equal.
      destruct (Nat.ltb_spec ch k), (Nat.ltb_spec ch (S k)); try done; lia.
Qed.

End Filling.

Section DecodeLoop.
Variable view : list byte.
Variable bits : Z.
Variables nch frames : nat.
Variable p0 : Z.
Hypothesis bits_ok : includes [8; 16; 24; 32] bits = true.
Hypothesis p0_ok : 0 <= p0.
Hypothesis fits : p0 + Z.of_nat frames * Z.of_nat nch * (bits / 8) <= byteLength view.

Let bps := bits / 8.
Let val (ch j : nat) : Q :=
  fround (clamp (sampleAt view bits (p0 + (Z.of_nat j * Z.of_nat nch + Z.of_nat ch) * bps))).

Lemma bps_pos : 0 < bps.
Proof.
  unfold bps. unfold includes in bits_ok. simpl in bits_ok.
  repeat (apply orb_prop in bits_ok as [bits_ok|bits_ok];
          [apply Z.eqb_eq in bits_ok; subst; done|]).
  done.
Qed.

Lemma decode_channels i k m :
  (i < frames)%nat -> (k + m <= nch)%nat ->
  for_each (seq k m)
    (fun ch st =>
       r <- readSample view bits (fst st) ;;
       Ok (snd r, storeSample (snd st) ch i (clamp (fst r))))
    (p0 + (Z.of_nat i * Z.of_nat nch + Z.of_nat k) * bps, filled val nch frames i k)
  = Ok (p0 + (Z.of_nat i * Z.of_nat nch + Z.of_nat (k + m)) * bps,
        filled val nch frames i (k + m)).
Proof.
  intros Hi. revert k. induction m as [|m IH]; intros k Hk.
  - simpl. by rewrite Nat.add_0_r.
  - simpl. pose proof bps_pos as Hb.
    assert (Hcell : Z.of_nat i * Z.of_nat nch + Z.of_nat k + 1
                    <= Z.of_nat frames * Z.of_nat nch) by nia.
    apply (Z.mul_le_mono_nonneg_r _ _ bps) in Hcell; [|lia].
    fold bps in fits.
    rewrite readSample_Ok; [|done|nia|fold bps; lia].
    simpl. fold bps. unfold storeSample.
    change (fround (clamp (sampleAt view bits
              (p0 + (Z.of_nat i * Z.of_nat nch + Z.of_nat k) * bps))))
      with (val k i).
    rewrite filled_store by lia.
    replace (p0 + (Z.of_nat i * Z.of_nat nch + Z.of_nat k) * bps + bps)
      with (p0 + (Z.of_nat i * Z.of_nat nch + Z.of_nat (S k)) * bps) by lia.
    rewrite IH by lia. do 3 f_equal; lia.
Qed.

Lemma decode_frames i m :
  (i + m <= frames)%nat ->
  for_each (seq i m) (decodeFrame view bits nch)
    (p0 + Z.of_nat i * Z.of_nat nch * bps, filled val nch frames i 0)
  = Ok (p0 + Z.of_nat (i + m) * Z.of_nat nch * bps, filled val nch frames (i + m) 0).
Proof.
  revert i. induction m as [|m IH]; intros i Hi.
  - simpl. by rewrite Nat.add_0_r.
  - simpl. unfold decodeFrame at 1.
    replace (p0 + Z.of_nat i * Z.of_nat nch * bps)
      with (p0 + (Z.of_nat i * Z.of_nat nch + Z.of_nat 0) * bps) by lia.
    rewrite decode_channels by lia. simpl.
    rewrite filled_next_frame.
    replace (p0 + (Z.of_nat i * Z.of_nat nch + Z.of_nat nch) * bps)
      with (p0 + Z.of_nat (S i) * Z.of_nat nch * bps) by lia.
    rewrite IH by lia. do 3 f_equal; lia.
Qed.

Lemma filled_all : filled val nch frames frames 0 = decodedPcm view bits nch frames p0.
Proof.
  unfold filled, decodedPcm. apply map_ext_in. intros ch _.
  apply map_ext_in. intros j Hj%in_seq.
  destruct (Nat.ltb_spec j frames); [done|lia].
Qed.

Lemma decode_all :
  for_each (seq 0 frames) (decodeFrame view bits nch)
    (p0, replicate nch (new_Float32Array frames))
  = Ok (p0 + Z.of_nat frames * Z.of_nat nch * bps, decodedPcm view bits nch frames p0).
Proof.
  rewrite <- (filled_start val), <- filled_all.
  pose proof (decode_frames 0 frames) as H.
  replace (p0 + Z.of_nat 0 * Z.of_nat nch * bps) with p0 in H by lia.
  by apply H.
Qed.

End DecodeLoop.

Lemma getUint16_eq view o :
  getUint16 view o =
    if (0 <=? o) && (o + 2 <=? byteLength view) then Ok (u16At view o) else Throw RangeError.
Proof.
  destruct (Z.leb_spec 0 o), (Z.leb_spec (o + 2) (byteLength view)); simpl;
    first [ by apply getUint16_Ok | apply getUint16_Throw; lia ].
Qed.

Lemma getUint32_eq view o :
  getUint32 view o =
    if (0 <=? o) && (o + 4 <=? byteLength view) then Ok (u32At view o) else Throw RangeError.
Proof.
  destruct (Z.leb_spec 0 o), (Z.leb_spec (o + 4) (byteLength view)); simpl;
    try (by apply getUint32_Ok).
  - unfold getUint32.
    destruct (decide (o + 1 <= byteLength view)); [|by rewrite getUint8_Throw by lia].
    rewrite getUint8_byteAt by lia. simpl.
    destruct (decide (o + 2 <= byteLength view)); [|by rewrite getUint8_Throw by lia].
    rewrite getUint8_byteAt by lia. simpl.
    destruct (decide (o + 3 <= byteLength view)); [|by rewrite getUint8_Throw by lia].
    rewrite getUint8_byteAt by lia. simpl.
    by rewrite getUint8_Throw by lia.
  - unfold getUint32. by rewrite getUint8_Throw by lia.
  - unfold getUint32. by rewrite getUint8_Throw by lia.
Qed.

Lemma lastChunk_elem id cks ck : lastChunk id cks = Some ck -> ck ∈ cks /\ ckId ck = id.
Proof.
  unfold lastChunk. intros H%last_Some_elem_of. by apply list_elem_of_filter in H as [? ?].
Qed.

Lemma lastChunk_bounds buf id ck :
  lastChunk id (chunksOf buf) = Some ck ->
  20 <= ckPayload ck <= byteLength buf /\ 0 <= ckSize ck < 4294967296.
Proof.
  intros [H _]%lastChunk_elem. unfold chunksOf in H.
  apply chunkList_payload in H; lia.
Qed.

Lemma parseWav_cases buf : parseWav buf = parseWavCases buf.
Proof.
  unfold parseWav, parseWavCases.
  destruct (Z.ltb_spec (byteLength buf) 12) as [|Hlen]; [done|].
  rewrite !readFourCC_Ok by lia. cbn [bind].
  destruct (negb (fourCCAt buf 0 =? "RIFF")%string); [done|].
  destruct (negb (fourCCAt buf 8 =? "WAVE")%string); [done|].
  rewrite scanChunks_chunkList by (unfold byteLength; lia). cbn [bind].
  fold (chunksOf buf).
  destruct (foldl_note_fmt (chunksOf buf) noChunks) as (-> & -> & -> & ->).
  destruct (lastChunk "fmt " (chunksOf buf)) as [f|] eqn:Ef; [|done].
  pose proof (lastChunk_bounds _ _ _ Ef) as [Hf Hfs].
  destruct (Z.ltb_spec (ckPayload f) 0); [lia|]. cbn [orb].
  destruct (lastChunk "data" (chunksOf buf)) as [d|] eqn:Ed; [|done].
  pose proof (lastChunk_bounds _ _ _ Ed) as [Hd Hds].
  destruct (Z.ltb_spec (ckPayload d) 0); [lia|].
  destruct (Z.ltb_spec (byteLength buf) (ckPayload f + Z.min (ckSize f) 16)); [done|].
  rewrite !getUint16_eq, getUint32_eq.
  replace (ckPayload f + 0) with (ckPayload f) by lia.
  destruct (Z.ltb_spec (byteLength buf) (ckPayload f + 16)) as [Hs|Hs].
  - repeat match goal with
           | |- context [(?a <=? ?b)] => destruct (Z.leb_spec a b); cbn [bind andb]; try lia; try done
           end.
  - repeat match goal with
           | |- context [(?a <=? ?b)] => destruct (Z.leb_spec a b); cbn [bind andb]; try lia
           end.
    destruct (negb (u16At buf (ckPayload f) =? 1)); [done|].
    destruct (Z.eqb_spec (u16At buf (ckPayload f + 2)) 0) as [|Hch]; [done|].
    destruct (Z.eqb_spec (u32At buf (ckPayload f + 4)) 0) as [|Hrate]; [done|]. cbn [orb].
    destruct (includes [8; 16; 24; 32] (u16At buf (ckPayload f + 14))) eqn:Hbits; [|done].
    cbn [negb].
    set (channels := u16At buf (ckPayload f + 2)) in *.
    set (bits := u16At buf (ckPayload f + 14)) in *.
    fold (framesOf buf d channels bits).
    pose proof (u16At_range buf (ckPayload f + 2)). fold channels in H1.
    assert (Hbps : 0 < bits / 8).
    { unfold includes in Hbits. simpl in Hbits.
      repeat (apply orb_prop in Hbits as [Hbits|Hbits];
              [apply Z.eqb_eq in Hbits; rewrite Hbits; done|]). done. }
    assert (Hfr : 0 <= framesOf buf d channels bits
                  /\ framesOf buf d channels bits * (channels * (bits / 8))
                     <= byteLength buf - ckPayload d).
    { unfold framesOf.
      set (avail := Z.min (ckSize d) (byteLength buf - ckPayload d)).
      assert (0 <= avail) by (unfold avail; lia).
      assert (0 < channels * (bits / 8)) by nia.
      split; [apply Z.div_pos; lia|].
      pose proof (Z.mul_div_le avail (channels * (bits / 8))). unfold avail in *. lia. }
    rewrite decode_all; [done|done|lia|].
    rewrite !Z2Nat.id by lia. nia.
Qed.

(** ** Rounding to binary32 *)

Lemma binade_dyadic a s :
  0 < a -> 0 <= s -> binade a (2 ^ s) = Z.log2 a - s.
Proof.
  intros Ha Hs. unfold binade. rewrite Z.log2_pow2 by lia.
  destruct (Z.log2_spec a Ha) as [Hlo Hhi].
  assert (Hl : 0 <= Z.log2 a) by apply Z.log2_nonneg.
  unfold below_pow2.
  destruct (Z.leb_spec 0 (Z.log2 a - s)).
  - rewrite <- Z.pow_add_r by lia. replace (s + (Z.log2 a - s)) with (Z.log2 a) by lia.
    destruct (Z.ltb_spec a (2 ^ Z.log2 a)); [lia|done].
  - destruct (Z.ltb_spec (a * 2 ^ (- (Z.log2 a - s))) (2 ^ s)) as [Hlt|]; [|done].
    exfalso.
    assert (2 ^ s = 2 ^ Z.log2 a * 2 ^ (- (Z.log2 a - s))).
    { rewrite <- Z.pow_add_r by lia. f_equal. lia. }
    assert (0 < 2 ^ (- (Z.log2 a - s))) by (apply Z.pow_pos_nonneg; lia).
    nia.
Qed.

Lemma round_half_even_exact q den : 0 < den -> round_half_even (q * den) den = q.
Proof.
  intros Hd. unfold round_half_even.
  rewrite Z.div_mul, Z.mod_mul by lia.
  destruct (Z.ltb_spec (2 * 0) den); [done|lia].
Qed.

Lemma round_half_even_bounds num den :
  0 <= num -> 0 < den ->
  num / den <= round_half_even num den <= num / den + 1
  /\ (num mod den = 0 -> round_half_even num den = num / den).
Proof.
  intros Hn Hd. unfold round_half_even. split.
  - destruct (2 * (num mod den) <? den); [lia|].
    destruct (den <? 2 * (num mod den)); [lia|].
    destruct (Z.even (num / den)); lia.
  - intros ->. destruct (Z.ltb_spec (2 * 0) den); [done|lia].
Qed.

(** A stored value with at most 24 significant bits over a power of two is
    kept as it is. *)
Lemma fround_exact x s :
  0 <= s -> Z.pos (Qden x) = 2 ^ s -> Z.abs (Qnum x) < 2 ^ 24 ->
  (fround x == x)%Q.
Proof.
  intros Hs Hd Ha. unfold fround.
  destruct (Z.eqb_spec (Qnum x) 0) as [E0|Hn0].
  { destruct x as [n d]. simpl in *. subst. unfold Qeq. simpl. done. }
  set (a := Z.abs (Qnum x)) in *.
  assert (Hapos : 0 < a) by (unfold a; lia).
  assert (Hl : 0 <= Z.log2 a < 24).
  { split; [apply Z.log2_nonneg|]. apply Z.log2_lt_pow2; lia. }
  cbv zeta. fold a. rewrite Hd, binade_dyadic by done.
  set (u := Z.log2 a - s - 23).
  assert (Hx : (x == (if Qnum x <? 0 then - (a # Qden x) else a # Qden x))%Q).
  { unfold a. destruct (Z.ltb_spec (Qnum x) 0); unfold Qeq; simpl; lia. }
  assert (Hval : ((if u <? 0
                   then inject_Z (round_half_even (a * 2 ^ (- u)) (2 ^ s)) / inject_Z (2 ^ (- u))
                   else inject_Z (round_half_even a (2 ^ s * 2 ^ u) * 2 ^ u))
                  == a # Qden x)%Q).
  { destruct (Z.ltb_spec u 0) as [Hu|Hu].
    - replace (a * 2 ^ (- u)) with (a * 2 ^ (23 - Z.log2 a) * 2 ^ s).
      2:{ rewrite <- Z.mul_assoc, <- Z.pow_add_r by lia. do 2 f_equal. lia. }
      rewrite round_half_even_exact by (apply Z.pow_pos_nonneg; lia).
      assert (0 < 2 ^ (- u)) by (apply Z.pow_pos_nonneg; lia).
      assert (0 < 2 ^ (23 - Z.log2 a)) by (apply Z.pow_pos_nonneg; lia).
      unfold Qeq, Qdiv, Qmult, Qinv, inject_Z. simpl.
      destruct (2 ^ (- u)) as [|p|p] eqn:Ep; try lia. simpl.
      rewrite Hd, Z.mul_1_r, Pos.mul_1_l.
      replace (Z.pos p) with (2 ^ (23 - Z.log2 a) * 2 ^ s).
      2:{ rewrite <- Ep, <- Z.pow_add_r by lia. f_equal. lia. }
      lia.
    - assert (s = 0 /\ u = 0) as [-> Hu0] by lia. rewrite Hu0.
      change (2 ^ 0) with 1. rewrite !Z.mul_1_r.
      replace a with (a * 1) at 1 by lia. rewrite round_half_even_exact by lia.
      unfold Qeq, inject_Z. simpl. rewrite Hd. change (2 ^ 0) with 1. lia. }
  rewrite Hx at 2.
  destruct (u <? 0); destruct (Qnum x <? 0); rewrite Hval; reflexivity.
Qed.

(** Rounding keeps a value of [[-1, 1]] over a power of two in [[-1, 1]]. *)
Lemma fround_range x s :
  0 <= s -> Z.pos (Qden x) = 2 ^ s -> Z.abs (Qnum x) <= 2 ^ s ->
  (-1 <= fround x /\ fround x <= 1)%Q.
Proof.
  intros Hs Hd Ha. unfold fround.
  destruct (Z.eqb_spec (Qnum x) 0) as [E0|Hn0].
  { split; unfold Qle; simpl; lia. }
  set (a := Z.abs (Qnum x)) in *.
  assert (Hapos : 0 < a) by (unfold a; lia).
  cbv zeta. fold a. rewrite Hd, binade_dyadic by done.
  destruct (Z.log2_spec a Hapos) as [Hlo Hhi].
  assert (Hl : 0 <= Z.log2 a <= s).
  { split; [apply Z.log2_nonneg|].
    destruct (Z.eq_dec a (2 ^ s)) as [Heq|]; [rewrite Heq, Z.log2_pow2; lia|].
    apply Z.lt_le_incl, Z.log2_lt_pow2; lia. }
  set (u := Z.log2 a - s - 23).
  destruct (Z.ltb_spec u 0) as [Hu|Hu]; [|lia].
  set (M := 2 ^ (- u)).
  assert (HM : 0 < M) by (apply Z.pow_pos_nonneg; lia).
  assert (Hs2 : 0 < 2 ^ s) by (apply Z.pow_pos_nonneg; lia).
  set (k := round_half_even (a * M) (2 ^ s)).
  destruct (round_half_even_bounds (a * M) (2 ^ s)) as [[Hk1 Hk2] Hk3]; [nia|lia|].
  fold k in Hk1, Hk2, Hk3.
  assert (Hk : 0 <= k <= M).
  { split; [pose proof (Z.div_pos (a * M) (2 ^ s)); lia|].
    destruct (Z.eq_dec a (2 ^ s)) as [Heq|Hne].
    - assert (Hexact : a * M = M * 2 ^ s) by lia.
      rewrite Hexact in Hk3. rewrite Z.mod_mul, Z.div_mul in Hk3 by lia.
      rewrite Hk3 by done. lia.
    - assert (Hls : Z.log2 a < s) by (apply Z.log2_lt_pow2; lia).
      assert (HM24 : 2 ^ 24 <= M).
      { unfold M. apply Z.pow_le_mono_r; lia. }
      assert (a * M < 2 ^ 24 * 2 ^ s).
      { assert (2 ^ 24 * 2 ^ s = 2 ^ Z.succ (Z.log2 a) * M) as ->.
        { unfold M. rewrite <- !Z.pow_add_r by lia. f_equal. lia. }
        nia. }
      assert (a * M / 2 ^ s < 2 ^ 24) by (apply Z.div_lt_upper_bound; lia).
      lia. }
  assert (Hv : (0 <= inject_Z k / inject_Z M /\ inject_Z k / inject_Z M <= 1)%Q).
  { unfold Qle, Qdiv, Qmult, Qinv, inject_Z. simpl.
    destruct M as [|p|p] eqn:Ep; try lia. simpl. lia. }
  destruct Hv as [Hv0 Hv1].
  destruct (Qnum x <? 0); split.
  - apply Qopp_le_compat in Hv1. exact Hv1.
  - apply Qle_trans with 0%Q; [|done].
    apply Qopp_le_compat in Hv0. exact Hv0.
  - apply Qle_trans with 0%Q; [done|exact Hv0].
  - exact Hv1.
Qed.

Lemma round_half_even_error num den :
  0 <= num -> 0 < den ->
  Z.abs (2 * (round_half_even num den * den - num)) <= den.
Proof.
  intros Hn Hd. unfold round_half_even.
  pose proof (Z.div_mod num den ltac:(lia)) as Hdm.
  pose proof (Z.mod_pos_bound num den Hd) as Hr.
  destruct (Z.ltb_spec (2 * (num mod den)) den); [nia|].
  destruct (Z.ltb_spec den (2 * (num mod den))); [nia|].
  destruct (Z.even (num / den)); nia.
Qed.

(** Rounding moves a value of [[-1, 1]] over a power of two by at most
    2^-25. *)
Lemma fround_error x s :
  0 <= s -> Z.pos (Qden x) = 2 ^ s -> Z.abs (Qnum x) <= 2 ^ s ->
  (Qabs (fround x - x) <= 1 # 33554432)%Q.
Proof.
  intros Hs Hd Ha.
  destruct (Z.eqb_spec (Qnum x) 0) as [E0|Hn0].
  { unfold fround. rewrite E0. simpl. destruct x as [n d]. simpl in *. subst.
    unfold Qle, Qabs, Qminus, Qplus, Qopp. simpl. lia. }
  destruct (Z.eq_dec (Z.abs (Qnum x)) (2 ^ s)) as [Heq|Hne].
  { (* x is 1 or -1 *)
    assert (Hx : (fround x == x)%Q).
    { unfold fround. destruct (Z.eqb_spec (Qnum x) 0); [done|].
      cbv zeta. rewrite Hd, Heq, binade_dyadic by (try apply Z.pow_pos_nonneg; lia).
      rewrite Z.log2_pow2 by lia. replace (s - s - 23) with (-23) by lia.
      change (-23 <? 0) with true. cbv iota.
      change (- -23) with 23. rewrite Z.mul_comm, round_half_even_exact
        by (apply Z.pow_pos_nonneg; lia).
      assert (Hs2 : 0 < 2 ^ s) by (apply Z.pow_pos_nonneg; lia).
      destruct (Z.ltb_spec (Qnum x) 0); unfold Qeq; simpl; rewrite Hd; lia. }
    rewrite Hx. unfold Qminus. rewrite Qplus_opp_r. unfold Qle. simpl. lia. }
  unfold fround.
  destruct (Z.eqb_spec (Qnum x) 0); [done|].
  set (a := Z.abs (Qnum x)) in *.
  assert (Hapos : 0 < a) by (unfold a; lia).
  cbv zeta. fold a. rewrite Hd, binade_dyadic by done.
  destruct (Z.log2_spec a Hapos) as [Hlo Hhi].
  assert (Hls : 0 <= Z.log2 a < s).
  { split; [apply Z.log2_nonneg|apply Z.log2_lt_pow2; lia]. }
  set (u := Z.log2 a - s - 23).
  destruct (Z.ltb_spec u 0) as [Hu|Hu]; [|lia].
  set (M := 2 ^ (- u)).
  assert (HM24 : 2 ^ 24 <= M) by (unfold M; apply Z.pow_le_mono_r; lia).
  assert (Hs2 : 0 < 2 ^ s) by (apply Z.pow_pos_nonneg; lia).
  set (k := round_half_even (a * M) (2 ^ s)).
  pose proof (round_half_even_error (a * M) (2 ^ s) ltac:(nia) Hs2) as Herr.
  fold k in Herr.
  assert (Habs : (Qabs (inject_Z k / inject_Z M - (a # Qden x)) <= 1 # 33554432)%Q).
  { unfold Qle, Qabs, Qminus, Qplus, Qopp, Qdiv, Qmult, Qinv, inject_Z. simpl.
    destruct M as [|p|p] eqn:Ep; try lia. simpl.
    rewrite Pos.mul_1_l, Z.mul_1_r, Pos2Z.inj_mul, Hd.
    change (2 ^ 24) with 16777216 in HM24. nia. }
  destruct (Z.ltb_spec (Qnum x) 0) as [Hneg|Hpos].
  - assert (Hx : (x == - (a # Qden x))%Q)
      by (unfold a, Qeq; simpl; lia).
    rewrite Hx at 1.
    assert (E : (- (inject_Z k / inject_Z M) - - (a # Qden x)
                 == - (inject_Z k / inject_Z M - (a # Qden x)))%Q) by ring.
    rewrite E, Qabs_opp. exact Habs.
  - assert (Hx : (x == a # Qden x)%Q)
      by (unfold a, Qeq; simpl; lia).
    rewrite Hx at 1. exact Habs.
Qed.

Lemma clamp_cases x :
  ((-1 < x)%Q /\ (x < 1)%Q /\ clamp x = x)
  \/ ((x <= -1)%Q /\ clamp x = (-1)%Q)
  \/ ((1 <= x)%Q /\ clamp x = 1%Q).
Proof.
  unfold clamp, Qmax, Qmin, GenericMinMax.gmax, GenericMinMax.gmin.
  destruct (1 ?= x)%Q eqn:E1.
  - right; right. apply Qeq_alt in E1. split; [rewrite <- E1; apply Qle_refl|done].
  - right; right. apply Qlt_alt in E1. split; [by apply Qlt_le_weak|done].
  - apply Qgt_alt in E1.
    destruct (-1 ?= x)%Q eqn:E2.
    + right; left. apply Qeq_alt in E2. split; [rewrite <- E2; apply Qle_refl|done].
    + left. apply Qlt_alt in E2. done.
    + right; left. apply Qgt_alt in E2. split; [by apply Qlt_le_weak|done].
Qed.

Lemma sampleAt_dyadic buf bits p :
  includes [8; 16; 24; 32] bits = true ->
  exists s, 0 <= s /\ Z.pos (Qden (sampleAt buf bits p)) = 2 ^ s
            /\ - 2 ^ s <= Qnum (sampleAt buf bits p) < 2 ^ s
            /\ (bits <> 32 -> Z.abs (Qnum (sampleAt buf bits p)) < 2 ^ 24).
Proof.
  intros Hb. unfold includes in Hb. simpl in Hb. unfold sampleAt.
  pose proof (byteAt_range buf p). pose proof (byteAt_range buf (p + 1)).
  pose proof (byteAt_range buf (p + 2)). pose proof (byteAt_range buf (p + 3)).
  destruct (bits =? 8) eqn:E8.
  { exists 7. simpl. change (2 ^ 7) with 128. change (2 ^ 24) with 16777216. lia. }
  destruct (bits =? 16) eqn:E16.
  { exists 15. simpl. change (2 ^ 15) with 32768. change (2 ^ 24) with 16777216.
    unfold int16At, u16At. destruct (_ <? 32768) eqn:E; lia. }
  destruct (bits =? 24) eqn:E24.
  { exists 23. simpl. change (2 ^ 23) with 8388608. change (2 ^ 24) with 16777216.
    unfold int24At. destruct (_ <? 8388608) eqn:E; lia. }
  destruct (Z.eqb_spec bits 32) as [E32|]; [|done].
  exists 31. simpl. change (2 ^ 31) with 2147483648.
  unfold int32At, u32At. destruct (_ <? 2147483648) eqn:E; lia.
Qed.

(** What a decoded sample is, next to the value the format stores. *)
Lemma stored_sample buf bits p :
  includes [8; 16; 24; 32] bits = true ->
  let x := sampleAt buf bits p in
  let y := fround (clamp x) in
  (-1 <= y)%Q /\ (y <= 1)%Q
  /\ (Qabs (y - x) <= 1 # 33554432)%Q
  /\ (bits <> 32 -> (y == x)%Q).
Proof.
  intros Hb x y.
  destruct (sampleAt_dyadic buf bits p Hb) as (s & Hs & Hd & Hn & H24).
  fold x in Hd, Hn, H24.
  assert (Hx1 : (-1 <= x)%Q /\ (x < 1)%Q).
  { assert (0 < 2 ^ s) by (apply Z.pow_pos_nonneg; lia).
    unfold Qle, Qlt. simpl. rewrite Hd. lia. }
  destruct (clamp_cases x) as [(_ & _ & Hc)|[(Hle & Hc)|(Hge & _)]].
  - subst y. rewrite Hc.
    destruct (fround_range x s) as [? ?]; [done|done|lia|].
    split; [done|]. split; [done|]. split; [apply fround_error with s; [done|done|lia]|].
    intros Hne. apply fround_exact with s; auto.
  - assert (Hm1 : (x == -1)%Q) by (apply Qle_antisym; tauto).
    assert (Hy : (y == x)%Q).
    { subst y. rewrite Hc, Hm1. reflexivity. }
    split; [rewrite Hy; tauto|]. split; [rewrite Hy; apply Qlt_le_weak; tauto|].
    split; [|done].
    rewrite Hy. unfold Qminus. rewrite Qplus_opp_r. unfold Qle. simpl. lia.
  - exfalso. destruct Hx1 as [_ Hlt]. apply (Qlt_not_le _ _ Hlt Hge).
Qed.

(** ** The pooled mean square *)

Lemma sumSq_nonneg l : (0 <= sumSq l)%Q.
Proof.
  induction l as [|v l IH]; simpl; [apply Qle_refl|].
  replace 0%Q with (0 + 0)%Q by reflexivity.
  apply Qplus_le_compat; [|done].
  destruct (Qlt_le_dec v 0) as [Hn|Hp].
  - assert (H : (v * v == (- v) * (- v))%Q) by ring. rewrite H.
    apply Qmult_le_0_compat; apply (Qopp_le_compat v 0), Qlt_le_weak, Hn.
  - by apply Qmult_le_0_compat.
Qed.

Lemma pooledSquares_nonneg pcm from to : (0 <= pooledSquares pcm from to)%Q.
Proof.
  induction pcm as [|d pcm IH]; simpl; [apply Qle_refl|].
  replace 0%Q with (0 + 0)%Q by reflexivity.
  apply Qplus_le_compat; [apply sumSq_nonneg|done].
Qed.

Lemma sumWindow_steps data from n s c :
  0 <= from -> (Z.to_nat from + n <= length data)%nat ->
  exists s', (s' == s + sumSq (take n (drop (Z.to_nat from) data)))%Q
    /\ foldl (fun acc i => (addSquare (fst acc) (typedGet data i), snd acc + 1))
             (Num s, c) (seqZ from (Z.of_nat n))
       = (Num s', c + Z.of_nat n).
Proof.
  revert from s c. induction n as [|n IH]; intros from s c H0 Hlen.
  - exists s. simpl. split; [ring|]. f_equal. lia.
  - rewrite seqZ_cons by lia. simpl foldl.
    destruct (lookup_lt_is_Some_2 data (Z.to_nat from)) as [v Hv]; [lia|].
    assert (Hg : typedGet data from = Some v).
    { unfold typedGet. destruct (Z.ltb_spec from 0); [lia|done]. }
    rewrite Hg.
    replace (Z.pred (Z.of_nat (S n))) with (Z.of_nat n) by lia.
    destruct (IH (Z.succ from) (s + v * v)%Q (c + 1)) as (s' & Hs' & Hf); [lia|lia|].
    exists s'. split.
    + rewrite Hs'. replace (Z.to_nat (Z.succ from)) with (S (Z.to_nat from)) by lia.
      rewrite (drop_S _ _ _ Hv). simpl. ring.
    + rewrite Hf. f_equal. lia.
Qed.

Lemma sumWindow_spec data from to s c :
  0 <= from <= to -> to <= Z.of_nat (length data) ->
  exists s', (s' == s + sumSq (windowOf data from to))%Q
    /\ sumWindow data from to (Num s, c) = (Num s', c + (to - from)).
Proof.
  intros H0 H1. unfold sumWindow, windowOf.
  destruct (sumWindow_steps data from (Z.to_nat (to - from)) s c) as (s' & Hs & Hf);
    [lia|lia|].
  rewrite Z2Nat.id in Hf by lia. eauto.
Qed.

Lemma sumSquares_loop pre pcm from to s c :
  0 <= from <= to ->
  Forall (fun data => to <= Z.of_nat (length data)) pcm ->
  exists s', (s' == s + pooledSquares pcm from to)%Q
    /\ for_each (seq (length pre) (length pcm))
         (fun ch acc =>
            match (pre ++ pcm) !! ch with
            | Some data => Ok (sumWindow data from to acc)
            | None => if from <? to then Throw TypeError else Ok acc
            end)
         (Num s, c)
       = Ok (Num s', c + Z.of_nat (length pcm) * (to - from)).
Proof.
  intros H0. revert pre s c. induction pcm as [|data pcm IH]; intros pre s c Hall.
  - exists s. simpl. split; [ring|]. do 2 f_equal. lia.
  - apply Forall_cons in Hall as [Hd Hall]. simpl for_each.
    rewrite lookup_app_r, Nat.sub_diag by lia. simpl lookup. cbn [bind].
    destruct (sumWindow_spec data from to s c H0 Hd) as (s1 & Hs1 & ->).
    specialize (IH (pre ++ [data]) s1 (c + (to - from)) Hall) as (s' & Hs' & Hf).
    rewrite length_app in Hf. simpl in Hf. rewrite Nat.add_1_r in Hf.
    rewrite <- app_assoc in Hf. simpl in Hf.
    exists s'. split.
    + rewrite Hs', Hs1. simpl. ring.
    + rewrite Hf. do 2 f_equal. simpl length. lia.
Qed.

(** The loop of both [update]s computes the pooled sum of squares and counts
    [channels * (to - from)] samples. *)
Lemma sumSquares_spec pcm channels from to :
  channels = Z.of_nat (length pcm) ->
  0 <= from <= to ->
  Forall (fun data => to <= Z.of_nat (length data)) pcm ->
  exists s, (s == pooledSquares pcm from to)%Q
    /\ sumSquares pcm channels from to = Ok (Num s, channels * (to - from)).
Proof.
  intros -> H0 Hall. unfold sumSquares. rewrite Nat2Z.id.
  destruct (sumSquares_loop [] pcm from to 0 0 H0 Hall) as (s & Hs & Hf).
  exists s. split; [rewrite Hs; ring|]. simpl in Hf. rewrite Hf. done.
Qed.

(** ** [LAppWavFileHandler.update] *)

Module WavFacts.
Import Wav WavState.

#[local] Arguments Qfloor : simpl never.
#[local] Arguments Qplus : simpl never.
#[local] Arguments Qmult : simpl never.
#[local] Arguments Qdiv : simpl never.
#[local] Arguments inject_Z : simpl never.

Section Update.
Variable sqrt : Q -> Q.

Lemma update_absent h dt :
  parsed h = None -> update sqrt h dt = (set_lastRms (Num 0) h, Ok false).
Proof. intros H. unfold update. by rewrite H. Qed.

Lemma update_idle h dt wav :
  parsed h = Some wav -> 0 < frameCount wav ->
  targetSample wav (timeSeconds h + dt) <= sampleCursor h ->
  update sqrt h dt
  = (set_lastRms (Num 0) (set_timeSeconds (timeSeconds h + dt)%Q h), Ok false).
Proof.
  intros Hp Hf Ht. unfold update. rewrite Hp.
  destruct (Z.eqb_spec (frameCount wav) 0); [lia|]. simpl.
  destruct (Z.leb_spec (targetSample wav (timeSeconds h + dt)) (sampleCursor h)); [done|lia].
Qed.

Lemma update_window h dt wav :
  parsed h = Some wav -> wavOk wav -> 0 <= sampleCursor h ->
  sampleCursor h < targetSample wav (timeSeconds h + dt) ->
  exists s,
    (s == pooledSquares (pcm wav) (sampleCursor h) (targetSample wav (timeSeconds h + dt)))%Q
    /\ update sqrt h dt
       = ({| parsed := Some wav;
             sampleCursor := targetSample wav (timeSeconds h + dt);
             timeSeconds := (timeSeconds h + dt)%Q;
             lastRms := Num (sqrt (s / inject_Z
                          (channels wav
                           * (targetSample wav (timeSeconds h + dt) - sampleCursor h))));
             inflight := inflight h |}, Ok true).
Proof.
  intros Hp [Hch Hall] Hc Ht.
  set (target := targetSample wav (timeSeconds h + dt)) in *.
  assert (Htf : target <= frameCount wav) by (unfold target, targetSample; lia).
  assert (Hf : 0 < frameCount wav) by lia.
  assert (Hne : 0 < channels wav).
  { rewrite Hch. unfold frameCount in Hf. destruct (pcm wav); simpl; lia. }
  destruct (sumSquares_spec (pcm wav) (channels wav) (sampleCursor h) target Hch)
    as (s & Hs & Hsum); [lia| |].
  { eapply Forall_impl; [exact Hall|]. simpl. intros; lia. }
  exists s. split; [done|].
  unfold update. rewrite Hp.
  destruct (Z.eqb_spec (frameCount wav) 0); [lia|]. simpl.
  fold target.
  destruct (Z.leb_spec target (sampleCursor h)); [lia|].
  rewrite Hsum. unfold rmsOf.
  set (count := channels wav * (target - sampleCursor h)).
  assert (Hcount : 0 < count) by (unfold count; nia).
  destruct (Z.eqb_spec count 0); [lia|].
  unfold Math_sqrt, divNumber.
  assert (Hpos : Qle_bool 0 (s / inject_Z count) = true).
  { apply Qle_bool_iff. rewrite Hs. apply Qle_shift_div_l.
    - unfold Qlt, inject_Z. simpl. lia.
    - rewrite Qmult_0_l. apply pooledSquares_nonneg. }
  rewrite Hpos. unfold set_lastRms, set_sampleCursor, set_timeSeconds. simpl. by rewrite Hp.
Qed.


#[local] Abbreviation after := (after sqrt).


End Update.
End WavFacts.

(** ** [AudioAnalyser.update] *)

Module AnalyserFacts.
Import AudioAnalyser AnalyserState.

#[local] Arguments Qfloor : simpl never.
#[local] Arguments Qplus : simpl never.
#[local] Arguments Qmult : simpl never.
#[local] Arguments Qdiv : simpl never.
#[local] Arguments inject_Z : simpl never.

Section Update.
Variable sqrt : Q -> Q.


Lemma analyser_update_hold s dt data rest :
  _pcmData s = Some (data :: rest) ->
  goalOf s dt <= _sampleOffset s ->
  update sqrt dt s
  = (set_userTimeSeconds (_userTimeSeconds s + dt)%Q s, Return (_lastRms s)).
Proof.
  intros Hp Hg. unfold goalOf, frameCount in Hg. rewrite Hp in Hg.
  unfold update. rewrite Hp. simpl.
  set (g := Qfloor _) in *.
  destruct (Z.ltb_spec (Z.of_nat (length data)) g);
    match goal with |- context [(?a <=? ?b)] => destruct (Z.leb_spec a b) end;
    try done; lia.
Qed.

Lemma analyser_update_window s dt :
  stateOk s -> 0 <= _sampleOffset s -> _sampleOffset s < goalOf s dt ->
  exists q,
    (q == pooledSquares (default [] (_pcmData s)) (_sampleOffset s) (goalOf s dt))%Q
    /\ let rms := Num (sqrt (q / inject_Z
                         (_channelCount s * (goalOf s dt - _sampleOffset s)))) in
       update sqrt dt s
       = ({| _pcmData := _pcmData s; _sampleRate := _sampleRate s;
             _channelCount := _channelCount s; _lastRms := rms;
             _sampleOffset := goalOf s dt;
             _userTimeSeconds := (_userTimeSeconds s + dt)%Q |}, Return rms).
Proof.
  intros (pcm & Hp & Hch & Hall) Hc Ht.
  set (target := goalOf s dt) in *.
  assert (Htf : target <= frameCount s) by (unfold target, goalOf; lia).
  destruct pcm as [|data rest].
  { unfold frameCount in Htf. rewrite Hp in Htf. lia. }
  assert (Hne : 0 < _channelCount s) by (rewrite Hch; simpl; lia).
  destruct (sumSquares_spec (data :: rest) (_channelCount s) (_sampleOffset s) target Hch)
    as (q & Hq & Hsum); [lia| |].
  { eapply Forall_impl; [exact Hall|]. simpl. intros; lia. }
  exists q. rewrite Hp. split; [done|].
  unfold update. rewrite Hp. simpl.
  assert (Hgoal : (if Z.of_nat (length data)
                      <? Qfloor ((_userTimeSeconds s + dt) * inject_Z (_sampleRate s))
                   then Z.of_nat (length data)
                   else Qfloor ((_userTimeSeconds s + dt) * inject_Z (_sampleRate s)))
                  = target).
  { unfold target, goalOf, frameCount. rewrite Hp.
    destruct (Z.ltb_spec (Z.of_nat (length data))
                (Qfloor ((_userTimeSeconds s + dt) * inject_Z (_sampleRate s)))); lia. }
  rewrite Hgoal.
  destruct (Z.leb_spec target (_sampleOffset s)); [lia|].
  rewrite Hsum.
  set (count := _channelCount s * (target - _sampleOffset s)).
  assert (Hcount : 0 < count) by (unfold count; nia).
  destruct (Z.ltb_spec 0 count); [|lia].
  unfold Math_sqrt, divNumber.
  assert (Hpos : Qle_bool 0 (q / inject_Z count) = true).
  { apply Qle_bool_iff. rewrite Hq. apply Qle_shift_div_l.
    - unfold Qlt, inject_Z. simpl. lia.
    - rewrite Qmult_0_l. apply pooledSquares_nonneg. }
  rewrite Hpos. unfold set_lastRms, set_sampleOffset, set_userTimeSeconds. simpl.
  by rewrite Hp.
Qed.


#[local] Abbreviation after := (after sqrt).

Lemma analyser_frameCount_pcm s s' : _pcmData s' = _pcmData s -> frameCount s' = frameCount s.
Proof. unfold frameCount. by intros ->. Qed.


(** At the end of the audio every call returns the held value. *)
Lemma analyser_after_end s dts dt data rest :
  _pcmData s = Some (data :: rest) -> _sampleOffset s = frameCount s ->
  update sqrt dt (after s dts) = (set_userTimeSeconds
                                    (_userTimeSeconds (after s dts) + dt)%Q (after s dts),
                                  Return (_lastRms s))
  /\ _lastRms (after s dts) = _lastRms s
  /\ _sampleOffset (after s dts) = frameCount s.
Proof.
  intros Hp He.
  assert (Hinv : _pcmData (after s dts) = Some (data :: rest)
                 /\ _lastRms (after s dts) = _lastRms s
                 /\ _sampleOffset (after s dts) = frameCount s).
  { revert s Hp He. induction dts as [|d dts IH]; intros s Hp He; simpl; [done|].
    rewrite (analyser_update_hold s d data rest Hp) by (unfold goalOf; lia).
    simpl.
    destruct (IH (set_userTimeSeconds (_userTimeSeconds s + d)%Q s)) as (I1 & I2 & I3);
      [done|done|].
    done. }
  destruct Hinv as (Hp' & Hr' & Ho').
  rewrite (analyser_update_hold _ dt data rest Hp').
  - by rewrite Hr'.
  - unfold goalOf. rewrite Ho'. rewrite (analyser_frameCount_pcm (after s dts) s) by congruence. lia.
Qed.

End Update.
End AnalyserFacts.

(** ** [AudioAnalyser.parseWav] *)

Module AnalyserParse.
Import AudioAnalyser.

#[local] Arguments Qfloor : simpl never.
#[local] Arguments Qceiling : simpl never.
#[local] Arguments Qplus : simpl never.
#[local] Arguments Qmult : simpl never.
#[local] Arguments Qdiv : simpl never.
#[local] Arguments inject_Z : simpl never.

Lemma getInt16_cases view o :
  (0 <= o /\ o + 2 <= byteLength view /\ exists v, getInt16 view o = Ok v)
  \/ (~ (0 <= o /\ o + 2 <= byteLength view) /\ getInt16 view o = Throw RangeError).
Proof.
  unfold getInt16. rewrite getUint16_eq.
  destruct (Z.leb_spec 0 o), (Z.leb_spec (o + 2) (byteLength view)); simpl;
    first [ left; split; [lia|split; [lia|eauto]] | right; split; [lia|done] ].
Qed.

(** One frame of the sample loop: it returns only if every read was inside
    the buffer, and then [pcmOffset] has moved by two bytes per channel. *)
Lemma channel_loop data i k n p s :
  let body := fun (c : nat) (pcmOffset : Z) =>
                sample <~ read (getInt16 data pcmOffset) ;;
                storeSample c i (inject_Z sample / 32768)%Q ;;;
                ret (pcmOffset + 2) in
  match forM (seq k n) body p s with
  | (_, Return p') => p' = p + 2 * Z.of_nat n
                      /\ (n <> 0%nat -> 0 <= p /\ p' <= byteLength data)
  | (_, Raise e) => e = RangeError /\ ~ (0 <= p /\ p + 2 * Z.of_nat n <= byteLength data)
  | (_, Diverge) => False
  end.
Proof.
  intros body. revert k p s. induction n as [|n IH]; intros k p s.
  - simpl. split; [lia|done].
  - simpl. unfold andThen at 1. unfold body at 1. unfold andThen at 1, read at 1.
    destruct (getInt16_cases data p) as [(H0 & H1 & v & ->)|[Hout ->]].
    + unfold andThen at 1, storeSample at 1, assign at 1. unfold ret at 1.
      specialize (IH (S k) (p + 2) (set_pcmData
         (option_map (alter (fun d => <[i:=fround (inject_Z v / 32768)]> d) k) (_pcmData s)) s)).
      fold body. destruct (forM (seq (S k) n) body (p + 2) _) as [s' [p'|e|]].
      * destruct IH as [-> Hin]. split; [lia|]. intros _. split; [lia|].
        destruct n; [lia|]. specialize (Hin ltac:(done)). lia.
      * destruct IH as [-> Hout]. split; [done|]. lia.
      * done.
    + split; [done|]. lia.
Qed.

Lemma frame_loop data cc m n p s :
  let body := fun (i : nat) =>
                forM (seq 0 cc)
                  (fun c pcmOffset =>
                     sample <~ read (getInt16 data pcmOffset) ;;
                     storeSample c i (inject_Z sample / 32768)%Q ;;;
                     ret (pcmOffset + 2)) in
  match forM (seq m n) body p s with
  | (_, Return p') => p' = p + 2 * Z.of_nat cc * Z.of_nat n
                      /\ ((n * cc)%nat <> 0%nat -> 0 <= p /\ p' <= byteLength data)
  | (_, Raise e) =>
      e = RangeError
      /\ ~ (0 <= p /\ p + 2 * Z.of_nat cc * Z.of_nat n <= byteLength data)
  | (_, Diverge) => False
  end.
Proof.
  intros body. revert m p s. induction n as [|n IH]; intros m p s.
  - simpl. split; [lia|done].
  - simpl. unfold andThen at 1. unfold body at 1.
    pose proof (channel_loop data m 0 cc p s) as Hc. cbv zeta in Hc.
    destruct (forM (seq 0 cc) _ p s) as [s1 [p1|e|]]; [| |done].
    + destruct Hc as [-> Hin].
      specialize (IH (S m) (p + 2 * Z.of_nat cc) s1). fold body.
      destruct (forM (seq (S m) n) body _ s1) as [s2 [p2|e|]]; [| |done].
      * destruct IH as [-> Hin2]. split; [lia|]. intros Hne.
        destruct (Nat.eq_dec cc 0%nat) as [->|Hcc]; [lia|].
        specialize (Hin Hcc).
        destruct (Nat.eq_dec (n * cc)%nat 0%nat) as [Hz|Hnz]; [|specialize (Hin2 Hnz); lia].
        assert (n = 0%nat) as -> by nia. lia.
      * destruct IH as [-> Hout]. split; [done|].
        destruct (Nat.eq_dec cc 0%nat) as [->|Hcc]; [lia|]. specialize (Hin Hcc). nia.
    + destruct Hc as [-> Hout]. split; [done|]. nia.
Qed.

(** A data chunk that declares more bytes than the buffer holds: the sample
    loop runs into the end of the buffer. *)
Lemma decodeData_truncated data chunkSize offset s :
  0 < _channelCount s -> offset <= byteLength data ->
  byteLength data < offset + chunkSize ->
  snd (decodeData data chunkSize offset s) = Raise RangeError.
Proof.
  intros Hcc Hsz Htr. unfold decodeData.
  unfold andThen at 1, this at 1. unfold divide.
  destruct (Z.eqb_spec (_channelCount s) 0); [lia|].
  unfold andThen at 1, assign at 1.
  set (spc := (inject_Z chunkSize / 2 / inject_Z (_channelCount s))%Q).
  set (s1 := set_pcmData _ s).
  pose proof (frame_loop data (Z.to_nat (_channelCount s)) 0
                (Z.to_nat (Qceiling spc)) offset s1) as Hloop. cbv zeta in Hloop.
  match goal with
  | |- context [andThen (forM ?idx ?body offset)] =>
      unfold andThen at 1; destruct (forM idx body offset s1) as [s2 [p2|e|]]
  end; [|by destruct Hloop as [-> _]|done].
  exfalso. destruct Hloop as [-> Hin].
  (* the loop makes ceil(spc) * channels reads, at least chunkSize / 2 *)
  assert (Hspc : (inject_Z chunkSize / 2 <= inject_Z (Qceiling spc * _channelCount s))%Q).
  { assert (Hle : (spc <= inject_Z (Qceiling spc))%Q) by apply Qle_ceiling.
    rewrite inject_Z_mult.
    assert (Hc0 : (0 < inject_Z (_channelCount s))%Q)
      by (unfold Qlt, inject_Z; simpl; lia).
    apply (Qmult_le_compat_r _ _ (inject_Z (_channelCount s))) in Hle;
      [|by apply Qlt_le_weak].
    unfold spc in Hle at 1. rewrite Qmult_comm, Qmult_div_r in Hle; [done|].
    intros Hz. rewrite Hz in Hc0. by apply Qlt_irrefl in Hc0. }
  assert (Hreads : chunkSize <= 2 * (Qceiling spc * _channelCount s)).
  { unfold Qle, Qdiv, Qmult, Qinv, inject_Z in Hspc. simpl in Hspc.
    change (Z.pos (1 * 2)) with 2 in Hspc. lia. }
  assert (Hceil : 0 < Qceiling spc) by nia.
  rewrite !Z2Nat.id in Hin by lia.
  assert ((Z.to_nat (Qceiling spc) * Z.to_nat (_channelCount s))%nat <> 0%nat) by nia.
  specialize (Hin ltac:(done)). nia.
Qed.



Lemma getUint32BE_Ok view o :
  0 <= o -> o + 4 <= byteLength view -> getUint32BE view o = Ok (u32BEAt view o).
Proof.
  intros. unfold getUint32BE, u32BEAt. rewrite !getUint8_byteAt by lia. done.
Qed.



(** A leading [fmt ] chunk of PCM format with a bit depth other than 16:
    [parseWav] returns [false] after it has stored the channel count and the
    sample rate of the rejected file. *)
Lemma parseWav_fmt_rejected buf s :
  36 <= byteLength buf ->
  u32BEAt buf 0 = 0x52494646 -> u32BEAt buf 8 = 0x57415645 ->
  u32BEAt buf 12 = 0x666d7420 ->
  u16At buf 20 = 1 -> u16At buf 34 <> 16 ->
  parseWav buf s
  = (set_sampleRate (u32At buf 24) (set_channelCount (u16At buf 22) s), Return false).
Proof.
  intros Hlen Hr Hw Hf Hfmt Hbits. unfold parseWav.
  unfold andThen at 1, read at 1. rewrite getUint32BE_Ok, Hr by lia.
  rewrite Z.eqb_refl. cbn [negb].
  unfold andThen at 1, read at 1. rewrite getUint32BE_Ok, Hw by lia.
  rewrite Z.eqb_refl. cbn [negb].
  destruct (length buf) as [|fuel] eqn:El; [unfold byteLength in Hlen; lia|].
  cbn [chunkLoop].
  destruct (Z.ltb_spec 12 (byteLength buf)); [|lia].
  unfold andThen at 1, read at 1. rewrite getUint32BE_Ok, Hf by lia.
  unfold andThen at 1, read at 1. rewrite getUint32_Ok by lia.
  rewrite Z.eqb_refl.
  unfold andThen at 1, read at 1. rewrite getUint16_Ok by lia.
  change (12 + 8) with 20. rewrite Hfmt. rewrite Z.eqb_refl. cbn [negb].
  unfold andThen at 1, read at 1. rewrite getUint16_Ok by lia.
  unfold andThen at 1, assign at 1.
  unfold andThen at 1, read at 1. rewrite getUint32_Ok by lia.
  unfold andThen at 1, assign at 1.
  unfold andThen at 1, read at 1. rewrite getUint16_Ok by lia.
  change (20 + 14) with 34. change (20 + 2) with 22. change (20 + 4) with 24.
  destruct (Z.eqb_spec (u16At buf 34) 16); [done|]. done.
Qed.

(** More fuel changes nothing: the chunk loop has reached its exit. *)
Lemma chunkLoop_fuel fuel k data offset s :
  0 <= offset ->
  byteLength data - offset <= 8 * Z.of_nat fuel ->
  chunkLoop (fuel + k) data offset s = chunkLoop fuel data offset s.
Proof.
  revert offset s. induction fuel as [|fuel IH]; intros offset s H0 Hf.
  - simpl. destruct k; simpl; destruct (Z.ltb_spec offset (byteLength data)); try done; lia.
  - cbn [Nat.add chunkLoop].
    destruct (Z.ltb_spec offset (byteLength data)); [|done].
    unfold andThen, read, assign.
    destruct (getUint32BE data offset) as [chunkId|e]; [|done].
    destruct (getUint32 data (offset + 4)) as [chunkSize|e] eqn:Esz; [|done].
    assert (Hsz : 0 <= chunkSize).
    { unfold getUint32 in Esz.
      destruct (getUint8 data (offset + 4)) as [b0|] eqn:E0; simpl in Esz; [|done].
      destruct (getUint8 data (offset + 4 + 1)) as [b1|] eqn:E1; simpl in Esz; [|done].
      destruct (getUint8 data (offset + 4 + 2)) as [b2|] eqn:E2; simpl in Esz; [|done].
      destruct (getUint8 data (offset + 4 + 3)) as [b3|] eqn:E3; simpl in Esz; [|done].
      apply getUint8_inv in E0 as [_ ?], E1 as [_ ?], E2 as [_ ?], E3 as [_ ?].
      injection Esz as <-. lia. }
    destruct (chunkId =? 1718449184).
    + destruct (getUint16 data (offset + 8)) as [audioFormat|e]; [|done].
      destruct (negb (audioFormat =? 1)); [done|].
      destruct (getUint16 data (offset + 8 + 2)) as [channelCount|e]; [|done].
      destruct (getUint32 data (offset + 8 + 4)) as [sampleRate|e]; [|done].
      destruct (getUint16 data (offset + 8 + 14)) as [bitsPerSample|e]; [|done].
      destruct (negb (bitsPerSample =? 16)); [done|].
      apply IH; lia.
    + destruct (chunkId =? 1684108385); [done|]. apply IH; lia.
Qed.

Lemma parseWav_fuel k buffer s :
  (riff <~ read (getUint32BE buffer 0) ;;
   if negb (riff =? 0x52494646) then ret false
   else
     wave <~ read (getUint32BE buffer 8) ;;
     if negb (wave =? 0x57415645) then ret false
     else chunkLoop (length buffer + k) buffer 12) s
  = parseWav buffer s.
Proof.
  unfold parseWav, andThen, read.
  destruct (getUint32BE buffer 0) as [riff|e]; [|done].
  destruct (negb (riff =? 1380533830)); [done|].
  destruct (getUint32BE buffer 8) as [wave|e]; [|done].
  destruct (negb (wave =? 1463899717)); [done|].
  apply chunkLoop_fuel; unfold byteLength; lia.
Qed.


End AnalyserParse.

(** ** [start], settling, and the singleton *)

Module HandlerFacts.
Import Wav WavState WavFacts.

Lemma settle_parsed r h : parsed (settle r h) = outcomeOf r.
Proof.
  unfold settle, outcomeOf. destruct r as [buf|]; [|done].
  by destruct (parseWav buf).
Qed.

Lemma settle_keeps r h :
  sampleCursor (settle r h) = sampleCursor h
  /\ timeSeconds (settle r h) = timeSeconds h
  /\ lastRms (settle r h) = lastRms h.
Proof.
  unfold settle. destruct r as [buf|]; [|done]. by destruct (parseWav buf).
Qed.

Section Run.
Variable sqrt : Q -> Q.

Lemma step_settle_pending w id r path :
  pending w !! id = Some path ->
  step sqrt w (Settle id r)
  = {| this := settle r (this w); pending := delete id (pending w);
       nextPromise := nextPromise w |}.
Proof. intros H. simpl. by rewrite H. Qed.


End Run.

Lemma getInstance_set m a :
  s_instance m = Some a -> getInstance m = (m, a).
Proof. intros H. unfold getInstance. by rewrite H. Qed.

Lemma perform_keeps_instance m o a :
  s_instance m = Some a -> s_instance (perform m o) = Some a.
Proof.
  intros H. destruct o as [|b f]; simpl; [|done].
  by rewrite (getInstance_set m a H).
Qed.

Lemma performs_keep_instance m os a :
  s_instance m = Some a -> s_instance (foldl perform m os) = Some a.
Proof.
  revert m. induction os as [|o os IH]; intros m H; simpl; [done|].
  apply IH. by apply perform_keeps_instance.
Qed.

Lemma getInstance_instance m : s_instance (fst (getInstance m)) = Some (snd (getInstance m)).
Proof. unfold getInstance. by destruct (s_instance m) eqn:E. Qed.

End HandlerFacts.

(** ** Tags as strings and as big-endian words *)

Lemma fromCharCode_inj c (a : ascii) :
  0 <= c < 256 -> fromCharCode c = a -> c = Z.of_N (N_of_ascii a).
Proof.
  intros Hc <-. unfold fromCharCode. rewrite N_ascii_embedding; lia.
Qed.

Lemma fourCCAt_tag buf o (c0 c1 c2 c3 : ascii) :
  fourCCAt buf o = String c0 (String c1 (String c2 (String c3 EmptyString)))
  <-> u32BEAt buf o
      = Z.of_N (N_of_ascii c0) * 16777216 + Z.of_N (N_of_ascii c1) * 65536
        + Z.of_N (N_of_ascii c2) * 256 + Z.of_N (N_of_ascii c3).
Proof.
  pose proof (byteAt_range buf o). pose proof (byteAt_range buf (o + 1)).
  pose proof (byteAt_range buf (o + 2)). pose proof (byteAt_range buf (o + 3)).
  unfold fourCCAt, u32BEAt. split.
  - intros E. injection E as E0 E1 E2 E3.
    apply fromCharCode_inj in E0, E1, E2, E3; lia.
  - intros E.
    pose proof (N_ascii_bounded c0). pose proof (N_ascii_bounded c1).
    pose proof (N_ascii_bounded c2). pose proof (N_ascii_bounded c3).
    assert (byteAt buf o = Z.of_N (N_of_ascii c0)
            /\ byteAt buf (o + 1) = Z.of_N (N_of_ascii c1)
            /\ byteAt buf (o + 2) = Z.of_N (N_of_ascii c2)
            /\ byteAt buf (o + 3) = Z.of_N (N_of_ascii c3)) as (-> & -> & -> & ->) by lia.
    unfold fromCharCode. rewrite !N2Z.id, !ascii_N_embedding. done.
Qed.

Lemma tag_RIFF buf o : fourCCAt buf o = "RIFF"%string <-> u32BEAt buf o = 0x52494646.
Proof. apply (fourCCAt_tag buf o "R" "I" "F" "F"). Qed.

Lemma tag_WAVE buf o : fourCCAt buf o = "WAVE"%string <-> u32BEAt buf o = 0x57415645.
Proof. apply (fourCCAt_tag buf o "W" "A" "V" "E"). Qed.

(** ** What [Wav.parseWav] rejects and what it decodes *)



Lemma parseWav_wellFormed buf f d :
  wellFormed buf f d ->
  parseWav buf
  = Ok (Some {| sampleRate := u32At buf (ckPayload f + 4);
                channels := u16At buf (ckPayload f + 2);
                pcm := decodedPcm buf (u16At buf (ckPayload f + 14))
                         (Z.to_nat (u16At buf (ckPayload f + 2)))
                         (Z.to_nat (framesOf buf d (u16At buf (ckPayload f + 2))
                                      (u16At buf (ckPayload f + 14))))
                         (ckPayload d) |}).
Proof.
  intros [Hlen Hr Hw Hf Hd Hh Hfmt Hch Hrate Hbits].
  rewrite parseWav_cases. unfold parseWavCases.
  destruct (Z.ltb_spec (byteLength buf) 12); [lia|].
  rewrite Hr, Hw. cbn [String.eqb Ascii.eqb Bool.eqb negb]. rewrite Hf, Hd. cbv zeta.
  destruct (Z.ltb_spec (byteLength buf) (ckPayload f + Z.min (ckSize f) 16)); [lia|].
  destruct (Z.ltb_spec (byteLength buf) (ckPayload f + 16)); [lia|].
  rewrite Hfmt, Hbits. cbn [Z.eqb Pos.eqb negb].
  destruct (Z.eqb_spec (u16At buf (ckPayload f + 2)) 0); [done|].
  destruct (Z.eqb_spec (u32At buf (ckPayload f + 4)) 0); [done|]. done.
Qed.

Lemma framesOf_nonneg buf f d :
  wellFormed buf f d ->
  0 <= framesOf buf d (u16At buf (ckPayload f + 2)) (u16At buf (ckPayload f + 14)).
Proof.
  intros [Hlen Hr Hw Hf Hd Hh Hfmt Hch Hrate Hbits].
  pose proof (lastChunk_bounds _ _ _ Hd) as [? ?].
  pose proof (u16At_range buf (ckPayload f + 2)).
  assert (0 < u16At buf (ckPayload f + 14) / 8).
  { unfold includes in Hbits. simpl in Hbits.
    repeat (apply orb_prop in Hbits as [Hbits|Hbits];
            [apply Z.eqb_eq in Hbits; rewrite Hbits; done|]). done. }
  unfold framesOf. apply Z.div_pos; [lia|nia].
Qed.

Lemma decodedPcm_ok buf bits nch frames p0 :
  length (decodedPcm buf bits nch frames p0) = nch
  /\ Forall (fun data => length data = frames) (decodedPcm buf bits nch frames p0).
Proof.
  unfold decodedPcm. split; [by rewrite length_map, length_seq|].
  apply Forall_forall. intros data Hin. apply list_elem_of_fmap in Hin as (ch & -> & _).
  by rewrite length_map, length_seq.
Qed.

Lemma decodedPcm_lookup buf bits nch frames p0 ch i :
  (ch < nch)%nat -> (i < frames)%nat ->
  decodedPcm buf bits nch frames p0 !! ch ≫= (fun data => data !! i)
  = Some (fround (clamp (sampleAt buf bits
            (p0 + (Z.of_nat i * Z.of_nat nch + Z.of_nat ch) * (bits / 8))))).
Proof.
  intros Hc Hi. unfold decodedPcm.
  rewrite list_lookup_fmap, lookup_seq_lt by done. simpl.
  rewrite list_lookup_fmap, lookup_seq_lt by done. done.
Qed.

Lemma parseWav_wavOk buf f d wav :
  wellFormed buf f d -> parseWav buf = Ok (Some wav) ->
  WavState.wavOk wav
  /\ frameCount wav
     = framesOf buf d (u16At buf (ckPayload f + 2)) (u16At buf (ckPayload f + 14)).
Proof.
  intros Hwf Hp. pose proof (framesOf_nonneg buf f d Hwf) as Hfr.
  rewrite (parseWav_wellFormed buf f d Hwf) in Hp. injection Hp as <-.
  destruct Hwf as [Hlen Hr Hw Hf Hd Hh Hfmt Hch Hrate Hbits].
  pose proof (u16At_range buf (ckPayload f + 2)).
  set (nch := Z.to_nat (u16At buf (ckPayload f + 2))).
  set (frames := Z.to_nat (framesOf buf d _ _)).
  destruct (decodedPcm_ok buf (u16At buf (ckPayload f + 14)) nch frames (ckPayload d))
    as [Hl Hall].
  assert (Hfc : frameCount {| sampleRate := u32At buf (ckPayload f + 4);
                              channels := u16At buf (ckPayload f + 2);
                              pcm := decodedPcm buf (u16At buf (ckPayload f + 14)) nch frames
                                       (ckPayload d) |} = Z.of_nat frames).
  { unfold frameCount. simpl.
    destruct (decodedPcm _ _ _ _ _) as [|data rest] eqn:E.
    - simpl in Hl. unfold nch in Hl. lia.
    - apply Forall_cons in Hall as [-> _]. done. }
  split; [split|].
  - simpl. rewrite Hl. unfold nch. lia.
  - rewrite Hfc. simpl. eapply Forall_impl; [exact Hall|]. simpl. intros; lia.
  - rewrite Hfc. unfold frames. lia.
Qed.

(** ** [AudioAnalyser.load] on the usual layout *)

Module AnalyserLoad.
Import AudioAnalyser AnalyserParse.

(** The 44-byte header of a 16-bit PCM file ([fmt ] of 16 bytes at 12,
    [data] at 36) with a data chunk that declares more than the buffer
    holds: [load] reports [false]. *)
Lemma load_truncated buf s :
  44 <= byteLength buf ->
  u32BEAt buf 0 = 0x52494646 -> u32BEAt buf 8 = 0x57415645 ->
  u32BEAt buf 12 = 0x666d7420 -> u32At buf 16 = 16 ->
  u16At buf 20 = 1 -> 0 < u16At buf 22 -> u16At buf 34 = 16 ->
  u32BEAt buf 36 = 0x64617461 ->
  byteLength buf - 44 < u32At buf 40 ->
  snd (loadSettle (Body buf) s) = Return false.
Proof.
  intros Hlen Hr Hw Hf Hsz Hfmt Hch Hbits Hd Htr.
  assert (Hp : snd (parseWav buf s) = Raise RangeError).
  { unfold parseWav.
    unfold andThen at 1, read at 1. rewrite getUint32BE_Ok, Hr by lia.
    rewrite Z.eqb_refl. cbn [negb].
    unfold andThen at 1, read at 1. rewrite getUint32BE_Ok, Hw by lia.
    rewrite Z.eqb_refl. cbn [negb].
    destruct (length buf) as [|[|fuel]] eqn:El; try (unfold byteLength in Hlen; lia).
    cbn [chunkLoop].
    destruct (Z.ltb_spec 12 (byteLength buf)); [|lia].
    unfold andThen at 1, read at 1. rewrite getUint32BE_Ok, Hf by lia.
    unfold andThen at 1, read at 1. rewrite getUint32_Ok by lia.
    rewrite Z.eqb_refl.
    unfold andThen at 1, read at 1. rewrite getUint16_Ok by lia.
    change (12 + 8) with 20. change (12 + 4) with 16. rewrite Hfmt, Hsz.
    rewrite Z.eqb_refl. cbn [negb].
    unfold andThen at 1, read at 1. rewrite getUint16_Ok by lia.
    unfold andThen at 1, assign at 1.
    unfold andThen at 1, read at 1. rewrite getUint32_Ok by lia.
    unfold andThen at 1, assign at 1.
    unfold andThen at 1, read at 1. rewrite getUint16_Ok by lia.
    change (20 + 14) with 34. change (20 + 2) with 22. change (20 + 4) with 24.
    change (20 + 16) with 36.
    rewrite Hbits, Z.eqb_refl. cbn [negb].
    destruct (Z.ltb_spec 36 (byteLength buf)); [|lia].
    unfold andThen at 1, read at 1. rewrite getUint32BE_Ok, Hd by lia.
    unfold andThen at 1, read at 1. rewrite getUint32_Ok by lia.
    change (1684108385 =? 1718449184) with false. cbv iota.
    rewrite Z.eqb_refl. change (36 + 4) with 40. change (36 + 8) with 44.
    apply decodeData_truncated; simpl; lia. }
  unfold loadSettle. destruct (parseWav buf s) as [s' [b|e|]]; simpl in *; congruence.
Qed.

End AnalyserLoad.

(** ** Runs of [update] events *)


(** * The claims *)

(** C1 (amended).  [AudioAnalyser.update] holds the last value: a call that
    finds no new sample ([goalOffset <= _sampleOffset]) returns [_lastRms]
    and leaves it as it is, for every [deltaTimeSeconds]; and once a call has
    moved the cursor to the frame count, returning the RMS [r] of its
    window, every later call returns [r] and leaves [_lastRms] at [r].
    [LAppWavFileHandler.update] does not hold it: on a call that finds
    [target <= sampleCursor] it sets [lastRms] to 0 and returns [false]. *)
Theorem C1_hold_last_value (sqrt : Q -> Q) :
  (forall s dt data rest,
      AudioAnalyser._pcmData s = Some (data :: rest) ->
      AnalyserState.goalOf s dt <= AudioAnalyser._sampleOffset s ->
      AudioAnalyser.update sqrt dt s
      = (AudioAnalyser.set_userTimeSeconds (AudioAnalyser._userTimeSeconds s + dt)%Q s,
         AudioAnalyser.Return (AudioAnalyser._lastRms s)))
  /\ (forall s0 dt0 s r dts dt,
      AnalyserState.stateOk s0 ->
      0 <= AudioAnalyser._sampleOffset s0 < AnalyserState.frameCount s0 ->
      AudioAnalyser.update sqrt dt0 s0 = (s, AudioAnalyser.Return r) ->
      AudioAnalyser._sampleOffset s = AnalyserState.frameCount s0 ->
      (exists q : Q,
          (q == pooledSquares (default [] (AudioAnalyser._pcmData s0))
                  (AudioAnalyser._sampleOffset s0) (AnalyserState.frameCount s0))%Q
          /\ r = Num (sqrt (q / inject_Z
                   (AudioAnalyser._channelCount s0
                    * (AnalyserState.frameCount s0 - AudioAnalyser._sampleOffset s0)))%Q))
      /\ snd (AudioAnalyser.update sqrt dt (AnalyserState.after sqrt s dts))
         = AudioAnalyser.Return r
      /\ AudioAnalyser._lastRms
           (fst (AudioAnalyser.update sqrt dt (AnalyserState.after sqrt s dts))) = r)
  /\ (forall h dt wav,
      parsed h = Some wav -> 0 < frameCount wav ->
      targetSample wav (timeSeconds h + dt) <= sampleCursor h ->
      update sqrt h dt
      = (set_lastRms (Num 0) (set_timeSeconds (timeSeconds h + dt)%Q h), Ok false)).
Proof.
  split; [|split].
  - intros s dt data rest. apply AnalyserFacts.analyser_update_hold.
  - intros s0 dt0 s r dts dt Hok [Hc0 Hc1] Hup Hend.
    destruct (Z.le_gt_cases (AnalyserState.goalOf s0 dt0) (AudioAnalyser._sampleOffset s0))
      as [Hidle|Hnew].
    { exfalso. destruct Hok as (pcm & Hp & _ & _).
      destruct pcm as [|data rest];
        [unfold AnalyserState.frameCount in Hc1; rewrite Hp in Hc1; lia|].
      rewrite (AnalyserFacts.analyser_update_hold sqrt s0 dt0 data rest Hp Hidle) in Hup.
      injection Hup as <- _. simpl in Hend. lia. }
    destruct (AnalyserFacts.analyser_update_window sqrt s0 dt0 Hok Hc0 ltac:(lia)) as (q & Hq & Hw).
    cbv zeta in Hw. rewrite Hw in Hup. injection Hup as <- <-. simpl in Hend.
    rewrite Hend in Hq. split; [exists q; split; [done|by rewrite Hend]|].
    destruct Hok as (pcm & Hp & _ & _).
    destruct pcm as [|data rest];
      [unfold AnalyserState.frameCount in Hc1; rewrite Hp in Hc1; lia|].
    match goal with
    | |- context [AnalyserState.after sqrt ?s1 dts] =>
        destruct (AnalyserFacts.analyser_after_end sqrt s1 dts dt data rest) as (Hu & Hr & _)
    end.
    + simpl. done.
    + simpl. rewrite Hend. unfold AnalyserState.frameCount. simpl. by rewrite Hp.
    + rewrite Hu. simpl. split; [by rewrite Hend|]. rewrite Hr. simpl. by rewrite Hend.
  - intros h dt wav. apply WavFacts.update_idle.
Qed.

(** An idle call on the analyser that has played [halfTone] to its end. *)
Lemma C1_hold_last_value_witness :
  AudioAnalyser.update Fixtures.sqrtFloor 0 Fixtures.playedAnalyser
  = (AudioAnalyser.set_userTimeSeconds
       (AudioAnalyser._userTimeSeconds Fixtures.playedAnalyser + 0)%Q
       Fixtures.playedAnalyser,
     AudioAnalyser.Return (AudioAnalyser._lastRms Fixtures.playedAnalyser)).
Proof.
  eapply (proj1 (C1_hold_last_value Fixtures.sqrtFloor)).
  - vm_compute. reflexivity.
  - apply Z.leb_le. vm_compute. reflexivity.
Defined.

(** C1 as stated fails on [LAppWavFileHandler]: when the playback of
    [halfTone] has reached its end with an RMS of 1/2, an [update(0)] finds
    [target <= sampleCursor], and [getRms()] is 0 after it. *)
Lemma C1_counterexample :
  let h := Fixtures.playedHandler in
  exists wav,
    parsed h = Some wav
    /\ 0 < frameCount wav
    /\ targetSample wav (timeSeconds h + 0) <= sampleCursor h
    /\ lastRms h = Num (536870912 # 1073741824)
    /\ getRms (fst (update Fixtures.sqrtFloor h 0)) = Num 0
    /\ getRms (fst (update Fixtures.sqrtFloor h 0)) <> lastRms h.
Proof.
  eexists. split; [vm_compute; reflexivity|].
  split; [vm_compute; reflexivity|].
  split; [apply Z.leb_le; vm_compute; reflexivity|].
  split; [vm_compute; reflexivity|].
  split; [vm_compute; reflexivity|].
  vm_compute. discriminate.
Qed.

(** C2 (amended).  No ordering of [start] calls is kept: the callbacks of a
    settled fetch write [parsed] whichever [start] issued it.  After
    [start(A)] then [start(B)], the settling of A's fetch writes A's outcome
    though B is the latest call, and after both have settled [parsed] holds
    the outcome of the one that settled last. *)
Theorem C2_last_settled_wins (sqrt : Q -> Q) (w : world) (pathA pathB : string)
    (rA rB : response) :
  let a := nextPromise w in
  let b := S a in
  let w2 := start pathB (start pathA w) in
  parsed (this (run sqrt w2 [Settle a rA])) = WavState.outcomeOf rA
  /\ parsed (this (run sqrt w2 [Settle a rA; Settle b rB])) = WavState.outcomeOf rB
  /\ parsed (this (run sqrt w2 [Settle b rB; Settle a rA])) = WavState.outcomeOf rA.
Proof.
  intros a b w2.
  assert (Ha : pending w2 !! a = Some pathA).
  { unfold w2, start. simpl. rewrite lookup_insert_ne by (unfold a; lia).
    apply lookup_insert_eq. }
  assert (Hb : pending w2 !! b = Some pathB).
  { unfold w2, start. simpl. apply lookup_insert_eq. }
  clearbody w2. unfold run. cbn [foldl]. split; [|split].
  - rewrite (HandlerFacts.step_settle_pending sqrt w2 a rA pathA Ha).
    apply HandlerFacts.settle_parsed.
  - rewrite (HandlerFacts.step_settle_pending sqrt w2 a rA pathA Ha).
    rewrite (HandlerFacts.step_settle_pending sqrt _ b rB pathB)
      by (cbn [pending]; rewrite lookup_delete_ne by (unfold b; lia); exact Hb).
    apply HandlerFacts.settle_parsed.
  - rewrite (HandlerFacts.step_settle_pending sqrt w2 b rB pathB Hb).
    rewrite (HandlerFacts.step_settle_pending sqrt _ a rA pathA)
      by (cbn [pending]; rewrite lookup_delete_ne by (unfold b; lia); exact Ha).
    apply HandlerFacts.settle_parsed.
Qed.

(** C2 as stated fails: [start("a.wav")], [start("b.wav")], then the fetch of
    b.wav settles with [otherTone] and after it the fetch of a.wav with
    [halfTone]; the handler ends with the audio of a.wav. *)
Lemma C2_counterexample :
  let w := run Fixtures.sqrtFloor Fixtures.world0
             [Start "a.wav"; Start "b.wav";
              Settle 1 (Body Fixtures.otherTone); Settle 0 (Body Fixtures.halfTone)] in
  parsed (this w) = WavState.outcomeOf (Body Fixtures.halfTone)
  /\ option_map sampleRate (parsed (this w)) = Some 8000
  /\ option_map sampleRate (WavState.outcomeOf (Body Fixtures.otherTone)) = Some 16000
  /\ parsed (this w) <> WavState.outcomeOf (Body Fixtures.otherTone).
Proof.
  split; [vm_compute; reflexivity|].
  split; [vm_compute; reflexivity|].
  split; [vm_compute; reflexivity|].
  intros H. apply (f_equal (option_map sampleRate)) in H. vm_compute in H. discriminate.
Qed.




(** A file without channels and with a non-empty data chunk: the frame
    loop of [AudioAnalyser.parseWav] has no end. *)
Example analyser_hangs_without_channels :
  snd (AudioAnalyser.loadSettle
         (AudioAnalyser.Body
            (Fixtures.wavFile 1 0 8000 16 4 (Fixtures.le 2 16384 ++ Fixtures.le 2 (-16384))))
         AudioAnalyser.new)
  = AudioAnalyser.Diverge.
Proof. vm_compute. reflexivity. Qed.

(** A format code of 2 in a [fmt ] chunk of 2 bytes, near the end of the
    buffer: the read of the bit depth is past the buffer and [parseWav]
    raises. *)
Example parseWav_short_fmt_raises :
  parseWav (Fixtures.riff (Fixtures.chunk "fmt " 2 (Fixtures.le 2 2)
                             ++ Fixtures.chunk "data" 0 []))
  = Throw RangeError.
Proof. vm_compute. reflexivity. Qed.

(** C4 (amended).  [parseWav] of the stand-alone handler decodes a
    well-formed file whose data chunk declares more bytes than the buffer
    holds, with the frame count of the bytes that are there,
    [floor (min (declared, remaining) / (channels * bytesPerSample))].
    The data branch of [AudioAnalyser.parseWav] takes the frame count from
    the declared size alone: on such a chunk its sample loop reads past the
    buffer and ends in a [RangeError], and [load] returns [false]. *)
Theorem C4_truncation :
  (forall buf f d,
      wellFormed buf f d ->
      byteLength buf - ckPayload d < ckSize d ->
      exists wav,
        parseWav buf = Ok (Some wav)
        /\ WavState.wavOk wav
        /\ frameCount wav
           = Z.min (ckSize d) (byteLength buf - ckPayload d)
             / (channels wav * (u16At buf (ckPayload f + 14) / 8))
        /\ frameCount wav
           = (byteLength buf - ckPayload d)
             / (channels wav * (u16At buf (ckPayload f + 14) / 8)))
  /\ (forall data chunkSize offset s,
      0 < AudioAnalyser._channelCount s -> offset <= byteLength data ->
      byteLength data < offset + chunkSize ->
      snd (AudioAnalyser.decodeData data chunkSize offset s)
      = AudioAnalyser.Raise RangeError)
  /\ (forall buf s,
      44 <= byteLength buf ->
      fourCCAt buf 0 = "RIFF"%string -> fourCCAt buf 8 = "WAVE"%string ->
      fourCCAt buf 12 = "fmt "%string -> u32At buf 16 = 16 ->
      u16At buf 20 = 1 -> 0 < u16At buf 22 -> u16At buf 34 = 16 ->
      fourCCAt buf 36 = "data"%string ->
      byteLength buf - 44 < u32At buf 40 ->
      snd (AudioAnalyser.loadSettle (AudioAnalyser.Body buf) s)
      = AudioAnalyser.Return false).
Proof.
  split; [|split].
  - intros buf f d Hwf Htr.
    eexists. split; [apply (parseWav_wellFormed buf f d Hwf)|].
    destruct (parseWav_wavOk buf f d _ Hwf (parseWav_wellFormed buf f d Hwf)) as [Hok Hfc].
    split; [done|]. rewrite Hfc. unfold framesOf. simpl.
    split; [done|]. by rewrite Z.min_r by lia.
  - apply AnalyserParse.decodeData_truncated.
  - intros buf s Hlen Hr Hw Hf Hsz Hfmt Hch Hbits Hd Htr.
    apply AnalyserLoad.load_truncated; try done.
    + by apply tag_RIFF.
    + by apply tag_WAVE.
    + by apply (fourCCAt_tag buf 12 "f" "m" "t" " ").
    + by apply (fourCCAt_tag buf 36 "d" "a" "t" "a").
Qed.

(** [truncated] declares 8 bytes of data and holds 4: two frames. *)
Lemma C4_truncation_witness :
  exists wav,
    parseWav Fixtures.truncated = Ok (Some wav)
    /\ WavState.wavOk wav
    /\ frameCount wav = Z.min 8 4 / (channels wav * (16 / 8))
    /\ frameCount wav = 4 / (channels wav * (16 / 8)).
Proof.
  refine (proj1 C4_truncation Fixtures.truncated
            {| ckId := "fmt "; ckSize := 16; ckPayload := 20 |}
            {| ckId := "data"; ckSize := 8; ckPayload := 44 |} _ _).
  - constructor; try (vm_compute; reflexivity); try (vm_compute; discriminate).
  - vm_compute. reflexivity.
Defined.

(** C4 as stated fails on [AudioAnalyser]: [truncated] is well formed, its
    data chunk declares 8 bytes where 4 remain, and [load] returns [false]. *)
Lemma C4_counterexample :
  wellFormed Fixtures.truncated
    {| ckId := "fmt "; ckSize := 16; ckPayload := 20 |}
    {| ckId := "data"; ckSize := 8; ckPayload := 44 |}
  /\ byteLength Fixtures.truncated - 44 < 8
  /\ snd (AudioAnalyser.loadSettle (AudioAnalyser.Body Fixtures.truncated)
            AudioAnalyser.new)
     = AudioAnalyser.Return false.
Proof.
  split; [|split; vm_compute; reflexivity].
  constructor; try (vm_compute; reflexivity); try (vm_compute; discriminate).
Qed.








(** C8 (amended).  For every well-formed PCM file, [parseWav] of the
    stand-alone handler reports the sample rate and the channel count of the
    [fmt ] chunk and the frame count of the data chunk (its declared size in
    whole frames when the buffer holds it), and sample [i] of channel [ch] is
    the binary32 rounding of the clamped normalisation of the
    [(i * channels + ch)]-th stored sample: it lies in [[-1, 1]], it is
    within 2^-25 of the normalisation, and at 8, 16 and 24 bits it is equal
    to it.  [AudioAnalyser.parseWav] decodes 16-bit files only: on a leading
    [fmt ] chunk with another bit depth it returns [false]. *)
Theorem C8_decoding :
  (forall buf f d,
      wellFormed buf f d ->
      let nch := u16At buf (ckPayload f + 2) in
      let bits := u16At buf (ckPayload f + 14) in
      let frames := framesOf buf d nch bits in
      exists wav,
        parseWav buf = Ok (Some wav)
        /\ sampleRate wav = u32At buf (ckPayload f + 4)
        /\ channels wav = nch
        /\ WavState.wavOk wav
        /\ frameCount wav = frames
        /\ (ckSize d <= byteLength buf - ckPayload d ->
            frames = ckSize d / (nch * (bits / 8)))
        /\ forall ch i,
             0 <= ch < nch -> 0 <= i < frames ->
             let x := sampleAt buf bits (ckPayload d + (i * nch + ch) * (bits / 8)) in
             exists y : Q,
               pcm wav !! Z.to_nat ch ≫= (fun data => data !! Z.to_nat i) = Some y
               /\ y = fround (clamp x)
               /\ (-1 <= y)%Q /\ (y <= 1)%Q
               /\ (Qabs (y - x) <= 1 # 33554432)%Q
               /\ (bits <> 32 -> (y == x)%Q))
  /\ (forall buf s,
      36 <= byteLength buf ->
      fourCCAt buf 0 = "RIFF"%string -> fourCCAt buf 8 = "WAVE"%string ->
      fourCCAt buf 12 = "fmt "%string ->
      u16At buf 20 = 1 -> u16At buf 34 <> 16 ->
      snd (AudioAnalyser.parseWav buf s) = AudioAnalyser.Return false).
Proof.
  split.
  - intros buf f d Hwf nch bits frames.
    pose proof (parseWav_wellFormed buf f d Hwf) as Hp.
    destruct (parseWav_wavOk buf f d _ Hwf Hp) as [Hok Hfc].
    eexists. split; [exact Hp|]. split; [done|]. split; [done|]. split; [done|].
    split; [exact Hfc|]. split.
    { intros Hfit. unfold frames, framesOf. by rewrite Z.min_l by lia. }
    intros ch i Hch Hi x. exists (fround (clamp x)). simpl pcm.
    split.
    + fold nch bits frames. rewrite decodedPcm_lookup by lia.
      unfold x. rewrite !Z2Nat.id by lia. done.
    + split; [done|].
      destruct (stored_sample buf bits (ckPayload d + (i * nch + ch) * (bits / 8)))
        as (? & ? & ? & ?); [by destruct Hwf|]. done.
  - intros buf s Hlen Hr Hw Hf Hfmt Hbits.
    rewrite AnalyserParse.parseWav_fmt_rejected; try done.
    + by apply tag_RIFF.
    + by apply tag_WAVE.
    + by apply (fourCCAt_tag buf 12 "f" "m" "t" " ").
Qed.

(** [halfTone]: 8000 Hz, one channel, two frames, 0.5 and -0.5. *)
Lemma C8_decoding_witness :
  exists wav,
    parseWav Fixtures.halfTone = Ok (Some wav)
    /\ sampleRate wav = 8000 /\ channels wav = 1 /\ frameCount wav = 2
    /\ exists y0 y1 : Q,
         pcm wav = [[y0; y1]] /\ (y0 == 1 # 2)%Q /\ (y1 == - (1 # 2))%Q.
Proof.
  destruct (proj1 C8_decoding Fixtures.halfTone
              {| ckId := "fmt "; ckSize := 16; ckPayload := 20 |}
              {| ckId := "data"; ckSize := 4; ckPayload := 44 |})
    as (wav & Hp & Hr & Hc & _ & Hf & _ & _).
  - constructor; try (vm_compute; reflexivity); try (vm_compute; discriminate).
  - exists wav. split; [exact Hp|].
    split; [rewrite Hr; vm_compute; reflexivity|].
    split; [rewrite Hc; vm_compute; reflexivity|].
    split; [rewrite Hf; vm_compute; reflexivity|].
    assert (E : parseWav Fixtures.halfTone
                = Ok (Some {| sampleRate := 8000; channels := 1;
                              pcm := [[fround (clamp (16384 # 32768));
                                       fround (clamp (-16384 # 32768))]] |}))
      by (vm_compute; reflexivity).
    rewrite E in Hp. injection Hp as <-. simpl.
    eexists _, _. split; [reflexivity|]. split; vm_compute; reflexivity.
Defined.

(** C8 as stated fails.  At 32 bits the sample 2^24 + 1 of [deep32] is
    decoded by [parseWav] as 2^-7, which is not (2^24 + 1) / 2^31; and
    [AudioAnalyser.load] returns [false] on the well-formed 8-bit file
    [stereo8]. *)
Lemma C8_counterexample :
  (wellFormed Fixtures.deep32
     {| ckId := "fmt "; ckSize := 16; ckPayload := 20 |}
     {| ckId := "data"; ckSize := 4; ckPayload := 44 |}
   /\ exists wav y,
        parseWav Fixtures.deep32 = Ok (Some wav)
        /\ pcm wav = [[y]]
        /\ (y == 1 # 128)%Q
        /\ (sampleAt Fixtures.deep32 32 44 == 16777217 # 2147483648)%Q
        /\ ~ (y == sampleAt Fixtures.deep32 32 44)%Q)
  /\ (wellFormed Fixtures.stereo8
       {| ckId := "fmt "; ckSize := 16; ckPayload := 20 |}
       {| ckId := "data"; ckSize := 2; ckPayload := 44 |}
     /\ snd (AudioAnalyser.loadSettle (AudioAnalyser.Body Fixtures.stereo8)
               AudioAnalyser.new)
        = AudioAnalyser.Return false).
Proof.
  split; split.
  - constructor; try (vm_compute; reflexivity); try (vm_compute; discriminate).
  - eexists _, _. split; [vm_compute; reflexivity|]. split; [reflexivity|].
    split; [vm_compute; reflexivity|]. split; [vm_compute; reflexivity|].
    vm_compute. discriminate.
  - constructor; try (vm_compute; reflexivity); try (vm_compute; discriminate).
  - vm_compute. reflexivity.
Qed.

(** C9, at the failing input.  The analyser that holds [halfTone] (one
    channel, 8000 Hz) is given [stereo8] (two channels, 22050 Hz, 8 bits):
    [load] returns [false] and the samples are kept, but the channel count
    and the sample rate are those of the rejected file, and the next
    [update] indexes a channel that is not there. *)
Theorem C9_failed_load_overwrites :
  let s := Fixtures.loadedAnalyser in
  let r := AudioAnalyser.loadSettle (AudioAnalyser.Body Fixtures.stereo8) s in
  snd r = AudioAnalyser.Return false
  /\ AudioAnalyser._pcmData (fst r) = AudioAnalyser._pcmData s
  /\ AudioAnalyser._channelCount s = 1 /\ AudioAnalyser._channelCount (fst r) = 2
  /\ AudioAnalyser._sampleRate s = 8000 /\ AudioAnalyser._sampleRate (fst r) = 22050
  /\ snd (AudioAnalyser.update Fixtures.sqrtFloor 1 s)
     = AudioAnalyser.Return (Num (536870912 # 1073741824))
  /\ snd (AudioAnalyser.update Fixtures.sqrtFloor 1 (fst r))
     = AudioAnalyser.Raise TypeError.
Proof. repeat split; vm_compute; reflexivity. Qed.

(** The same on [LAppWavFileHandler], where only a race brings a failure
    onto loaded audio: [start(A)], [start(B)], B's fetch settles with
    [halfTone], then A's is rejected and clears what B loaded. *)
Example stale_failure_clears_audio :
  let w := run Fixtures.sqrtFloor Fixtures.world0
             [Start "a.wav"; Start "b.wav"; Settle 1 (Body Fixtures.halfTone)] in
  parsed (this w) <> None
  /\ parsed (this (step Fixtures.sqrtFloor w (Settle 0 Rejected))) = None.
Proof. split; [vm_compute; discriminate|vm_compute; reflexivity]. Qed.

(** C10.  The singleton: the first [getInstance()] creates a handler and
    stores its address in [s_instance]; every later [getInstance()],
    whatever else is called on whatever handler in between, returns that
    address and creates nothing, so a change made through one reference is
    the state every other reference reads; [releaseInstance()] resets
    [s_instance], and the next [getInstance()] creates a new handler. *)
Theorem C10_singleton (m : moduleState) :
  let m1 := fst (getInstance m) in
  let a := snd (getInstance m) in
  (s_instance m = None ->
     heap m1 = heap m ++ [newHandler] /\ a = length (heap m)
     /\ heap m1 !! a = Some newHandler)
  /\ s_instance m1 = Some a
  /\ (forall os,
        getInstance (foldl WavState.perform m1 os) = (foldl WavState.perform m1 os, a))
  /\ (forall method h,
        heap m1 !! a = Some h ->
        heap (invoke (snd (getInstance m1)) method m1) !! snd (getInstance m1)
        = Some (method h))
  /\ s_instance (releaseInstance m1) = None
  /\ heap (fst (getInstance (releaseInstance m1))) = heap m1 ++ [newHandler]
  /\ snd (getInstance (releaseInstance m1)) = length (heap m1).
Proof.
  intros m1 a.
  assert (Hs : s_instance m1 = Some a) by apply HandlerFacts.getInstance_instance.
  split; [|split; [done|split; [|split; [|split; [done|split; done]]]]].
  - intros Hnone. unfold m1, a, getInstance. rewrite Hnone. simpl.
    split; [done|]. split; [done|].
    rewrite lookup_app_r by lia. by rewrite Nat.sub_diag.
  - intros os. apply HandlerFacts.getInstance_set.
    by apply HandlerFacts.performs_keep_instance.
  - intros method h Hh. rewrite (HandlerFacts.getInstance_set m1 a Hs). simpl.
    rewrite list_lookup_alter_eq, Hh. done.
Qed.

(** Two call sites on a page where nothing was created before: the second
    reads the cursor the first has set. *)
Lemma C10_singleton_witness :
  let m := {| heap := []; s_instance := None |} in
  let m1 := fst (getInstance m) in
  heap m1 = [newHandler] /\ snd (getInstance m) = 0%nat
  /\ heap m1 !! 0%nat = Some newHandler.
Proof.
  intros m m1.
  exact (proj1 (C10_singleton m) eq_refl).
Defined.

(** * Further properties of the code *)

(** ** What [Wav.parseWav] accepts *)

Lemma parseWav_Some_wellFormed buf wav :
  parseWav buf = Ok (Some wav) -> exists f d, wellFormed buf f d.
Proof.
  rewrite parseWav_cases. unfold parseWavCases.
  destruct (Z.ltb_spec (byteLength buf) 12); [done|].
  destruct (String.eqb_spec (fourCCAt buf 0) "RIFF"); [|done]. cbn [negb].
  destruct (String.eqb_spec (fourCCAt buf 8) "WAVE"); [|done]. cbn [negb].
  destruct (lastChunk "fmt " (chunksOf buf)) as [f|] eqn:Ef; [|done].
  destruct (lastChunk "data" (chunksOf buf)) as [d|] eqn:Ed; [|done].
  cbv zeta.
  destruct (Z.ltb_spec (byteLength buf) (ckPayload f + Z.min (ckSize f) 16)); [done|].
  destruct (Z.ltb_spec (byteLength buf) (ckPayload f + 16)); [done|].
  destruct (Z.eqb_spec (u16At buf (ckPayload f)) 1); [|done]. cbn [negb].
  destruct (Z.eqb_spec (u16At buf (ckPayload f + 2)) 0); [done|].
  destruct (Z.eqb_spec (u32At buf (ckPayload f + 4)) 0); [done|]. cbn [orb].
  destruct (includes [8; 16; 24; 32] (u16At buf (ckPayload f + 14))) eqn:Eb; [|done].
  intros _. exists f, d. by constructor.
Qed.

Lemma wellFormed_bits buf f d :
  wellFormed buf f d ->
  let bits := u16At buf (ckPayload f + 14) in
  1 <= bits / 8 /\ includes [8; 16; 24; 32] bits = true.
Proof.
  intros Hwf bits. pose proof (wf_bits _ _ _ Hwf) as Hbits. fold bits in Hbits.
  split; [|done]. unfold includes in Hbits. simpl in Hbits.
  repeat (apply orb_prop in Hbits as [Hbits|Hbits];
          [apply Z.eqb_eq in Hbits; rewrite Hbits; done|]). done.
Qed.

Lemma decodedPcm_bounded buf bits nch frames p0 :
  includes [8; 16; 24; 32] bits = true ->
  bounded (decodedPcm buf bits nch frames p0).
Proof.
  intros Hb. unfold bounded, decodedPcm.
  apply Forall_fmap, Forall_forall. intros ch _. simpl.
  apply Forall_fmap, Forall_forall. intros i _. simpl.
  destruct (stored_sample buf bits
              (p0 + (Z.of_nat i * Z.of_nat nch + Z.of_nat ch) * (bits / 8)) Hb)
    as (? & ? & _). done.
Qed.

(** What [parseWav] returns can be played: one array per channel, all of
    the frame count, every sample in [[-1, 1]], and no more samples than
    the buffer has bytes. *)
Lemma parseWav_sound buf wav :
  parseWav buf = Ok (Some wav) ->
  WavState.wavOk wav /\ bounded (pcm wav)
  /\ 0 < channels wav < 65536 /\ 0 < sampleRate wav < 4294967296
  /\ 0 <= frameCount wav /\ frameCount wav * channels wav <= byteLength buf.
Proof.
  intros Hp. destruct (parseWav_Some_wellFormed buf wav Hp) as (f & d & Hwf).
  destruct (parseWav_wavOk buf f d wav Hwf Hp) as [Hok Hfc].
  pose proof (framesOf_nonneg buf f d Hwf) as Hfr.
  destruct (wellFormed_bits buf f d Hwf) as [Hbps Hbits]. cbv zeta in Hbps, Hbits.
  rewrite (parseWav_wellFormed buf f d Hwf) in Hp. injection Hp as <-.
  pose proof (u16At_range buf (ckPayload f + 2)).
  pose proof (u32At_range buf (ckPayload f + 4)).
  pose proof (wf_channels _ _ _ Hwf). pose proof (wf_rate _ _ _ Hwf).
  pose proof (lastChunk_bounds _ _ _ (wf_data _ _ _ Hwf)) as [? ?].
  split; [done|]. split; [by apply decodedPcm_bounded|].
  cbn [channels sampleRate]. split; [lia|]. split; [lia|].
  rewrite Hfc. split; [done|].
  unfold framesOf in *.
  set (nch := u16At buf (ckPayload f + 2)) in *.
  set (bps := u16At buf (ckPayload f + 14) / 8) in *.
  set (avail := Z.min (ckSize d) (byteLength buf - ckPayload d)) in *.
  assert (0 < nch * bps) by nia.
  assert (nch * bps * (avail / (nch * bps)) <= avail)
    by (apply Z.mul_div_le; lia).
  assert (avail / (nch * bps) * nch <= nch * bps * (avail / (nch * bps))) by nia.
  lia.
Qed.

(** ** The mean square of bounded samples *)

Lemma sumSq_bounded l :
  Forall (fun y => (-1 <= y)%Q /\ (y <= 1)%Q) l ->
  (sumSq l <= inject_Z (Z.of_nat (length l)))%Q.
Proof.
  induction 1 as [|y l [Hlo Hhi] _ IH]; [apply Qle_refl|].
  assert (Hy : (y * y <= 1)%Q).
  { unfold Qle in *. simpl in *. nia. }
  cbn [sumSq foldr length]. fold (sumSq l).
  rewrite Nat2Z.inj_succ, <- Z.add_1_l, inject_Z_plus.
  apply Qplus_le_compat; done.
Qed.

Lemma windowOf_bounded data from to :
  Forall (fun y => (-1 <= y)%Q /\ (y <= 1)%Q) data ->
  0 <= from <= to ->
  (sumSq (windowOf data from to) <= inject_Z (to - from))%Q.
Proof.
  intros Hb Hft. unfold windowOf.
  eapply Qle_trans; [apply sumSq_bounded; by apply Forall_take, Forall_drop|].
  rewrite <- Zle_Qle, length_take. lia.
Qed.

Lemma pooledSquares_bounded pcm from to :
  bounded pcm -> 0 <= from <= to ->
  (pooledSquares pcm from to <= inject_Z (Z.of_nat (length pcm) * (to - from)))%Q.
Proof.
  intros Hb Hft. induction Hb as [|data pcm Hd _ IH].
  - apply Qle_refl.
  - cbn [pooledSquares foldr length]. fold (pooledSquares pcm from to).
    rewrite Nat2Z.inj_succ, <- Z.add_1_l, Z.mul_add_distr_r, Z.mul_1_l, inject_Z_plus.
    apply Qplus_le_compat; [by apply windowOf_bounded|done].
Qed.

Lemma mean_square_unit (S P : Q) (n : Z) :
  (S == P)%Q -> (0 <= P)%Q -> (P <= inject_Z n)%Q -> 0 < n ->
  (0 <= S / inject_Z n)%Q /\ (S / inject_Z n <= 1)%Q.
Proof.
  intros HS H0 H1 Hn.
  assert (Hn' : (0 < inject_Z n)%Q) by (rewrite <- (Zlt_Qlt 0); done).
  split.
  - apply Qle_shift_div_l; [done|]. rewrite Qmult_0_l, HS. done.
  - apply Qle_shift_div_r; [done|]. rewrite Qmult_1_l, HS. done.
Qed.

(** ** [LAppWavFileHandler] on decoded audio *)

Module PlaybackFacts.
Import Wav WavState WavFacts.

#[local] Arguments Qfloor : simpl never.
#[local] Arguments Qplus : simpl never.
#[local] Arguments Qmult : simpl never.
#[local] Arguments Qdiv : simpl never.
#[local] Arguments inject_Z : simpl never.

Section Update.
Variable sqrt : Q -> Q.

(** One [update] on sound audio: it returns, the cursor stays inside the
    audio, and [lastRms] is 0 or the root of a mean square. *)
Lemma update_sound h dt wav :
  parsed h = Some wav -> wavOk wav -> bounded (pcm wav) ->
  0 <= sampleCursor h ->
  let h' := fst (update sqrt h dt) in
  (exists b, snd (update sqrt h dt) = Ok b)
  /\ parsed h' = Some wav
  /\ 0 <= sampleCursor h'
  /\ unitRms sqrt (lastRms h').
Proof.
  intros Hp Hok Hb Hc. unfold unitRms.
  assert (Hf0 : 0 <= frameCount wav) by (unfold frameCount; destruct (pcm wav); lia).
  destruct (Z.eq_dec (frameCount wav) 0) as [Hz|Hnz].
  { unfold update. rewrite Hp, Hz. simpl. repeat split; eauto; lia. }
  destruct (Z.le_gt_cases (targetSample wav (timeSeconds h + dt)) (sampleCursor h))
    as [Hidle|Hnew].
  { rewrite (update_idle sqrt h dt wav Hp ltac:(lia) Hidle). simpl.
    repeat split; eauto; lia. }
  destruct (update_window sqrt h dt wav Hp Hok ltac:(lia) ltac:(lia)) as (S & HS & ->).
  cbn [fst snd parsed sampleCursor lastRms].
  assert (Ht : targetSample wav (timeSeconds h + dt) <= frameCount wav)
    by (unfold targetSample; lia).
  split; [eauto|]. split; [done|]. split; [lia|]. right.
  destruct Hok as [Hch Hlen].
  eexists. split; [|split; [|reflexivity]].
  - eapply (mean_square_unit S); [exact HS|apply pooledSquares_nonneg| |].
    + rewrite Hch. apply pooledSquares_bounded; [done|lia].
    + assert (0 < channels wav); [|nia].
      rewrite Hch. destruct (pcm wav) eqn:E; [|simpl; lia].
      unfold frameCount in Hnz. rewrite E in Hnz. done.
  - eapply (mean_square_unit S); [exact HS|apply pooledSquares_nonneg| |].
    + rewrite Hch. apply pooledSquares_bounded; [done|lia].
    + assert (0 < channels wav); [|nia].
      rewrite Hch. destruct (pcm wav) eqn:E; [|simpl; lia].
      unfold frameCount in Hnz. rewrite E in Hnz. done.
Qed.

Lemma after_sound h dts wav :
  parsed h = Some wav -> wavOk wav -> bounded (pcm wav) ->
  0 <= sampleCursor h ->
  unitRms sqrt (lastRms h) ->
  let h' := after sqrt h dts in
  parsed h' = Some wav
  /\ 0 <= sampleCursor h'
  /\ unitRms sqrt (lastRms h').
Proof.
  revert h. induction dts as [|dt dts IH]; intros h Hp Hok Hb Hc Hr; [done|].
  destruct (update_sound h dt wav Hp Hok Hb Hc) as (_ & Hp' & Hc' & Hr').
  simpl. by apply IH.
Qed.


(** [update] keeps a handler playable, and returns. *)
Lemma update_playable h dt :
  playable sqrt h ->
  (exists b, snd (update sqrt h dt) = Ok b)
  /\ playable sqrt (fst (update sqrt h dt))
  /\ inflight (fst (update sqrt h dt)) = inflight h.
Proof.
  intros (Hc & Hr & Hw).
  destruct (parsed h) as [wav|] eqn:Hp.
  - destruct (Hw wav eq_refl) as [Hok Hb].
    destruct (update_sound h dt wav Hp Hok Hb Hc) as (Hret & Hp' & Hc' & Hr').
    split; [done|]. split.
    + split; [done|]. split; [done|]. intros wav' Hw'.
      rewrite Hp' in Hw'. injection Hw' as <-. done.
    + unfold update. rewrite Hp.
      destruct (frameCount wav =? 0); [done|]. cbn [timeSeconds sampleCursor set_timeSeconds].
      destruct (_ <=? _); [done|].
      by destruct (sumSquares _ _ _ _) as [[sum count]|e].
  - rewrite (update_absent sqrt h dt Hp). simpl.
    split; [eauto|]. split; [|done].
    split; [done|]. split; [by left|]. simpl. intros wav Hw'. congruence.
Qed.

End Update.




Section Clock.
Variable sqrt : Q -> Q.


End Clock.

End PlaybackFacts.

(** ** [AudioAnalyser.update] and its clock *)

Module AnalyserClock.
Import AudioAnalyser AnalyserState AnalyserFacts.

#[local] Arguments Qfloor : simpl never.
#[local] Arguments Qplus : simpl never.
#[local] Arguments Qmult : simpl never.
#[local] Arguments Qdiv : simpl never.
#[local] Arguments inject_Z : simpl never.



Lemma stateOk_keep s s' :
  stateOk s -> _pcmData s' = _pcmData s -> _channelCount s' = _channelCount s ->
  stateOk s'.
Proof.
  intros (pcm & Hp & Hc & Hall) Hp' Hc'. exists pcm.
  rewrite Hp', Hc', (analyser_frameCount_pcm _ _ Hp'). done.
Qed.

Section Clock.
Variable sqrt : Q -> Q.



End Clock.
End AnalyserClock.

(** ** Every run of [start], settlings and [update]s *)

Module HandlerRuns.
Import Wav WavState HandlerFacts PlaybackFacts.

Section Run.
Variable sqrt : Q -> Q.

Lemma settle_playable r h : playable sqrt h -> playable sqrt (settle r h).
Proof.
  intros (Hc & Hr & Hw).
  destruct (settle_keeps r h) as (Kc & _ & Kr).
  split; [by rewrite Kc|]. split; [by rewrite Kr|].
  intros wav. rewrite settle_parsed. unfold outcomeOf.
  destruct r as [buf|]; [|done].
  destruct (parseWav buf) as [p|e] eqn:E; [|done].
  intros ->. destruct (parseWav_sound buf wav E) as (? & ? & _). done.
Qed.

Lemma step_playable w e : playable sqrt (this w) -> playable sqrt (this (step sqrt w e)).
Proof.
  intros Hw. destruct e as [path|id r|dt]; simpl.
  - split; [done|]. split; [by left|]. done.
  - destruct (pending w !! id); [|done]. by apply settle_playable.
  - by apply update_playable.
Qed.

Lemma run_playable w es : playable sqrt (this w) -> playable sqrt (this (run sqrt w es)).
Proof.
  revert w. induction es as [|e es IH]; intros w Hw; [done|].
  simpl. apply IH. by apply step_playable.
Qed.

(** [inflight], when it is set, is the promise of the last [start], and
    that promise is pending. *)
Lemma step_inflight w e :
  (forall id, inflight (this w) = Some id ->
              S id = nextPromise w /\ is_Some (pending w !! id)) ->
  forall id, inflight (this (step sqrt w e)) = Some id ->
             S id = nextPromise (step sqrt w e)
             /\ is_Some (pending (step sqrt w e) !! id).
Proof.
  intros Hinv id. destruct e as [path|id' r|dt]; simpl.
  - intros [= <-]. split; [done|]. rewrite lookup_insert_eq. eauto.
  - destruct (pending w !! id') eqn:E; [|by apply Hinv].
    simpl. unfold settle. by destruct r as [buf|]; [destruct (parseWav buf)|].
  - assert (Hk : inflight (fst (update sqrt (this w) dt)) = inflight (this w)).
    { unfold update. destruct (parsed (this w)) as [wav|]; [|done].
      destruct (frameCount wav =? 0); [done|].
      cbn [timeSeconds sampleCursor set_timeSeconds].
      destruct (_ <=? _); [done|].
      by destruct (sumSquares _ _ _ _) as [[sum count]|e]. }
    rewrite Hk. apply Hinv.
Qed.

Lemma run_inflight w es :
  (forall id, inflight (this w) = Some id ->
              S id = nextPromise w /\ is_Some (pending w !! id)) ->
  forall id, inflight (this (run sqrt w es)) = Some id ->
             S id = nextPromise (run sqrt w es)
             /\ is_Some (pending (run sqrt w es) !! id).
Proof.
  revert w. induction es as [|e es IH]; intros w Hw; [done|].
  simpl. apply IH. by apply step_inflight.
Qed.

End Run.
End HandlerRuns.

(** ** [AudioAnalyser.parseWav] on 16-bit data in whole frames *)

Lemma clamp_int16 v :
  -32768 <= v < 32768 ->
  fround (clamp (inject_Z v / 32768)) = fround (inject_Z v / 32768).
Proof.
  intros Hv. destruct (Z.eq_dec v (-32768)) as [->|Hne]; [by vm_compute|].
  destruct (clamp_cases (inject_Z v / 32768)) as [(_ & _ & ->)|[(Hle & _)|(Hge & _)]];
    [done| |]; exfalso; unfold Qle, Qdiv, Qmult, Qinv, inject_Z in *; simpl in *; lia.
Qed.

Lemma int16At_range buf p : -32768 <= int16At buf p < 32768.
Proof.
  unfold int16At. pose proof (u16At_range buf p).
  destruct (Z.ltb_spec (u16At buf p) 32768); lia.
Qed.

Lemma getInt16_Ok view o :
  0 <= o -> o + 2 <= byteLength view -> getInt16 view o = Ok (int16At view o).
Proof.
  intros H0 H1. unfold getInt16. rewrite getUint16_eq.
  destruct (Z.leb_spec 0 o); [|lia].
  destruct (Z.leb_spec (o + 2) (byteLength view)); [|lia]. done.
Qed.

Lemma whole_frames (cc n : Z) :
  0 < cc ->
  (inject_Z (2 * cc * n) / 2 / inject_Z cc == inject_Z n)%Q.
Proof.
  intros Hcc. rewrite !inject_Z_mult. field.
  intros H. apply (Qlt_irrefl 0). rewrite <- H at 2. by rewrite <- (Zlt_Qlt 0).
Qed.

Module AnalyserDecode.
Import AudioAnalyser AnalyserParse.

#[local] Arguments Qfloor : simpl never.
#[local] Arguments Qceiling : simpl never.
#[local] Arguments Qplus : simpl never.
#[local] Arguments Qmult : simpl never.
#[local] Arguments Qdiv : simpl never.
#[local] Arguments inject_Z : simpl never.

Section SampleLoop.
Variable data : list byte.
Variables nch frames : nat.
Variable p0 : Z.
Hypothesis p0_ok : 0 <= p0.
Hypothesis fits : p0 + 2 * Z.of_nat nch * Z.of_nat frames <= byteLength data.

Let val (ch j : nat) : Q :=
  fround (clamp (sampleAt data 16 (p0 + (Z.of_nat j * Z.of_nat nch + Z.of_nat ch) * (16 / 8)))).

Let body (i : nat) (c : nat) (pcmOffset : Z) : method Z :=
  sample <~ read (getInt16 data pcmOffset) ;;
  storeSample c i (inject_Z sample / 32768)%Q ;;;
  ret (pcmOffset + 2).

Lemma sample_channels i k m s :
  (i < frames)%nat -> (k + m <= nch)%nat ->
  _pcmData s = Some (filled val nch frames i k) ->
  forM (seq k m) (body i) (p0 + (Z.of_nat i * Z.of_nat nch + Z.of_nat k) * 2) s
  = (set_pcmData (Some (filled val nch frames i (k + m))) s,
     Return (p0 + (Z.of_nat i * Z.of_nat nch + Z.of_nat (k + m)) * 2)).
Proof.
  intros Hi. revert k s. induction m as [|m IH]; intros k s Hk Hp.
  - simpl. rewrite Nat.add_0_r. unfold ret. f_equal.
    destruct s; simpl in *. by rewrite Hp.
  - cbn [seq forM]. unfold andThen at 1. unfold body at 1.
    unfold andThen at 1, read at 1.
    assert (Hcell : Z.of_nat i * Z.of_nat nch + Z.of_nat k + 1
                    <= Z.of_nat frames * Z.of_nat nch) by nia.
    rewrite getInt16_Ok by lia.
    unfold andThen at 1, storeSample at 1, assign at 1. unfold ret at 1.
    rewrite Hp. cbn [option_map].
    assert (Hv : fround (inject_Z (int16At data
                   (p0 + (Z.of_nat i * Z.of_nat nch + Z.of_nat k) * 2)) / 32768)
                 = val k i).
    { unfold val, sampleAt. cbn [Z.eqb Pos.eqb].
      change (16 / 8) with 2. symmetry. apply clamp_int16, int16At_range. }
    rewrite Hv, filled_store by lia.
    replace (p0 + (Z.of_nat i * Z.of_nat nch + Z.of_nat k) * 2 + 2)
      with (p0 + (Z.of_nat i * Z.of_nat nch + Z.of_nat (S k)) * 2) by lia.
    replace (k + S m)%nat with (S k + m)%nat by lia.
    rewrite IH; [done|lia|done].
Qed.

Lemma sample_frames i m s :
  (i + m <= frames)%nat ->
  _pcmData s = Some (filled val nch frames i 0) ->
  forM (seq i m) (fun j => forM (seq 0 nch) (body j))
    (p0 + Z.of_nat i * Z.of_nat nch * 2) s
  = (set_pcmData (Some (filled val nch frames (i + m) 0)) s,
     Return (p0 + Z.of_nat (i + m) * Z.of_nat nch * 2)).
Proof.
  revert i s. induction m as [|m IH]; intros i s Hi Hp.
  - simpl. rewrite Nat.add_0_r. unfold ret. f_equal.
    destruct s; simpl in *. by rewrite Hp.
  - cbn [seq forM]. unfold andThen at 1.
    replace (p0 + Z.of_nat i * Z.of_nat nch * 2)
      with (p0 + (Z.of_nat i * Z.of_nat nch + Z.of_nat 0) * 2) by lia.
    rewrite sample_channels; [|lia|lia|done].
    rewrite Nat.add_0_l, filled_next_frame.
    replace (p0 + (Z.of_nat i * Z.of_nat nch + Z.of_nat nch) * 2)
      with (p0 + Z.of_nat (S i) * Z.of_nat nch * 2) by lia.
    replace (i + S m)%nat with (S i + m)%nat by lia.
    rewrite IH; [done|lia|done].
Qed.

(** The data branch on a chunk of whole frames inside the buffer. *)
Lemma decodeData_ok s :
  _channelCount s = Z.of_nat nch -> (0 < nch)%nat ->
  decodeData data (2 * Z.of_nat nch * Z.of_nat frames) p0 s
  = ({| _pcmData := Some (decodedPcm data 16 nch frames p0);
        _sampleRate := _sampleRate s; _channelCount := _channelCount s;
        _lastRms := Num 0; _sampleOffset := 0; _userTimeSeconds := 0 |},
     Return true).
Proof.
  intros Hcc Hn. unfold decodeData.
  unfold andThen at 1, this at 1. unfold divide. rewrite Hcc.
  destruct (Z.eqb_spec (Z.of_nat nch) 0); [lia|].
  rewrite Nat2Z.id.
  assert (Hq : (inject_Z (2 * Z.of_nat nch * Z.of_nat frames) / 2 / inject_Z (Z.of_nat nch)
                == inject_Z (Z.of_nat frames))%Q) by (apply whole_frames; lia).
  rewrite (Qfloor_comp _ _ Hq), (Qceiling_comp _ _ Hq), Qfloor_Z, Qceiling_Z, Nat2Z.id.
  unfold andThen at 1, assign at 1.
  unfold andThen at 1.
  pose proof (sample_frames 0 frames
                (set_pcmData (Some (replicate nch (new_Float32Array frames))) s)) as Hloop.
  replace (p0 + Z.of_nat 0 * Z.of_nat nch * 2) with p0 in Hloop by lia.
  rewrite Nat.add_0_l in Hloop.
  unfold body in Hloop. rewrite Hloop; [|done|by rewrite <- (filled_start val)].
  unfold andThen at 1, assign at 1. unfold ret, val.
  rewrite (filled_all data 16 nch frames p0).
  unfold set_lastRms, set_userTimeSeconds, set_sampleOffset, set_pcmData. simpl.
  by rewrite Hcc.
Qed.

End SampleLoop.

(** One turn of the chunk loop on a [fmt ] chunk that is accepted. *)
Lemma chunkLoop_fmt fuel data offset s :
  0 <= offset -> offset + 24 <= byteLength data ->
  u32BEAt data offset = 0x666d7420 ->
  u16At data (offset + 8) = 1 -> u16At data (offset + 22) = 16 ->
  chunkLoop (S fuel) data offset s
  = chunkLoop fuel data (offset + 8 + u32At data (offset + 4))
      (set_sampleRate (u32At data (offset + 12))
         (set_channelCount (u16At data (offset + 10)) s)).
Proof.
  intros H0 Hlen Hid Hfmt Hbits. cbn [chunkLoop].
  destruct (Z.ltb_spec offset (byteLength data)); [|lia].
  unfold andThen at 1, read at 1. rewrite getUint32BE_Ok, Hid by lia.
  unfold andThen at 1, read at 1. rewrite getUint32_Ok by lia.
  rewrite Z.eqb_refl.
  unfold andThen at 1, read at 1. rewrite getUint16_Ok, Hfmt by lia.
  rewrite Z.eqb_refl. cbn [negb].
  unfold andThen at 1, read at 1. rewrite getUint16_Ok by lia.
  unfold andThen at 1, assign at 1.
  unfold andThen at 1, read at 1. rewrite getUint32_Ok by lia.
  unfold andThen at 1, assign at 1.
  unfold andThen at 1, read at 1. rewrite getUint16_Ok by lia.
  replace (offset + 8 + 14) with (offset + 22) by lia. rewrite Hbits.
  rewrite Z.eqb_refl. cbn [negb].
  replace (offset + 8 + 2) with (offset + 10) by lia.
  replace (offset + 8 + 4) with (offset + 12) by lia. done.
Qed.

(** One turn on a [data] chunk. *)
Lemma chunkLoop_data fuel data offset s :
  0 <= offset -> offset + 8 <= byteLength data ->
  u32BEAt data offset = 0x64617461 ->
  chunkLoop (S fuel) data offset s
  = decodeData data (u32At data (offset + 4)) (offset + 8) s.
Proof.
  intros H0 Hlen Hid. cbn [chunkLoop].
  destruct (Z.ltb_spec offset (byteLength data)); [|lia].
  unfold andThen at 1, read at 1. rewrite getUint32BE_Ok, Hid by lia.
  unfold andThen at 1, read at 1. rewrite getUint32_Ok by lia. done.
Qed.

(** One turn on any other chunk. *)
Lemma chunkLoop_skip fuel data offset s :
  0 <= offset -> offset + 8 <= byteLength data ->
  u32BEAt data offset <> 0x666d7420 -> u32BEAt data offset <> 0x64617461 ->
  chunkLoop (S fuel) data offset s
  = chunkLoop fuel data (offset + 8 + u32At data (offset + 4)) s.
Proof.
  intros H0 Hlen Hf Hd. cbn [chunkLoop].
  destruct (Z.ltb_spec offset (byteLength data)); [|lia].
  unfold andThen at 1, read at 1. rewrite getUint32BE_Ok by lia.
  unfold andThen at 1, read at 1. rewrite getUint32_Ok by lia.
  destruct (Z.eqb_spec (u32BEAt data offset) 0x666d7420); [done|].
  destruct (Z.eqb_spec (u32BEAt data offset) 0x64617461); [done|]. done.
Qed.

End AnalyserDecode.

Lemma chunkList_header fuel view offset ck :
  ck ∈ chunkList fuel view offset ->
  ckId ck = fourCCAt view (ckPayload ck - 8)
  /\ ckSize ck = u32At view (ckPayload ck - 4).
Proof.
  revert offset. induction fuel as [|fuel IH]; intros offset Hin; simpl in Hin.
  - by apply elem_of_nil in Hin.
  - destruct (offset + 8 <=? byteLength view); [|by apply elem_of_nil in Hin].
    apply elem_of_cons in Hin as [->|Hin]; [|by apply IH in Hin].
    simpl. split; f_equal; lia.
Qed.

Lemma lastChunk_header buf id ck :
  lastChunk id (chunksOf buf) = Some ck ->
  fourCCAt buf (ckPayload ck - 8) = id /\ u32At buf (ckPayload ck - 4) = ckSize ck.
Proof.
  intros [Hin Hid]%lastChunk_elem.
  apply chunkList_header in Hin as [H1 H2]. split; congruence.
Qed.

Module AnalyserLoadOk.
Import AudioAnalyser AnalyserParse AnalyserDecode.

(** A [fmt ] chunk first, 16-bit PCM with at least one channel, and the
    [data] chunk next to it, in whole frames inside the buffer: [load]
    decodes it, whatever the analyser held. *)
Lemma load_ok buf s (n : Z) :
  let cc := u16At buf 22 in
  let d := 20 + u32At buf 16 in
  36 <= byteLength buf ->
  u32BEAt buf 0 = 0x52494646 -> u32BEAt buf 8 = 0x57415645 ->
  u32BEAt buf 12 = 0x666d7420 ->
  u16At buf 20 = 1 -> 0 < cc -> u16At buf 34 = 16 ->
  u32BEAt buf d = 0x64617461 ->
  0 <= n -> u32At buf (d + 4) = 2 * cc * n ->
  d + 8 + 2 * cc * n <= byteLength buf ->
  loadSettle (Body buf) s
  = ({| _pcmData := Some (decodedPcm buf 16 (Z.to_nat cc) (Z.to_nat n) (d + 8));
        _sampleRate := u32At buf 24; _channelCount := cc;
        _lastRms := Num 0; _sampleOffset := 0; _userTimeSeconds := 0 |},
     Return true).
Proof.
  intros cc d Hlen Hr Hw Hf Hfmt Hcc Hbits Hd Hn Hsz Hfit.
  pose proof (u32At_range buf 16) as Hs16.
  unfold loadSettle, parseWav.
  unfold andThen at 1, read at 1. rewrite getUint32BE_Ok, Hr by lia.
  rewrite Z.eqb_refl. cbn [negb].
  unfold andThen at 1, read at 1. rewrite getUint32BE_Ok, Hw by lia.
  rewrite Z.eqb_refl. cbn [negb].
  destruct (length buf) as [|[|fuel]] eqn:El; [unfold byteLength in Hlen; lia..|].
  rewrite chunkLoop_fmt; [|lia|lia|done|done|done].
  change (12 + 8 + u32At buf (12 + 4)) with d.
  rewrite chunkLoop_data; [|unfold d; lia|nia|done].
  rewrite Hsz.
  replace (2 * cc * n) with (2 * Z.of_nat (Z.to_nat cc) * Z.of_nat (Z.to_nat n))
    by (rewrite !Z2Nat.id by lia; done).
  rewrite decodeData_ok.
  - simpl. change (u16At buf (12 + 10)) with cc. done.
  - unfold d. lia.
  - rewrite !Z2Nat.id by lia. lia.
  - simpl. change (u16At buf (12 + 10)) with cc. by rewrite Z2Nat.id by lia.
  - lia.
Qed.

End AnalyserLoadOk.

(** [load_ok] with the tags as strings. *)
Lemma load_decodes buf s (n : Z) :
  let cc := u16At buf 22 in
  let d := 20 + u32At buf 16 in
  36 <= byteLength buf ->
  fourCCAt buf 0 = "RIFF"%string -> fourCCAt buf 8 = "WAVE"%string ->
  fourCCAt buf 12 = "fmt "%string ->
  u16At buf 20 = 1 -> 0 < cc -> u16At buf 34 = 16 ->
  fourCCAt buf d = "data"%string ->
  0 <= n -> u32At buf (d + 4) = 2 * cc * n ->
  d + 8 + 2 * cc * n <= byteLength buf ->
  AudioAnalyser.loadSettle (AudioAnalyser.Body buf) s
  = ({| AudioAnalyser._pcmData :=
          Some (decodedPcm buf 16 (Z.to_nat cc) (Z.to_nat n) (d + 8));
        AudioAnalyser._sampleRate := u32At buf 24;
        AudioAnalyser._channelCount := cc;
        AudioAnalyser._lastRms := Num 0;
        AudioAnalyser._sampleOffset := 0;
        AudioAnalyser._userTimeSeconds := 0 |},
     AudioAnalyser.Return true).
Proof.
  intros cc d Hlen Hr Hw Hf Hfmt Hcc Hbits Hd Hn Hsz Hfit.
  apply AnalyserLoadOk.load_ok; try done.
  - by apply tag_RIFF.
  - by apply tag_WAVE.
  - by apply (fourCCAt_tag buf 12 "f" "m" "t" " ").
  - by apply (fourCCAt_tag buf (20 + u32At buf 16) "d" "a" "t" "a").
Qed.

(** ** [AudioAnalyser.update] on sound audio *)

Module AnalyserPlay.
Import AudioAnalyser AnalyserState AnalyserFacts.

#[local] Arguments Qfloor : simpl never.
#[local] Arguments Qplus : simpl never.
#[local] Arguments Qmult : simpl never.
#[local] Arguments Qdiv : simpl never.
#[local] Arguments inject_Z : simpl never.

Section Update.
Variable sqrt : Q -> Q.

(** One [update] of a consistent analyser with samples in [[-1, 1]]: it
    returns [_lastRms], which is 0 or the root of a mean square. *)
Lemma analyser_update_sound s dt :
  stateOk s -> bounded (default [] (_pcmData s)) ->
  0 < _channelCount s -> 0 <= _sampleOffset s -> unitRms sqrt (_lastRms s) ->
  let s' := fst (update sqrt dt s) in
  snd (update sqrt dt s) = Return (_lastRms s')
  /\ unitRms sqrt (_lastRms s')
  /\ _pcmData s' = _pcmData s /\ _channelCount s' = _channelCount s
  /\ 0 <= _sampleOffset s'.
Proof.
  intros Hok Hb Hcc Hc Hr.
  destruct (Z.le_gt_cases (goalOf s dt) (_sampleOffset s)) as [Hidle|Hnew].
  - destruct Hok as (pcm & Hp & Hch & _).
    destruct pcm as [|data rest]; [simpl in Hch; lia|].
    rewrite (analyser_update_hold sqrt s dt data rest Hp Hidle). done.
  - destruct (analyser_update_window sqrt s dt Hok Hc Hnew) as (q & Hq & Hu).
    cbv zeta in Hu. rewrite Hu. cbn [fst snd _lastRms _pcmData _channelCount _sampleOffset].
    split; [done|]. split; [|split; [done|split; [done|lia]]].
    right. destruct Hok as (pcm & Hp & Hch & _). rewrite Hp in Hq, Hb. simpl in Hq, Hb.
    eexists. split; [|split; [|reflexivity]].
    + eapply (mean_square_unit q); [exact Hq|apply pooledSquares_nonneg| |nia].
      rewrite Hch. apply pooledSquares_bounded; [done|lia].
    + eapply (mean_square_unit q); [exact Hq|apply pooledSquares_nonneg| |nia].
      rewrite Hch. apply pooledSquares_bounded; [done|lia].
Qed.

Lemma analyser_after_sound s dts :
  stateOk s -> bounded (default [] (_pcmData s)) ->
  0 < _channelCount s -> 0 <= _sampleOffset s -> unitRms sqrt (_lastRms s) ->
  let s' := after sqrt s dts in
  stateOk s' /\ bounded (default [] (_pcmData s'))
  /\ 0 < _channelCount s' /\ 0 <= _sampleOffset s' /\ unitRms sqrt (_lastRms s').
Proof.
  revert s. induction dts as [|dt dts IH]; intros s Hok Hb Hcc Hc Hr; [done|].
  destruct (analyser_update_sound s dt Hok Hb Hcc Hc Hr) as (_ & Hr' & Hp' & Hc' & Ho').
  simpl. apply IH; try done.
  - by apply (AnalyserClock.stateOk_keep s).
  - by rewrite Hp'.
  - by rewrite Hc'.
Qed.

End Update.

(** The arrays of a 16-bit data chunk make a consistent analyser. *)
Lemma decoded_stateOk buf (cc n : nat) p0 rate rms off time :
  (0 < cc)%nat ->
  stateOk {| _pcmData := Some (decodedPcm buf 16 cc n p0); _sampleRate := rate;
             _channelCount := Z.of_nat cc; _lastRms := rms;
             _sampleOffset := off; _userTimeSeconds := time |}.
Proof.
  intros Hcc. destruct (decodedPcm_ok buf 16 cc n p0) as [Hl Hall].
  exists (decodedPcm buf 16 cc n p0). split; [done|]. split; [simpl; by rewrite Hl|].
  unfold frameCount. simpl.
  destruct (decodedPcm buf 16 cc n p0) as [|data rest] eqn:E; [simpl in Hl; lia|].
  pose proof Hall as Hall'. apply Forall_cons in Hall' as [-> _].
  eapply Forall_impl; [exact Hall|]. simpl. intros ? ->. done.
Qed.

End AnalyserPlay.

(** ** Bytes [parseWav] never reads *)

Section RiffSize.
Variables buf buf' : list byte.
Hypothesis same : sameButRiffSize buf buf'.

Lemma same_byteLength : byteLength buf' = byteLength buf.
Proof. unfold byteLength. by rewrite (proj1 same). Qed.

Lemma same_byteAt o : o < 4 \/ 8 <= o -> byteAt buf' o = byteAt buf o.
Proof.
  intros Ho. unfold byteAt, getUint8.
  destruct (Z.ltb_spec o 0); [done|].
  rewrite (proj2 same (Z.to_nat o)) by lia. done.
Qed.

Lemma same_u16At o : 8 <= o -> u16At buf' o = u16At buf o.
Proof. intros Ho. unfold u16At. rewrite !same_byteAt by lia. done. Qed.

Lemma same_u32At o : 8 <= o -> u32At buf' o = u32At buf o.
Proof. intros Ho. unfold u32At. rewrite !same_byteAt by lia. done. Qed.

Lemma same_fourCCAt o : o = 0 \/ 8 <= o -> fourCCAt buf' o = fourCCAt buf o.
Proof. intros Ho. unfold fourCCAt. rewrite !same_byteAt by lia. done. Qed.

Lemma same_sampleAt bits p : 8 <= p -> sampleAt buf' bits p = sampleAt buf bits p.
Proof.
  intros Hp. unfold sampleAt, int16At, int24At, int32At.
  rewrite !same_u16At, !same_u32At, !same_byteAt by lia. done.
Qed.

Lemma same_chunkList fuel offset :
  8 <= offset -> chunkList fuel buf' offset = chunkList fuel buf offset.
Proof.
  revert offset. induction fuel as [|fuel IH]; intros offset Ho; [done|].
  simpl. rewrite same_byteLength, same_u32At, same_fourCCAt by lia.
  destruct (offset + 8 <=? byteLength buf); [|done].
  pose proof (u32At_range buf (offset + 4)).
  pose proof (Z.mod_pos_bound (u32At buf (offset + 4)) 2).
  rewrite IH by lia. done.
Qed.

Lemma same_chunksOf : chunksOf buf' = chunksOf buf.
Proof. unfold chunksOf. rewrite (proj1 same). by apply same_chunkList. Qed.

Lemma same_decodedPcm bits nch frames p0 :
  8 <= p0 -> 0 <= bits ->
  decodedPcm buf' bits nch frames p0 = decodedPcm buf bits nch frames p0.
Proof.
  intros Hp Hb. unfold decodedPcm.
  apply map_ext. intros ch. apply map_ext. intros i.
  rewrite same_sampleAt; [done|].
  assert (0 <= bits / 8) by (apply Z.div_pos; lia). nia.
Qed.

Lemma same_parseWav : parseWav buf' = parseWav buf.
Proof.
  rewrite !parseWav_cases. unfold parseWavCases.
  rewrite same_byteLength, same_chunksOf, !same_fourCCAt by lia.
  destruct (byteLength buf <? 12); [done|].
  destruct (negb (fourCCAt buf 0 =? "RIFF")%string); [done|].
  destruct (negb (fourCCAt buf 8 =? "WAVE")%string); [done|].
  destruct (lastChunk "fmt " (chunksOf buf)) as [f|] eqn:Ef; [|done].
  destruct (lastChunk "data" (chunksOf buf)) as [d|] eqn:Ed; [|done].
  pose proof (lastChunk_bounds _ _ _ Ef) as [Hf _].
  pose proof (lastChunk_bounds _ _ _ Ed) as [Hd _].
  cbv zeta. unfold framesOf.
  rewrite same_byteLength, !same_u16At, !same_u32At by lia.
  rewrite same_decodedPcm; [done|lia|].
  pose proof (u16At_range buf (ckPayload f + 14)). lia.
Qed.

End RiffSize.

Section RiffSizeAnalyser.
Variables buf buf' : list byte.
Hypothesis same : sameButRiffSize buf buf'.
Import AudioAnalyser.

Lemma same_getUint8 o : o < 4 \/ 8 <= o -> getUint8 buf' o = getUint8 buf o.
Proof.
  intros Ho. unfold getUint8. destruct (Z.ltb_spec o 0); [done|].
  rewrite (proj2 same (Z.to_nat o)) by lia. done.
Qed.

Lemma same_getUint16 o : 8 <= o -> getUint16 buf' o = getUint16 buf o.
Proof. intros Ho. unfold getUint16. rewrite !same_getUint8 by lia. done. Qed.

Lemma same_getUint32 o : 8 <= o -> getUint32 buf' o = getUint32 buf o.
Proof. intros Ho. unfold getUint32. rewrite !same_getUint8 by lia. done. Qed.

Lemma same_getUint32BE o : o = 0 \/ 8 <= o -> getUint32BE buf' o = getUint32BE buf o.
Proof. intros Ho. unfold getUint32BE. rewrite !same_getUint8 by lia. done. Qed.

Lemma same_getInt16 o : 8 <= o -> getInt16 buf' o = getInt16 buf o.
Proof. intros Ho. unfold getInt16. by rewrite same_getUint16. Qed.

Lemma same_channels i l p s :
  8 <= p ->
  forM l (fun c pcmOffset =>
            sample <~ read (getInt16 buf' pcmOffset) ;;
            storeSample c i (inject_Z sample / 32768)%Q ;;;
            ret (pcmOffset + 2)) p s
  = forM l (fun c pcmOffset =>
              sample <~ read (getInt16 buf pcmOffset) ;;
              storeSample c i (inject_Z sample / 32768)%Q ;;;
              ret (pcmOffset + 2)) p s
  /\ match forM l (fun c pcmOffset =>
              sample <~ read (getInt16 buf pcmOffset) ;;
              storeSample c i (inject_Z sample / 32768)%Q ;;;
              ret (pcmOffset + 2)) p s with
     | (_, Return p') => 8 <= p'
     | _ => True
     end.
Proof.
  revert p s. induction l as [|c l IH]; intros p s Hp; [done|].
  cbn [forM]. unfold andThen at 1 3 5. unfold andThen at 1 2 3, read at 1 2 3.
  rewrite same_getInt16 by done.
  destruct (getInt16 buf p) as [v|e]; [|done].
  unfold andThen at 1 2 3, storeSample at 1 2 3, assign at 1 2 3. unfold ret at 1 2 3.
  apply IH. lia.
Qed.

Lemma same_frames cc l p s :
  8 <= p ->
  forM l (fun i => forM (seq 0 cc)
            (fun c pcmOffset =>
               sample <~ read (getInt16 buf' pcmOffset) ;;
               storeSample c i (inject_Z sample / 32768)%Q ;;;
               ret (pcmOffset + 2))) p s
  = forM l (fun i => forM (seq 0 cc)
              (fun c pcmOffset =>
                 sample <~ read (getInt16 buf pcmOffset) ;;
                 storeSample c i (inject_Z sample / 32768)%Q ;;;
                 ret (pcmOffset + 2))) p s.
Proof.
  set (body' := fun i : nat => forM (seq 0 cc) _).
  set (body := fun i : nat => forM (seq 0 cc) _).
  revert p s. induction l as [|i l IH]; intros p s Hp; [done|].
  cbn [forM]. unfold andThen.
  destruct (same_channels i (seq 0 cc) p s Hp) as [Heq Hnext].
  change (body' i p s = body i p s) in Heq. rewrite Heq.
  change (match body i p s with (_, Return p') => 8 <= p' | _ => True end) in Hnext.
  destruct (body i p s) as [s1 [p1|e|]]; [|done|done].
  by apply IH.
Qed.

Lemma andThen_ext {A B} (c c' : method A) (k k' : A -> method B) s :
  (forall s, c' s = c s) -> (forall a s, k' a s = k a s) ->
  andThen c' k' s = andThen c k s.
Proof.
  intros Hc Hk. unfold andThen. rewrite Hc. destruct (c s) as [s1 [a|e|]]; [apply Hk|done|done].
Qed.

Lemma same_decodeData chunkSize offset s :
  8 <= offset -> decodeData buf' chunkSize offset s = decodeData buf chunkSize offset s.
Proof.
  intros Ho. unfold decodeData.
  apply andThen_ext; [done|]. intros s0 s1.
  destruct (divide _ _) as [spc| |]; [|done|done].
  apply andThen_ext; [done|]. intros _ s2.
  apply andThen_ext; [|done]. intros s3. by apply same_frames.
Qed.

Lemma same_chunkLoop fuel offset s :
  8 <= offset -> chunkLoop fuel buf' offset s = chunkLoop fuel buf offset s.
Proof.
  revert offset s. induction fuel as [|fuel IH]; intros offset s Ho.
  - simpl. by rewrite (same_byteLength buf buf' same).
  - cbn [chunkLoop]. rewrite (same_byteLength buf buf' same).
    destruct (offset <? byteLength buf); [|done].
    unfold andThen, read, assign.
    rewrite same_getUint32BE, same_getUint32, !same_getUint16, same_getUint32 by lia.
    destruct (getUint32BE buf offset) as [chunkId|e]; [|done].
    destruct (getUint32 buf (offset + 4)) as [chunkSize|e] eqn:Esz; [|done].
    assert (Hsz : 0 <= chunkSize).
    { rewrite getUint32_eq in Esz. destruct (_ && _); [|done].
      injection Esz as <-. pose proof (u32At_range buf (offset + 4)). lia. }
    destruct (chunkId =? 1718449184).
    + destruct (getUint16 buf (offset + 8)) as [audioFormat|e]; [|done].
      destruct (negb (audioFormat =? 1)); [done|].
      destruct (getUint16 buf (offset + 8 + 2)) as [channelCount|e]; [|done].
      destruct (getUint32 buf (offset + 8 + 4)) as [sampleRate|e]; [|done].
      destruct (getUint16 buf (offset + 8 + 14)) as [bitsPerSample|e]; [|done].
      destruct (negb (bitsPerSample =? 16)); [done|].
      apply IH. lia.
    + destruct (chunkId =? 1684108385); [apply same_decodeData; lia|]. apply IH. lia.
Qed.

Lemma same_analyser_parseWav s :
  AudioAnalyser.parseWav buf' s = AudioAnalyser.parseWav buf s.
Proof.
  unfold AudioAnalyser.parseWav, andThen, read.
  rewrite !same_getUint32BE by lia.
  destruct (getUint32BE buf 0) as [riff|e]; [|done].
  destruct (negb (riff =? 1380533830)); [done|].
  destruct (getUint32BE buf 8) as [wave|e]; [|done].
  destruct (negb (wave =? 1463899717)); [done|].
  rewrite (proj1 same). by apply same_chunkLoop.
Qed.

End RiffSizeAnalyser.

(** ** The frame clock *)



Module PalFacts.
Import Live2DPAL.




End PalFacts.

Module LAppPalFacts.
Import LAppPal.




End LAppPalFacts.

(** ** The fetch cache *)

Module CacheFacts.
Import Cache.

Lemma find_app_l {A} (f : A -> bool) l l' x :
  find f l = Some x -> find f (l ++ l') = Some x.
Proof.
  induction l as [|a l IH]; simpl; [done|]. destruct (f a); [done|]. apply IH.
Qed.

Lemma find_snoc_None {A} (f : A -> bool) l x :
  find f l = None -> find f (l ++ [x]) = if f x then Some x else None.
Proof.
  induction l as [|a l IH]; simpl; [done|]. destruct (f a); [done|]. apply IH.
Qed.

Lemma existsb_find {A} (f : A -> bool) l :
  existsb f l = bool_decide (is_Some (find f l)).
Proof.
  induction l as [|a l IH]; simpl; [done|].
  destruct (f a); simpl; done.
Qed.

Lemma hasUrl_refl u b : hasUrl u {| url := u; arraybuffer := b |} = true.
Proof. unfold hasUrl. simpl. apply String.eqb_refl. Qed.

Lemma find_hasUrl u store item : find (hasUrl u) store = Some item -> url item = u.
Proof.
  intros H. apply find_some in H as [_ H]. unfold hasUrl in H. by apply String.eqb_eq in H.
Qed.

(** [createItemIndexDB] touches nothing but the database. *)
Lemma create_keeps v p :
  let p' := fst (createItemIndexDB v p) in
  LoadFromCache p' = LoadFromCache p /\ refreshCache p' = refreshCache p
  /\ installed p' = installed p /\ originalFetch p' = originalFetch p
  /\ window_fetch p' = window_fetch p /\ sent p' = sent p
  /\ (is_Some (Live2dDB p') <-> is_Some (Live2dDB p)).
Proof.
  unfold createItemIndexDB.
  destruct (Live2dDB p) as [db|] eqn:Edb; [|simpl; by rewrite Edb].
  destruct (db !! storeName) as [store|]; [|simpl; by rewrite Edb].
  destruct (existsb _ store); simpl; rewrite ?Edb; repeat split; eauto.
Qed.

(** It adds the record when the store has none for the [url], and changes
    nothing otherwise. *)
Lemma create_cached v p u :
  cached u (fst (createItemIndexDB v p))
  = match cached u p with
    | Some item => Some item
    | None =>
        match Live2dDB p ≫= (.!! storeName) with
        | Some _ => if String.eqb (url v) u then Some v else None
        | None => None
        end
    end.
Proof.
  unfold createItemIndexDB, cached.
  destruct (Live2dDB p) as [db|] eqn:Edb; [|simpl; by rewrite Edb].
  simpl. destruct (db !! storeName) as [store|] eqn:Es; [|simpl; by rewrite Edb, Es].
  rewrite existsb_find.
  destruct (find (hasUrl (url v)) store) as [old|] eqn:Eold.
  - rewrite bool_decide_eq_true_2 by eauto. simpl. rewrite Edb, Es.
    destruct (find (hasUrl u) store) eqn:Eu; [done|].
    destruct (String.eqb_spec (url v) u) as [<-|]; [congruence|done].
  - rewrite bool_decide_eq_false_2 by (by intros [? ?]). simpl.
    rewrite lookup_insert_eq.
    destruct (find (hasUrl u) store) as [item|] eqn:Eu.
    + by apply find_app_l.
    + rewrite find_snoc_None by done. done.
Qed.

Lemma create_cached_Some v p u item :
  cached u p = Some item -> cached u (fst (createItemIndexDB v p)) = Some item.
Proof. intros H. by rewrite create_cached, H. Qed.

Section Network.
Variable net : network.

Lemma nativeFetch_keeps rq p :
  let p' := fst (nativeFetch net rq p) in
  LoadFromCache p' = LoadFromCache p /\ Live2dDB p' = Live2dDB p
  /\ refreshCache p' = refreshCache p /\ installed p' = installed p
  /\ originalFetch p' = originalFetch p /\ window_fetch p' = window_fetch p.
Proof. done. Qed.

Lemma callOriginal_keeps rq p :
  let p' := fst (callOriginal net rq p) in
  LoadFromCache p' = LoadFromCache p /\ Live2dDB p' = Live2dDB p
  /\ refreshCache p' = refreshCache p /\ installed p' = installed p
  /\ originalFetch p' = originalFetch p /\ window_fetch p' = window_fetch p.
Proof. unfold callOriginal. destruct (originalFetch p) as [[|]|] eqn:E; cbn; by rewrite ?E. Qed.

Lemma callOriginal_cached rq p u : cached u (fst (callOriginal net rq p)) = cached u p.
Proof. unfold callOriginal. by destruct (originalFetch p) as [[|]|]. Qed.

(** A call of [fetch] keeps what the cache holds, and the wiring. *)
Lemma fetch_keeps rq p :
  let p' := fst (fetch net rq p) in
  LoadFromCache p' = LoadFromCache p /\ refreshCache p' = refreshCache p
  /\ installed p' = installed p /\ originalFetch p' = originalFetch p
  /\ window_fetch p' = window_fetch p
  /\ (is_Some (Live2dDB p') <-> is_Some (Live2dDB p))
  /\ forall u item, cached u p = Some item -> cached u p' = Some item.
Proof.
  unfold fetch. destruct (window_fetch p) eqn:Ew; [by repeat split|].
  unfold wrapper.
  assert (Hco : forall q : page * settled Response,
            q = callOriginal net rq p ->
            LoadFromCache (fst q) = LoadFromCache p /\ refreshCache (fst q) = refreshCache p
            /\ installed (fst q) = installed p /\ originalFetch (fst q) = originalFetch p
            /\ window_fetch (fst q) = Wrapper
            /\ (is_Some (Live2dDB (fst q)) <-> is_Some (Live2dDB p))
            /\ forall u item, cached u p = Some item -> cached u (fst q) = Some item).
  { intros q ->. destruct (callOriginal_keeps rq p) as (? & Hdb & ? & ? & ? & Hw).
    split; [done|]. split; [done|]. split; [done|]. split; [done|].
    split; [congruence|]. split; [by rewrite Hdb|].
    intros u item. by rewrite callOriginal_cached. }
  destruct (negb (LoadFromCache p) || negb (bool_decide (is_Some (Live2dDB p))));
    [by apply Hco|].
  destruct (negb (methodOf rq =? "GET")%string); [by apply Hco|].
  destruct (if negb (refreshCache p) then selectItemIndexDB "url" (urlOf (rq_input rq)) p
            else Fulfilled None) as [[c|]|r|]; try (by repeat split).
  specialize (Hco (callOriginal net rq p) eq_refl).
  destruct (callOriginal net rq p) as [p1 [resp|r|]]; try done.
  destruct (ok resp); [|done]. simpl in Hco.
  destruct Hco as (H1 & H2 & H3 & H4 & H5 & H6 & H7).
  destruct (create_keeps {| url := urlOf (rq_input rq); arraybuffer := body resp |} p1)
    as (K1 & K2 & K3 & K4 & K5 & _ & K7).
  simpl. repeat split; try congruence.
  - intros H. apply H6, K7, H.
  - intros H. apply K7, H6, H.
  - intros u item Hc. by apply create_cached_Some, H7.
Qed.

Lemma cacheFetch_keeps u p :
  let p' := fst (cacheFetch net u p) in
  LoadFromCache p' = LoadFromCache p /\ refreshCache p' = refreshCache p
  /\ installed p' = installed p /\ originalFetch p' = originalFetch p
  /\ window_fetch p' = window_fetch p
  /\ (is_Some (Live2dDB p') <-> is_Some (Live2dDB p))
  /\ forall u' item, cached u' p = Some item -> cached u' p' = Some item.
Proof.
  unfold cacheFetch.
  destruct (if negb (refreshCache p) && _ then _ else _) as [[c|]|r|];
    try (by repeat split).
  pose proof (fetch_keeps (plain u) p) as Hf.
  destruct (fetch net _ p) as [p1 [resp|r|]]; try done.
  simpl in Hf. destruct Hf as (H1 & H2 & H3 & H4 & H5 & H6 & H7).
  destruct (LoadFromCache p && bool_decide (is_Some (Live2dDB p))); [|done].
  destruct (create_keeps {| url := u; arraybuffer := body resp |} p1)
    as (K1 & K2 & K3 & K4 & K5 & _ & K7).
  simpl. repeat split; try congruence.
  - intros H. apply H6, K7, H.
  - intros H. apply K7, H6, H.
  - intros u' item Hc. by apply create_cached_Some, H7.
Qed.

End Network.

Lemma perform_cached p c u item :
  cached u p = Some item -> cached u (perform p c) = Some item.
Proof.
  intros H. destruct c as [net u'|net rq| | |b]; simpl.
  - by apply cacheFetch_keeps.
  - by apply fetch_keeps.
  - unfold installFetchCache. by destruct (installed p).
  - unfold uninstallFetchCache. by destruct (installed p).
  - done.
Qed.

Lemma perform_wired p c : wired p -> wired (perform p c).
Proof.
  intros Hw. destruct c as [net u'|net rq| | |b]; simpl.
  - destruct (cacheFetch_keeps net u' p) as (_ & _ & H3 & H4 & H5 & _).
    unfold wired. rewrite H3, H4, H5. done.
  - destruct (fetch_keeps net rq p) as (_ & _ & H3 & H4 & H5 & _).
    unfold wired. rewrite H3, H4, H5. done.
  - unfold installFetchCache.
    destruct Hw as [(Hi & Ho & Hf)|(Hi & Ho & Hf)]; rewrite Hi; [|by right].
    right. simpl. by rewrite Hf.
  - unfold uninstallFetchCache.
    destruct Hw as [(Hi & Ho & Hf)|(Hi & Ho & Hf)]; rewrite Hi; simpl; [by left|].
    left. simpl. by rewrite Ho.
  - done.
Qed.

End CacheFacts.

Module CacheCalls.
Import Cache CacheFacts.

Lemma cached_store u p item :
  cached u p = Some item ->
  exists db store, Live2dDB p = Some db /\ db !! storeName = Some store
                   /\ find (hasUrl u) store = Some item.
Proof.
  unfold cached. destruct (Live2dDB p) as [db|]; [|done].
  destruct (db !! storeName) as [store|] eqn:E; [|done]. eauto.
Qed.

Lemma cached_has_store u p item :
  cached u p = Some item -> is_Some (Live2dDB p ≫= (.!! storeName)).
Proof.
  unfold cached. destruct (Live2dDB p) as [db|]; [|done]. simpl.
  destruct (db !! storeName) as [store|]; [eauto|done].
Qed.

Lemma select_cached u p :
  is_Some (Live2dDB p ≫= (.!! storeName)) ->
  selectItemIndexDB "url" u p = Fulfilled (cached u p).
Proof.
  unfold selectItemIndexDB, cached. destruct (Live2dDB p) as [db|]; [|by intros [? ?]].
  simpl. destruct (db !! storeName) as [store|]; [done|by intros [? ?]].
Qed.

Lemma create_twice v p :
  fst (createItemIndexDB v (fst (createItemIndexDB v p))) = fst (createItemIndexDB v p).
Proof.
  unfold createItemIndexDB at 2 3.
  destruct (Live2dDB p) as [db|] eqn:Edb;
    [|simpl; unfold createItemIndexDB; by rewrite Edb].
  destruct (db !! storeName) as [store|] eqn:Es;
    [|simpl; unfold createItemIndexDB; by rewrite Edb, Es].
  destruct (existsb (hasUrl (url v)) store) eqn:Ex;
    [simpl; unfold createItemIndexDB; by rewrite Edb, Es, Ex|].
  simpl. unfold createItemIndexDB. simpl.
  rewrite lookup_insert_eq.
  rewrite existsb_app. simpl. unfold hasUrl at 2. rewrite String.eqb_refl.
  by rewrite orb_true_r.
Qed.

Lemma create_install v p :
  fst (createItemIndexDB v (installFetchCache p))
  = installFetchCache (fst (createItemIndexDB v p)).
Proof.
  destruct p as [l d r i o w s]. unfold installFetchCache, createItemIndexDB. simpl.
  destruct d as [db|]; [|by destruct i].
  destruct i; simpl.
  - destruct (db !! storeName) as [store|]; [|done]. by destruct (existsb _ store).
  - destruct (db !! storeName) as [store|]; [|done]. by destruct (existsb _ store).
Qed.

Lemma methodOf_plain u : methodOf (plain u) = "GET"%string.
Proof. done. Qed.

Section Network.
Variable net : network.

(** A call of [fetch] on a wired page where the wrapper has to ask the
    network. *)
Lemma wrapper_asks rq p :
  originalFetch p = Some Native -> LoadFromCache p = true ->
  is_Some (Live2dDB p) -> methodOf rq = "GET"%string ->
  (refreshCache p = true
   \/ selectItemIndexDB "url" (urlOf (rq_input rq)) p = Fulfilled None) ->
  wrapper net rq p
  = match net rq with
    | Some resp =>
        ((if ok resp
          then fst (createItemIndexDB
                      {| url := urlOf (rq_input rq); arraybuffer := body resp |}
                      (send rq p))
          else send rq p),
         Fulfilled resp)
    | None => (send rq p, RejectedWith FetchFailed)
    end.
Proof.
  intros Ho Hl Hdb Hm Hmiss. unfold wrapper.
  rewrite Hl, (bool_decide_eq_true_2 _ Hdb), Hm. cbn [negb orb String.eqb Ascii.eqb Bool.eqb].
  assert (Hsel : (if negb (refreshCache p)
                  then selectItemIndexDB "url" (urlOf (rq_input rq)) p
                  else Fulfilled None) = Fulfilled None).
  { destruct Hmiss as [->| ->]; [done|]. by destruct (refreshCache p). }
  rewrite Hsel. unfold callOriginal. rewrite Ho. unfold nativeFetch.
  destruct (net rq) as [resp|]; [|done]. by destruct (ok resp).
Qed.

End Network.
End CacheCalls.

Module CacheAsk.
Import Cache CacheFacts CacheCalls.

Section Network.
Variable net : network.

(** [cacheFetch] on a wired page, when it does not answer from the cache:
    one request goes out, whether [window.fetch] is the wrapper or not, and
    with the cache in use the body of the response is added to the store. *)
Lemma cacheFetch_asks u p :
  wired p ->
  let rq := (plain u) in
  let enabled := LoadFromCache p && bool_decide (is_Some (Live2dDB p)) in
  (if negb (refreshCache p) && enabled then selectItemIndexDB "url" u p
   else Fulfilled None) = Fulfilled None ->
  cacheFetch net u p
  = match net rq with
    | Some resp =>
        ((if enabled
          then fst (createItemIndexDB {| url := u; arraybuffer := body resp |} (send rq p))
          else send rq p),
         Fulfilled (body resp))
    | None => (send rq p, RejectedWith FetchFailed)
    end.
Proof.
  intros Hw rq enabled Hsel. subst enabled. unfold cacheFetch. rewrite Hsel. fold rq.
  destruct Hw as [(_ & _ & Hf)|(_ & Ho & Hf)]; unfold fetch; rewrite Hf.
  { unfold nativeFetch. by destruct (net rq). }
  destruct (LoadFromCache p) eqn:Hl; cbn [andb] in *.
  - destruct (bool_decide (is_Some (Live2dDB p))) eqn:Hdb.
    + apply bool_decide_eq_true_1 in Hdb.
      rewrite (wrapper_asks net rq p Ho Hl Hdb eq_refl).
      * destruct (net rq) as [resp|]; [|done].
        destruct (ok resp); [|done]. cbn [urlOf rq rq_input]. by rewrite create_twice.
      * rewrite andb_true_r in Hsel. destruct (refreshCache p); [by left|by right].
    + unfold wrapper. rewrite Hl, Hdb. cbn [negb orb].
      unfold callOriginal. rewrite Ho. unfold nativeFetch. by destruct (net rq).
  - unfold wrapper. rewrite Hl. cbn [negb orb].
    unfold callOriginal. rewrite Ho. unfold nativeFetch. by destruct (net rq).
Qed.

End Network.
End CacheAsk.

Module CacheRoundTrip.

(** A [url] the cache holds is served without the network. *)
Lemma cache_hit (net : Cache.network) u p item :
  Cache.LoadFromCache p = true -> Cache.refreshCache p = false ->
  Cache.cached u p = Some item ->
  Cache.cacheFetch net u p = (p, Cache.Fulfilled (Cache.arraybuffer item))
  /\ forall rq,
       Cache.methodOf rq = "GET"%string -> Cache.urlOf (Cache.rq_input rq) = u ->
       Cache.wrapper net rq p
       = (p, Cache.Fulfilled {| Cache.status := 200;
                                Cache.body := Cache.arraybuffer item |}).
Proof.
  intros Hl Hr Hc.
  destruct (CacheCalls.cached_store u p item Hc) as (db & store & Hdb & Hs & Hfind).
  assert (Hsome : is_Some (Cache.Live2dDB p)) by (rewrite Hdb; eauto).
  assert (Hsel : Cache.selectItemIndexDB "url" u p = Cache.Fulfilled (Some item)).
  { rewrite CacheCalls.select_cached, Hc; [done|]. by apply (CacheCalls.cached_has_store u p item). }
  split.
  - unfold Cache.cacheFetch. rewrite Hl, Hr, (bool_decide_eq_true_2 _ Hsome). simpl.
    by rewrite Hsel.
  - intros rq Hm Hu. unfold Cache.wrapper.
    rewrite Hl, Hr, (bool_decide_eq_true_2 _ Hsome), Hm, Hu. simpl. by rewrite Hsel.
Qed.

(** What [cacheFetch] fetches it serves afterwards. *)
Lemma round_trip (net : Cache.network) u p resp :
  Cache.wired p ->
  Cache.LoadFromCache p = true -> Cache.refreshCache p = false ->
  is_Some (Cache.Live2dDB p ≫= (.!! Cache.storeName)) ->
  Cache.cached u p = None ->
  net (Cache.plain u) = Some resp ->
  let p' := fst (Cache.cacheFetch net u p) in
  snd (Cache.cacheFetch net u p) = Cache.Fulfilled (Cache.body resp)
  /\ Cache.sent p' = Cache.plain u :: Cache.sent p
  /\ Cache.cached u p' = Some {| Cache.url := u; Cache.arraybuffer := Cache.body resp |}
  /\ forall net', Cache.cacheFetch net' u p' = (p', Cache.Fulfilled (Cache.body resp)).
Proof.
  intros Hw Hl Hr Hst Hc Hnet p'.
  assert (Hsome : is_Some (Cache.Live2dDB p)).
  { destruct (Cache.Live2dDB p); [eauto|by destruct Hst]. }
  assert (Hask : Cache.cacheFetch net u p
                 = (fst (Cache.createItemIndexDB
                           {| Cache.url := u; Cache.arraybuffer := Cache.body resp |}
                           (Cache.send (Cache.plain u) p)),
                    Cache.Fulfilled (Cache.body resp))).
  { rewrite (CacheAsk.cacheFetch_asks net u p Hw).
    - fold (Cache.plain u). rewrite Hnet, Hl, (bool_decide_eq_true_2 _ Hsome). done.
    - rewrite Hl, Hr, (bool_decide_eq_true_2 _ Hsome). simpl.
      by rewrite CacheCalls.select_cached, Hc. }
  unfold p'. rewrite Hask. cbn [fst snd].
  set (v := {| Cache.url := u; Cache.arraybuffer := Cache.body resp |}).
  set (p1 := Cache.send (Cache.plain u) p).
  destruct (CacheFacts.create_keeps v p1) as (K1 & K2 & _ & _ & _ & K6 & _).
  assert (Hcached : Cache.cached u (fst (Cache.createItemIndexDB v p1)) = Some v).
  { rewrite CacheFacts.create_cached.
    change (Cache.cached u p1) with (Cache.cached u p). rewrite Hc.
    change (Cache.Live2dDB p1) with (Cache.Live2dDB p).
    destruct (Cache.Live2dDB p ≫= (.!! Cache.storeName)); [|by destruct Hst].
    unfold v. simpl. by rewrite String.eqb_refl. }
  split; [done|]. split; [by rewrite K6|]. split; [done|].
  intros net'.
  apply (cache_hit net' u _ v); [by rewrite K1|by rewrite K2|done].
Qed.

End CacheRoundTrip.

(** ** [initialiseIndexDB] *)
Module InitFacts.
Import Cache.

(** On a browser without the database the store that is named is created,
    and nothing else. *)
Lemma initialise_new (b : browser) dbName version storeName :
  b !! dbName = None -> storeName <> ""%string ->
  initialiseIndexDB true dbName version (Some storeName) b
  = (<[dbName := {| dbVersion := Z.pos version;
                    objectStores := <[storeName := []]> ∅ |}]> b,
     Some (<[storeName := []]> ∅)).
Proof.
  intros Hnew Hne. unfold initialiseIndexDB. rewrite Hnew. cbn [negb default dbVersion].
  destruct (Z.ltb_spec (Z.pos version) 0); [lia|].
  destruct (Z.ltb_spec 0 (Z.pos version)); [|lia].
  destruct (String.eqb_spec storeName ""); [done|].
  cbn [objectStores]. rewrite lookup_empty.
  by rewrite bool_decide_eq_false_2 by (by intros [? ?]).
Qed.

(** A second call with the same version finds the database as the first
    call left it, whatever store it names. *)
Lemma initialise_again indexedDB (b : browser) dbName version s1 s2 :
  initialiseIndexDB indexedDB dbName version s2
    (fst (initialiseIndexDB indexedDB dbName version s1 b))
  = initialiseIndexDB indexedDB dbName version s1 b.
Proof.
  unfold initialiseIndexDB. destruct indexedDB; [|done]. cbn [negb].
  set (old := default _ (b !! dbName)).
  destruct (Z.ltb_spec (Z.pos version) (dbVersion old)) as [Hhi|Hhi].
  { cbn [fst]. fold old. by rewrite (proj2 (Z.ltb_lt _ _) Hhi). }
  destruct (Z.ltb_spec (dbVersion old) (Z.pos version)) as [Hlo|Hlo].
  - cbn [fst]. rewrite lookup_insert_eq. cbn [default id dbVersion objectStores].
    by rewrite Z.ltb_irrefl.
  - cbn [fst]. fold old.
    rewrite (proj2 (Z.ltb_ge _ _) Hhi), (proj2 (Z.ltb_ge _ _) Hlo). done.
Qed.

End InitFacts.

(** * Further theorems *)

(** X1.  [parseWav] returns decoded audio for the well-formed buffers
    and for no other: the two tags, a last [fmt ] and a last [data] chunk,
    the 16 bytes of the format header inside the buffer, format code 1, a
    channel, a sample rate, a bit depth of 8, 16, 24 or 32. *)
Theorem parseWav_accepts_exactly buf :
  (exists wav, parseWav buf = Ok (Some wav)) <-> (exists f d, wellFormed buf f d).
Proof.
  split.
  - intros [wav Hp]. by apply (parseWav_Some_wellFormed buf wav).
  - intros (f & d & Hwf). eexists. by apply (parseWav_wellFormed buf f d).
Qed.

Lemma parseWav_accepts_exactly_witness :
  exists wav, parseWav Fixtures.halfTone = Ok (Some wav).
Proof.
  apply (proj2 (parseWav_accepts_exactly Fixtures.halfTone)).
  exists {| ckId := "fmt "; ckSize := 16; ckPayload := 20 |},
         {| ckId := "data"; ckSize := 4; ckPayload := 44 |}.
  constructor; try (vm_compute; reflexivity); try (vm_compute; discriminate).
Defined.

(** X2.  Whatever audio [parseWav] returns can be played: as many
    arrays as channels, all of the frame count, every sample in [[-1, 1]],
    a channel count and a sample rate that are not 0, and no more samples
    than the buffer has bytes. *)
Theorem parseWav_result_playable buf wav :
  parseWav buf = Ok (Some wav) ->
  WavState.wavOk wav /\ bounded (pcm wav)
  /\ 0 < channels wav < 65536 /\ 0 < sampleRate wav < 4294967296
  /\ 0 <= frameCount wav /\ frameCount wav * channels wav <= byteLength buf.
Proof. apply parseWav_sound. Qed.

Lemma parseWav_result_playable_witness :
  let wav := {| sampleRate := 8000; channels := 1;
                pcm := [[fround (clamp (16384 # 32768)); fround (clamp (-16384 # 32768))]] |} in
  WavState.wavOk wav /\ bounded (pcm wav)
  /\ 0 < channels wav < 65536 /\ 0 < sampleRate wav < 4294967296
  /\ 0 <= frameCount wav /\ frameCount wav * channels wav <= byteLength Fixtures.halfTone.
Proof.
  intros wav. apply (parseWav_result_playable Fixtures.halfTone wav).
  vm_compute. reflexivity.
Defined.

(** X3.  The only exception of [parseWav] is the [RangeError] of a
    read past the buffer, and it is raised exactly when both tags and both
    chunks are there and the last [fmt ] chunk declares fewer than 16 bytes
    and ends inside the buffer, while its 16 header bytes do not. *)
Theorem parseWav_raises_exactly buf :
  (forall e, parseWav buf = Throw e -> e = RangeError)
  /\ ((exists e, parseWav buf = Throw e) <->
      12 <= byteLength buf
      /\ fourCCAt buf 0 = "RIFF"%string /\ fourCCAt buf 8 = "WAVE"%string
      /\ is_Some (lastChunk "data" (chunksOf buf))
      /\ exists f, lastChunk "fmt " (chunksOf buf) = Some f
           /\ ckPayload f + Z.min (ckSize f) 16 <= byteLength buf < ckPayload f + 16).
Proof.
  rewrite parseWav_cases. unfold parseWavCases.
  destruct (Z.ltb_spec (byteLength buf) 12).
  { split; [done|]. split; [by intros [? ?]|]. intros (? & _). lia. }
  destruct (String.eqb_spec (fourCCAt buf 0) "RIFF"); cbn [negb];
    [|split; [done|]; split; [by intros [? ?]|]; by intros (_ & ? & _)].
  destruct (String.eqb_spec (fourCCAt buf 8) "WAVE"); cbn [negb];
    [|split; [done|]; split; [by intros [? ?]|]; by intros (_ & _ & ? & _)].
  destruct (lastChunk "fmt " (chunksOf buf)) as [f|] eqn:Ef;
    [|split; [done|]; split; [by intros [? ?]|]; by intros (_ & _ & _ & _ & f & ? & _)].
  destruct (lastChunk "data" (chunksOf buf)) as [d|] eqn:Ed;
    [|split; [done|]; split; [by intros [? ?]|]; by intros (_ & _ & _ & [d ?] & _)].
  cbv zeta.
  destruct (Z.ltb_spec (byteLength buf) (ckPayload f + Z.min (ckSize f) 16)).
  { split; [done|]. split; [by intros [? ?]|].
    intros (_ & _ & _ & _ & f' & [= <-] & ?). lia. }
  destruct (Z.ltb_spec (byteLength buf) (ckPayload f + 16)).
  { split; [by intros ? [= <-]|]. split; [|by eauto].
    intros _. repeat split; [done..|by eauto|]. exists f. split; [done|lia]. }
  assert (Hno : ~ (12 <= byteLength buf
      /\ fourCCAt buf 0 = "RIFF"%string /\ fourCCAt buf 8 = "WAVE"%string
      /\ is_Some (Some d)
      /\ exists f0, Some f = Some f0
           /\ ckPayload f0 + Z.min (ckSize f0) 16 <= byteLength buf < ckPayload f0 + 16)).
  { intros (_ & _ & _ & _ & f' & [= <-] & ?). lia. }
  destruct (negb (u16At buf (ckPayload f) =? 1));
    [split; [done|]; split; [by intros [? ?]|done]|].
  destruct ((u16At buf (ckPayload f + 2) =? 0) || (u32At buf (ckPayload f + 4) =? 0));
    [split; [done|]; split; [by intros [? ?]|done]|].
  destruct (negb (includes [8; 16; 24; 32] (u16At buf (ckPayload f + 14))));
    split; try done; split; try done; by intros [? ?].
Qed.

(** A [fmt ] chunk of 2 bytes at the end of the buffer. *)
Lemma parseWav_raises_exactly_witness :
  parseWav (Fixtures.riff (Fixtures.chunk "data" 0 []
                             ++ Fixtures.chunk "fmt " 2 (Fixtures.le 2 1)))
  = Throw RangeError.
Proof.
  set (buf := Fixtures.riff _).
  destruct (proj2 (proj2 (parseWav_raises_exactly buf))) as [e He].
  - split; [vm_compute; discriminate|]. split; [vm_compute; reflexivity|].
    split; [vm_compute; reflexivity|]. split; [vm_compute; eauto|].
    exists {| ckId := "fmt "; ckSize := 2; ckPayload := 28 |}.
    split; [vm_compute; reflexivity|]. split; vm_compute; [discriminate|reflexivity].
  - rewrite He. f_equal. by apply (proj1 (parseWav_raises_exactly buf)).
Defined.

(** X4.  However [start], the settling of fetches (with any
    bytes, or rejected, in any order) and [update] (with any frame time) are
    mixed on a new handler, [update] never raises, and [getRms()] is 0 or
    [Math.sqrt] of a mean square between 0 and 1, never [NaN]. *)
Theorem handler_never_fails (sqrt : Q -> Q) (es : list event) (dt : Q) :
  let h := this (run sqrt Fixtures.world0 es) in
  (exists b, snd (update sqrt h dt) = Ok b)
  /\ 0 <= sampleCursor h
  /\ (getRms h = Num 0
      \/ exists q, (0 <= q)%Q /\ (q <= 1)%Q /\ getRms h = Num (sqrt q)).
Proof.
  intros h.
  assert (Hplay : playable sqrt h).
  { apply HandlerRuns.run_playable. split; [done|]. split; [by left|]. done. }
  destruct (PlaybackFacts.update_playable sqrt h dt Hplay) as (Hret & _ & _).
  destruct Hplay as (Hc & Hr & _). done.
Qed.





(** X7.  [AudioAnalyser.load] on a buffer with the two tags, a
    [fmt ] chunk first (PCM, 16 bits, at least one channel) and the [data]
    chunk next to it, of whole frames that lie inside the buffer: it returns
    [true] and, whatever the analyser held, leaves the channel count and the
    sample rate of the file, the de-interleaved samples [int16 / 32768], and
    the cursor, the clock and the last RMS at 0. *)
Theorem analyser_load_decodes buf s (n : Z) :
  let cc := u16At buf 22 in
  let d := 20 + u32At buf 16 in
  36 <= byteLength buf ->
  fourCCAt buf 0 = "RIFF"%string -> fourCCAt buf 8 = "WAVE"%string ->
  fourCCAt buf 12 = "fmt "%string ->
  u16At buf 20 = 1 -> 0 < cc -> u16At buf 34 = 16 ->
  fourCCAt buf d = "data"%string ->
  0 <= n -> u32At buf (d + 4) = 2 * cc * n ->
  d + 8 + 2 * cc * n <= byteLength buf ->
  AudioAnalyser.loadSettle (AudioAnalyser.Body buf) s
  = ({| AudioAnalyser._pcmData :=
          Some (decodedPcm buf 16 (Z.to_nat cc) (Z.to_nat n) (d + 8));
        AudioAnalyser._sampleRate := u32At buf 24;
        AudioAnalyser._channelCount := cc;
        AudioAnalyser._lastRms := Num 0;
        AudioAnalyser._sampleOffset := 0;
        AudioAnalyser._userTimeSeconds := 0 |},
     AudioAnalyser.Return true).
Proof. apply load_decodes. Qed.

(** [halfTone] loaded over an analyser that has played to its end. *)
Lemma analyser_load_decodes_witness :
  AudioAnalyser.loadSettle (AudioAnalyser.Body Fixtures.halfTone) Fixtures.playedAnalyser
  = ({| AudioAnalyser._pcmData := Some (decodedPcm Fixtures.halfTone 16 1 2 44);
        AudioAnalyser._sampleRate := 8000;
        AudioAnalyser._channelCount := 1;
        AudioAnalyser._lastRms := Num 0;
        AudioAnalyser._sampleOffset := 0;
        AudioAnalyser._userTimeSeconds := 0 |},
     AudioAnalyser.Return true).
Proof.
  apply (analyser_load_decodes Fixtures.halfTone Fixtures.playedAnalyser 2);
    vm_compute; first [reflexivity | discriminate].
Defined.

(** X8.  On a well-formed 16-bit file whose [fmt ] chunk is the first
    chunk and whose [data] chunk is the next one, in whole frames inside the
    buffer, the two decoders agree: [parseWav] and [AudioAnalyser.load] give
    the same sample rate, the same channel count and the same arrays. *)
Theorem decoders_agree buf f d (n : Z) :
  wellFormed buf f d ->
  ckPayload f = 20 -> ckPayload d = 28 + ckSize f ->
  u16At buf 34 = 16 ->
  0 <= n -> ckSize d = 2 * u16At buf 22 * n ->
  ckPayload d + ckSize d <= byteLength buf ->
  exists wav,
    parseWav buf = Ok (Some wav)
    /\ forall s,
         AudioAnalyser.loadSettle (AudioAnalyser.Body buf) s
         = ({| AudioAnalyser._pcmData := Some (pcm wav);
               AudioAnalyser._sampleRate := sampleRate wav;
               AudioAnalyser._channelCount := channels wav;
               AudioAnalyser._lastRms := Num 0;
               AudioAnalyser._sampleOffset := 0;
               AudioAnalyser._userTimeSeconds := 0 |},
            AudioAnalyser.Return true).
Proof.
  intros Hwf Hpf Hpd Hbits Hn Hsz Hfit.
  pose proof (parseWav_wellFormed buf f d Hwf) as Hp.
  destruct (lastChunk_header _ _ _ (wf_fmt _ _ _ Hwf)) as [Hfid Hfsz].
  destruct (lastChunk_header _ _ _ (wf_data _ _ _ Hwf)) as [Hdid Hdsz].
  pose proof (wf_channels _ _ _ Hwf) as Hch. pose proof (wf_format _ _ _ Hwf) as Hfmt.
  pose proof (wf_header _ _ _ Hwf) as Hhdr.
  rewrite Hpf in *. rewrite Hpd in *.
  change (20 - 8) with 12 in Hfid. change (20 - 4) with 16 in Hfsz.
  change (20 + 2) with 22 in *. change (20 + 14) with 34 in *. change (20 + 4) with 24 in *.
  pose proof (u16At_range buf 22).
  eexists. split; [exact Hp|]. intros s. cbn [pcm sampleRate channels].
  rewrite Hbits.
  assert (Hfr : framesOf buf d (u16At buf 22) 16 = n).
  { unfold framesOf. rewrite Z.min_l by lia. rewrite Hsz. change (16 / 8) with 2.
    replace (2 * u16At buf 22 * n) with (n * (u16At buf 22 * 2)) by lia.
    apply Z.div_mul. lia. }
  rewrite Hfr.
  rewrite (load_decodes buf s n); try done; try lia; rewrite ?Hfsz.
  - by replace (20 + ckSize f + 8) with (28 + ckSize f) by lia.
  - apply (wf_riff _ _ _ Hwf).
  - apply (wf_wave _ _ _ Hwf).
  - by replace (20 + ckSize f) with (28 + ckSize f - 8) by lia.
  - replace (20 + ckSize f + 4) with (28 + ckSize f - 4) by lia. by rewrite Hdsz.
Qed.

Lemma decoders_agree_witness :
  exists wav,
    parseWav Fixtures.halfTone = Ok (Some wav)
    /\ forall s,
         AudioAnalyser.loadSettle (AudioAnalyser.Body Fixtures.halfTone) s
         = ({| AudioAnalyser._pcmData := Some (pcm wav);
               AudioAnalyser._sampleRate := sampleRate wav;
               AudioAnalyser._channelCount := channels wav;
               AudioAnalyser._lastRms := Num 0;
               AudioAnalyser._sampleOffset := 0;
               AudioAnalyser._userTimeSeconds := 0 |},
            AudioAnalyser.Return true).
Proof.
  apply (decoders_agree Fixtures.halfTone
           {| ckId := "fmt "; ckSize := 16; ckPayload := 20 |}
           {| ckId := "data"; ckSize := 4; ckPayload := 44 |} 2).
  - constructor; try (vm_compute; reflexivity); try (vm_compute; discriminate).
  - reflexivity.
  - reflexivity.
  - vm_compute. reflexivity.
  - lia.
  - vm_compute. reflexivity.
  - vm_compute. discriminate.
Defined.

(** X9.  In every run of a new handler, [inflight], when it is
    set, is the promise of the last [start], and that promise is pending;
    but the settling of any fetch clears it, also that of an older fetch
    while the last one is still pending. *)
Theorem inflight_last_pending (sqrt : Q -> Q) :
  (forall es id,
      let w := run sqrt Fixtures.world0 es in
      inflight (this w) = Some id ->
      S id = nextPromise w /\ is_Some (pending w !! id))
  /\ (forall w pathA pathB rA,
        let a := nextPromise w in
        let w' := run sqrt (start pathB (start pathA w)) [Settle a rA] in
        inflight (this w') = None /\ pending w' !! S a = Some pathB).
Proof.
  split.
  - intros es id w. apply HandlerRuns.run_inflight. done.
  - intros w pathA pathB rA a w'.
    assert (Ha : pending (start pathB (start pathA w)) !! a = Some pathA).
    { unfold start. simpl. rewrite lookup_insert_ne by (unfold a; lia).
      apply lookup_insert_eq. }
    unfold w', run. cbn [foldl].
    rewrite (HandlerFacts.step_settle_pending sqrt _ a rA pathA Ha).
    cbn [this pending]. split.
    + unfold settle. by destruct rA as [buf|]; [destruct (parseWav buf)|].
    + rewrite lookup_delete_ne by (unfold a; lia). unfold start. simpl.
      apply lookup_insert_eq.
Qed.

(** Two [start]s on a new handler. *)
Lemma inflight_last_pending_witness :
  let w := run Fixtures.sqrtFloor Fixtures.world0 [Start "a.wav"; Start "b.wav"] in
  S 1 = nextPromise w /\ is_Some (pending w !! 1%nat).
Proof.
  intros w.
  apply (proj1 (inflight_last_pending Fixtures.sqrtFloor) [Start "a.wav"; Start "b.wav"] 1%nat).
  reflexivity.
Defined.

(** X10.  What [AudioAnalyser.load] has decoded from such a
    buffer plays without a fault: after the load and any number of
    [update]s, with any frame times, the next [update] returns, and what it
    returns is 0 or [Math.sqrt] of a mean square between 0 and 1. *)
Theorem analyser_plays_what_it_loaded (sqrt : Q -> Q) buf s (n : Z) dts dt :
  let cc := u16At buf 22 in
  let d := 20 + u32At buf 16 in
  36 <= byteLength buf ->
  fourCCAt buf 0 = "RIFF"%string -> fourCCAt buf 8 = "WAVE"%string ->
  fourCCAt buf 12 = "fmt "%string ->
  u16At buf 20 = 1 -> 0 < cc -> u16At buf 34 = 16 ->
  fourCCAt buf d = "data"%string ->
  0 <= n -> u32At buf (d + 4) = 2 * cc * n ->
  d + 8 + 2 * cc * n <= byteLength buf ->
  let s1 := fst (AudioAnalyser.loadSettle (AudioAnalyser.Body buf) s) in
  let s2 := AnalyserState.after sqrt s1 dts in
  exists r,
    snd (AudioAnalyser.update sqrt dt s2) = AudioAnalyser.Return r
    /\ (r = Num 0 \/ exists q, (0 <= q)%Q /\ (q <= 1)%Q /\ r = Num (sqrt q)).
Proof.
  intros cc d Hlen Hr Hw Hf Hfmt Hcc Hbits Hd Hn Hsz Hfit s1 s2.
  assert (Hs1 : s1 = {| AudioAnalyser._pcmData :=
                          Some (decodedPcm buf 16 (Z.to_nat cc) (Z.to_nat n) (d + 8));
                        AudioAnalyser._sampleRate := u32At buf 24;
                        AudioAnalyser._channelCount := Z.of_nat (Z.to_nat cc);
                        AudioAnalyser._lastRms := Num 0;
                        AudioAnalyser._sampleOffset := 0;
                        AudioAnalyser._userTimeSeconds := 0 |}).
  { unfold s1. rewrite (AnalyserLoadOk.load_ok buf s n); try done.
    - simpl. fold cc. by rewrite Z2Nat.id by lia.
    - by apply tag_RIFF.
    - by apply tag_WAVE.
    - by apply (fourCCAt_tag buf 12 "f" "m" "t" " ").
    - by apply (fourCCAt_tag buf (20 + u32At buf 16) "d" "a" "t" "a"). }
  assert (Hok1 : AnalyserState.stateOk s1).
  { rewrite Hs1. apply AnalyserPlay.decoded_stateOk. lia. }
  assert (Hb1 : bounded (default [] (AudioAnalyser._pcmData s1))).
  { rewrite Hs1. simpl. by apply decodedPcm_bounded. }
  destruct (AnalyserPlay.analyser_after_sound sqrt s1 dts Hok1 Hb1)
    as (Hok2 & Hb2 & Hcc2 & Ho2 & Hr2).
  { rewrite Hs1. simpl. lia. }
  { by rewrite Hs1. }
  { rewrite Hs1. by left. }
  fold s2 in Hok2, Hb2, Hcc2, Ho2, Hr2.
  destruct (AnalyserPlay.analyser_update_sound sqrt s2 dt Hok2 Hb2 Hcc2 Ho2 Hr2)
    as (Hret & Hunit & _).
  eexists. split; [exact Hret|exact Hunit].
Qed.

(** [halfTone] loaded, one frame that passes one sample, and the next. *)
Lemma analyser_plays_what_it_loaded_witness :
  exists r,
    snd (AudioAnalyser.update Fixtures.sqrtFloor (1 # 8000)
           (AnalyserState.after Fixtures.sqrtFloor
              (fst (AudioAnalyser.loadSettle (AudioAnalyser.Body Fixtures.halfTone)
                      AudioAnalyser.new))
              [(1 # 8000)%Q]))
    = AudioAnalyser.Return r
    /\ (r = Num 0
        \/ exists q, (0 <= q)%Q /\ (q <= 1)%Q /\ r = Num (Fixtures.sqrtFloor q)).
Proof.
  apply (analyser_plays_what_it_loaded Fixtures.sqrtFloor Fixtures.halfTone
           AudioAnalyser.new 2 [(1 # 8000)%Q] (1 # 8000)%Q);
    vm_compute; first [reflexivity | discriminate].
Defined.

(** X11.  [AudioAnalyser.load] does not ask for a [fmt ] chunk: on a
    buffer whose first chunk is the [data] chunk it returns [true] and
    decodes the data as 16-bit samples with the channel count and the sample
    rate the analyser has at that moment, those of the file before or the 1
    and 44100 of a new analyser. *)
Theorem analyser_load_without_fmt buf s (n : Z) :
  let cc := AudioAnalyser._channelCount s in
  20 <= byteLength buf ->
  fourCCAt buf 0 = "RIFF"%string -> fourCCAt buf 8 = "WAVE"%string ->
  fourCCAt buf 12 = "data"%string ->
  0 < cc -> 0 <= n -> u32At buf 16 = 2 * cc * n ->
  20 + 2 * cc * n <= byteLength buf ->
  AudioAnalyser.loadSettle (AudioAnalyser.Body buf) s
  = ({| AudioAnalyser._pcmData := Some (decodedPcm buf 16 (Z.to_nat cc) (Z.to_nat n) 20);
        AudioAnalyser._sampleRate := AudioAnalyser._sampleRate s;
        AudioAnalyser._channelCount := cc;
        AudioAnalyser._lastRms := Num 0;
        AudioAnalyser._sampleOffset := 0;
        AudioAnalyser._userTimeSeconds := 0 |},
     AudioAnalyser.Return true).
Proof.
  intros cc Hlen Hr%tag_RIFF Hw%tag_WAVE Hd Hcc Hn Hsz Hfit.
  apply (fourCCAt_tag buf 12 "d" "a" "t" "a") in Hd.
  unfold AudioAnalyser.loadSettle, AudioAnalyser.parseWav.
  unfold AudioAnalyser.andThen at 1, AudioAnalyser.read at 1.
  rewrite AnalyserParse.getUint32BE_Ok, Hr by lia.
  rewrite Z.eqb_refl. cbn [negb].
  unfold AudioAnalyser.andThen at 1, AudioAnalyser.read at 1.
  rewrite AnalyserParse.getUint32BE_Ok, Hw by lia.
  rewrite Z.eqb_refl. cbn [negb].
  destruct (length buf) as [|fuel] eqn:El; [unfold byteLength in Hlen; lia|].
  rewrite AnalyserDecode.chunkLoop_data; [|lia|lia|done].
  change (12 + 4) with 16. change (12 + 8) with 20. rewrite Hsz.
  replace (2 * cc * n) with (2 * Z.of_nat (Z.to_nat cc) * Z.of_nat (Z.to_nat n))
    by (rewrite !Z2Nat.id by lia; done).
  rewrite AnalyserDecode.decodeData_ok; [done|lia| |by rewrite Z2Nat.id by lia|lia].
  rewrite !Z2Nat.id by lia. lia.
Qed.

(** A new analyser and a file of one chunk, two samples of data. *)
Lemma analyser_load_without_fmt_witness :
  let buf := Fixtures.riff (Fixtures.chunk "data" 4
                              (Fixtures.le 2 16384 ++ Fixtures.le 2 (-16384))) in
  AudioAnalyser.loadSettle (AudioAnalyser.Body buf) AudioAnalyser.new
  = ({| AudioAnalyser._pcmData := Some (decodedPcm buf 16 1 2 20);
        AudioAnalyser._sampleRate := 44100;
        AudioAnalyser._channelCount := 1;
        AudioAnalyser._lastRms := Num 0;
        AudioAnalyser._sampleOffset := 0;
        AudioAnalyser._userTimeSeconds := 0 |},
     AudioAnalyser.Return true).
Proof.
  intros buf.
  apply (analyser_load_without_fmt buf AudioAnalyser.new 2);
    vm_compute; first [reflexivity | discriminate].
Defined.

(** X12.  Neither decoder reads the RIFF size field: two buffers
    that differ at most in the bytes at offsets 4 to 7 are decoded alike by
    [parseWav], and by [AudioAnalyser.load] from every state. *)
Theorem decoders_ignore_riff_size buf buf' :
  sameButRiffSize buf buf' ->
  parseWav buf' = parseWav buf
  /\ forall s,
       AudioAnalyser.loadSettle (AudioAnalyser.Body buf') s
       = AudioAnalyser.loadSettle (AudioAnalyser.Body buf) s.
Proof.
  intros Hsame. split; [by apply same_parseWav|].
  intros s. unfold AudioAnalyser.loadSettle.
  by rewrite (same_analyser_parseWav buf buf' Hsame).
Qed.

(** [halfTone] with a RIFF size of 0. *)
Lemma decoders_ignore_riff_size_witness :
  parseWav (Fixtures.tag "RIFF" ++ Fixtures.le 4 0 ++ drop 8 Fixtures.halfTone)
  = parseWav Fixtures.halfTone.
Proof.
  refine (proj1 (decoders_ignore_riff_size Fixtures.halfTone
                   (Fixtures.tag "RIFF" ++ Fixtures.le 4 0 ++ drop 8 Fixtures.halfTone) _)).
  split; [reflexivity|]. intros i Hi.
  do 4 (destruct i as [|i]; [reflexivity|]).
  do 4 (destruct i as [|i]; [lia|]).
  reflexivity.
Defined.







(** X16.  A [url] the cache holds is served without the network: with the
    cache in use and [refreshCache] off, [cacheFetch] is fulfilled with the
    stored bytes, and the wrapper of [installFetchCache] answers a GET with
    status 200 and the stored bytes; the page is left as it was and nothing
    is sent, whatever the network would have answered. *)
Theorem cached_url_needs_no_network (net : Cache.network) u p item :
  Cache.LoadFromCache p = true -> Cache.refreshCache p = false ->
  Cache.cached u p = Some item ->
  Cache.cacheFetch net u p = (p, Cache.Fulfilled (Cache.arraybuffer item))
  /\ forall rq,
       Cache.methodOf rq = "GET"%string -> Cache.urlOf (Cache.rq_input rq) = u ->
       Cache.wrapper net rq p
       = (p, Cache.Fulfilled {| Cache.status := 200;
                                Cache.body := Cache.arraybuffer item |}).
Proof. apply CacheRoundTrip.cache_hit. Qed.

(** A [url] stored before, asked for while the network is down. *)
Lemma cached_url_needs_no_network_witness :
  Cache.cacheFetch CacheFixtures.offline "model.json" CacheFixtures.page1
  = (CacheFixtures.page1, Cache.Fulfilled (Fixtures.tag "v1")).
Proof.
  apply (proj1 (cached_url_needs_no_network CacheFixtures.offline "model.json"
                  CacheFixtures.page1
                  {| Cache.url := "model.json"; Cache.arraybuffer := Fixtures.tag "v1" |}
                  eq_refl eq_refl ltac:(vm_compute; reflexivity))).
Defined.

(** X17.  What [cacheFetch] fetches it serves afterwards: with the
    cache in use, [refreshCache] off and no record for the [url], one
    request goes to the network, the promise is fulfilled with the body of
    the response, the body is stored under the [url], and every later
    [cacheFetch] of the [url] is fulfilled with the same bytes without a
    request, whatever the network answers then. *)
Theorem cacheFetch_round_trip (net : Cache.network) u p resp :
  Cache.wired p ->
  Cache.LoadFromCache p = true -> Cache.refreshCache p = false ->
  is_Some (Cache.Live2dDB p ≫= (.!! Cache.storeName)) ->
  Cache.cached u p = None ->
  net (Cache.plain u) = Some resp ->
  let p' := fst (Cache.cacheFetch net u p) in
  snd (Cache.cacheFetch net u p) = Cache.Fulfilled (Cache.body resp)
  /\ Cache.sent p' = Cache.plain u :: Cache.sent p
  /\ Cache.cached u p' = Some {| Cache.url := u; Cache.arraybuffer := Cache.body resp |}
  /\ forall net', Cache.cacheFetch net' u p' = (p', Cache.Fulfilled (Cache.body resp)).
Proof. apply CacheRoundTrip.round_trip. Qed.

Lemma cacheFetch_round_trip_witness :
  let p' := CacheFixtures.page1 in
  snd (Cache.cacheFetch (CacheFixtures.site (Fixtures.tag "v1")) "model.json"
         CacheFixtures.page0)
  = Cache.Fulfilled (Fixtures.tag "v1")
  /\ Cache.sent p' = [Cache.plain "model.json"]
  /\ Cache.cached "model.json" p'
     = Some {| Cache.url := "model.json"; Cache.arraybuffer := Fixtures.tag "v1" |}
  /\ forall net', Cache.cacheFetch net' "model.json" p'
                  = (p', Cache.Fulfilled (Fixtures.tag "v1")).
Proof.
  apply (cacheFetch_round_trip (CacheFixtures.site (Fixtures.tag "v1")) "model.json"
           CacheFixtures.page0 {| Cache.status := 200; Cache.body := Fixtures.tag "v1" |}).
  - left. done.
  - reflexivity.
  - reflexivity.
  - vm_compute. eauto.
  - vm_compute. reflexivity.
  - reflexivity.
Defined.

(** X18.  The cache never replaces or drops a record: a [url] that has
    a record keeps that record through every sequence of [cacheFetch],
    [fetch], [installFetchCache], [uninstallFetchCache] and settings of
    [refreshCache]. *)
Theorem cache_records_stay (calls : list Cache.call) p u item :
  Cache.cached u p = Some item ->
  Cache.cached u (foldl Cache.perform p calls) = Some item.
Proof.
  revert p. induction calls as [|c calls IH]; intros p H; [done|].
  simpl. apply IH. by apply CacheFacts.perform_cached.
Qed.

(** The record of "model.json" after a refresh that found new bytes. *)
Lemma cache_records_stay_witness :
  Cache.cached "model.json"
    (foldl Cache.perform CacheFixtures.page1
       [Cache.SetRefreshCache true;
        Cache.CacheFetch (CacheFixtures.site (Fixtures.tag "v2")) "model.json"])
  = Some {| Cache.url := "model.json"; Cache.arraybuffer := Fixtures.tag "v1" |}.
Proof.
  apply cache_records_stay. vm_compute. reflexivity.
Defined.

(** X19.  [refreshCache] refreshes the answer and not the cache: on
    a [url] that has a record, [cacheFetch] with [refreshCache] on sends a
    request and is fulfilled with the body of the response, but [store.add]
    fails on the unique index and the old record stays; with [refreshCache]
    off again, [cacheFetch] is fulfilled with the old bytes. *)
Theorem refresh_leaves_old_record (net : Cache.network) u p item resp :
  Cache.wired p ->
  Cache.LoadFromCache p = true -> Cache.refreshCache p = true ->
  Cache.cached u p = Some item ->
  net (Cache.plain u) = Some resp ->
  let p' := fst (Cache.cacheFetch net u p) in
  snd (Cache.cacheFetch net u p) = Cache.Fulfilled (Cache.body resp)
  /\ Cache.sent p' = Cache.plain u :: Cache.sent p
  /\ Cache.Live2dDB p' = Cache.Live2dDB p
  /\ forall net',
       snd (Cache.cacheFetch net' u (Cache.set_refreshCache false p'))
       = Cache.Fulfilled (Cache.arraybuffer item).
Proof.
  intros Hw Hl Hr Hc Hnet p'.
  destruct (CacheCalls.cached_store u p item Hc) as (db & store & Hdb & Hs & Hfind).
  assert (Hsome : is_Some (Cache.Live2dDB p)) by (rewrite Hdb; eauto).
  assert (Hask : Cache.cacheFetch net u p
                 = (Cache.send (Cache.plain u) p, Cache.Fulfilled (Cache.body resp))).
  { rewrite (CacheAsk.cacheFetch_asks net u p Hw); [|by rewrite Hr].
    fold (Cache.plain u). rewrite Hnet, Hl, (bool_decide_eq_true_2 _ Hsome).
    cbn [andb]. f_equal.
    unfold Cache.createItemIndexDB. cbn [Cache.send Cache.Live2dDB]. rewrite Hdb, Hs.
    rewrite CacheFacts.existsb_find. cbn [Cache.url]. rewrite Hfind.
    by rewrite bool_decide_eq_true_2 by eauto. }
  unfold p'. rewrite Hask. cbn [fst snd]. split; [done|]. split; [done|]. split; [done|].
  intros net'.
  rewrite (proj1 (CacheRoundTrip.cache_hit net' u
                    (Cache.set_refreshCache false (Cache.send (Cache.plain u) p))
                    item Hl eq_refl Hc)).
  done.
Qed.

Lemma refresh_leaves_old_record_witness :
  let p := Cache.set_refreshCache true CacheFixtures.page1 in
  let p' := fst (Cache.cacheFetch (CacheFixtures.site (Fixtures.tag "v2")) "model.json" p) in
  snd (Cache.cacheFetch (CacheFixtures.site (Fixtures.tag "v2")) "model.json" p)
  = Cache.Fulfilled (Fixtures.tag "v2")
  /\ Cache.sent p' = Cache.plain "model.json" :: Cache.sent p
  /\ Cache.Live2dDB p' = Cache.Live2dDB p
  /\ forall net',
       snd (Cache.cacheFetch net' "model.json" (Cache.set_refreshCache false p'))
       = Cache.Fulfilled (Fixtures.tag "v1").
Proof.
  intros p.
  apply (refresh_leaves_old_record (CacheFixtures.site (Fixtures.tag "v2")) "model.json" p
           {| Cache.url := "model.json"; Cache.arraybuffer := Fixtures.tag "v1" |}
           {| Cache.status := 200; Cache.body := Fixtures.tag "v2" |}).
  - left. done.
  - reflexivity.
  - reflexivity.
  - vm_compute. reflexivity.
  - reflexivity.
Defined.

(** X20.  With the cache not in use ([LoadFromCache] off, or no
    database), and for every request whose method is not GET, the wrapper of
    [installFetchCache] is the browser's [fetch]; and [cacheFetch] is then
    one request to the network, fulfilled with the body of the response or
    rejected with the rejection of the fetch, and the database is not
    touched. *)
Theorem cache_off_is_transparent (net : Cache.network) p :
  Cache.wired p ->
  (forall rq,
      Cache.LoadFromCache p = false \/ Cache.Live2dDB p = None
      \/ Cache.methodOf rq <> "GET"%string ->
      Cache.fetch net rq p = Cache.nativeFetch net rq p)
  /\ (forall u,
        Cache.LoadFromCache p = false \/ Cache.Live2dDB p = None ->
        Cache.cacheFetch net u p
        = (Cache.send (Cache.plain u) p,
           match net (Cache.plain u) with
           | Some resp => Cache.Fulfilled (Cache.body resp)
           | None => Cache.RejectedWith Cache.FetchFailed
           end)).
Proof.
  intros Hw. split.
  - intros rq Hoff. unfold Cache.fetch.
    destruct Hw as [(_ & _ & Hf)|(_ & Ho & Hf)]; rewrite Hf; [done|].
    unfold Cache.wrapper, Cache.callOriginal. rewrite Ho.
    destruct Hoff as [->|[->|Hm]]; [done|by rewrite orb_true_r|].
    destruct (negb (Cache.LoadFromCache p) || _); [done|].
    by destruct (String.eqb_spec (Cache.methodOf rq) "GET").
  - intros u Hoff.
    assert (Hen : Cache.LoadFromCache p && bool_decide (is_Some (Cache.Live2dDB p)) = false).
    { destruct Hoff as [->| ->]; [done|]. by rewrite andb_false_r. }
    rewrite (CacheAsk.cacheFetch_asks net u p Hw); rewrite Hen, ?andb_false_r; [|done].
    by destruct (net (Cache.plain u)).
Qed.

Lemma cache_off_is_transparent_witness :
  let p := Cache.set_Live2dDB None CacheFixtures.page0 in
  Cache.cacheFetch (CacheFixtures.site (Fixtures.tag "v1")) "model.json" p
  = (Cache.send (Cache.plain "model.json") p, Cache.Fulfilled (Fixtures.tag "v1")).
Proof.
  intros p.
  apply (proj2 (cache_off_is_transparent (CacheFixtures.site (Fixtures.tag "v1")) p
                  ltac:(left; done)) "model.json").
  right. reflexivity.
Defined.

(** X21.  [selectItemIndexDB] and [createItemIndexDB] always open the
    store [live2d].  On a database without that store, with the cache in use
    and [refreshCache] off, every [cacheFetch] and every GET through the
    wrapper is rejected with [NotFoundError] before anything is sent. *)
Theorem cache_without_store_rejects (net : Cache.network) p db :
  Cache.LoadFromCache p = true -> Cache.refreshCache p = false ->
  Cache.Live2dDB p = Some db -> db !! Cache.storeName = None ->
  (forall u, Cache.cacheFetch net u p = (p, Cache.RejectedWith Cache.NotFoundError))
  /\ (forall rq,
        Cache.methodOf rq = "GET"%string ->
        Cache.wrapper net rq p = (p, Cache.RejectedWith Cache.NotFoundError)).
Proof.
  intros Hl Hr Hdb Hs.
  assert (Hsome : is_Some (Cache.Live2dDB p)) by (rewrite Hdb; eauto).
  assert (Hsel : forall u,
            Cache.selectItemIndexDB "url" u p = Cache.RejectedWith Cache.NotFoundError).
  { intros u. unfold Cache.selectItemIndexDB. by rewrite Hdb, Hs. }
  split.
  - intros u. unfold Cache.cacheFetch.
    rewrite Hl, Hr, (bool_decide_eq_true_2 _ Hsome). simpl. by rewrite Hsel.
  - intros rq Hm. unfold Cache.wrapper.
    rewrite Hl, Hr, (bool_decide_eq_true_2 _ Hsome), Hm. simpl. by rewrite Hsel.
Qed.

(** A database whose only store is [models]. *)
Lemma cache_without_store_rejects_witness :
  let p := Cache.set_Live2dDB (Some CacheFixtures.otherDB) CacheFixtures.page0 in
  Cache.cacheFetch (CacheFixtures.site (Fixtures.tag "v1")) "model.json" p
  = (p, Cache.RejectedWith Cache.NotFoundError).
Proof.
  intros p.
  apply (proj1 (cache_without_store_rejects (CacheFixtures.site (Fixtures.tag "v1")) p
                  CacheFixtures.otherDB eq_refl eq_refl eq_refl
                  ltac:(vm_compute; reflexivity))).
Defined.

(** X22.  [installFetchCache] and [uninstallFetchCache]: a second
    call of either changes nothing; [uninstallFetchCache] after
    [installFetchCache] gives back the page as it was; and every sequence
    of calls from a page with nothing installed keeps [window.fetch] and
    [originalFetch] in one of two states, the browser's [fetch] with no
    original, or the wrapper with the browser's [fetch] as its original. *)
Theorem install_uninstall p :
  Cache.installFetchCache (Cache.installFetchCache p) = Cache.installFetchCache p
  /\ Cache.uninstallFetchCache (Cache.uninstallFetchCache p) = Cache.uninstallFetchCache p
  /\ (Cache.installed p = false -> Cache.originalFetch p = None ->
      Cache.uninstallFetchCache (Cache.installFetchCache p) = p)
  /\ (Cache.wired p -> forall calls, Cache.wired (foldl Cache.perform p calls)).
Proof.
  split; [|split; [|split]].
  - unfold Cache.installFetchCache. destruct (Cache.installed p) eqn:E; simpl; by rewrite ?E.
  - unfold Cache.uninstallFetchCache. destruct (Cache.installed p) eqn:E; simpl; by rewrite ?E.
  - intros Hi Ho. unfold Cache.installFetchCache, Cache.uninstallFetchCache.
    rewrite Hi. simpl. destruct p; simpl in *. by subst.
  - intros Hw calls. revert p Hw. induction calls as [|c calls IH]; intros p Hw; [done|].
    simpl. apply IH. by apply CacheFacts.perform_wired.
Qed.

Lemma install_uninstall_witness :
  Cache.uninstallFetchCache (Cache.installFetchCache CacheFixtures.page1)
  = CacheFixtures.page1.
Proof.
  apply (proj1 (proj2 (proj2 (install_uninstall CacheFixtures.page1)))); reflexivity.
Defined.

(** X23.  A reference to the wrapper that is kept across
    [uninstallFetchCache] is dead: [originalFetch] is [null] then, so a
    call sends nothing, and it is rejected ([originalFetch] is not a
    function, or the store is missing) unless it is a GET the cache can
    answer. *)
Theorem wrapper_after_uninstall (net : Cache.network) rq p :
  Cache.installed p = true ->
  let p' := Cache.uninstallFetchCache p in
  fst (Cache.wrapper net rq p') = p'
  /\ (snd (Cache.wrapper net rq p') = Cache.RejectedWith Cache.NotAFunction
      \/ snd (Cache.wrapper net rq p') = Cache.RejectedWith Cache.NotFoundError
      \/ exists item,
           Cache.cached (Cache.urlOf (Cache.rq_input rq)) p' = Some item
           /\ snd (Cache.wrapper net rq p')
              = Cache.Fulfilled {| Cache.status := 200;
                                   Cache.body := Cache.arraybuffer item |}).
Proof.
  intros Hi p'.
  assert (Ho : Cache.originalFetch p' = None).
  { unfold p', Cache.uninstallFetchCache. by rewrite Hi. }
  unfold Cache.wrapper, Cache.callOriginal. rewrite Ho.
  destruct (negb (Cache.LoadFromCache p') || _); [by split; [|left]|].
  destruct (negb (Cache.methodOf rq =? "GET")%string); [by split; [|left]|].
  destruct (Cache.refreshCache p'); cbn [negb]; [by split; [|left]|].
  unfold Cache.selectItemIndexDB, Cache.cached.
  destruct (Cache.Live2dDB p') as [db|]; [|by split; [|left]].
  destruct (db !! Cache.storeName) as [store|]; [|by split; [|right; left]].
  cbn [String.eqb Ascii.eqb Bool.eqb].
  destruct (find _ store) as [item|]; [|by split; [|left]].
  split; [done|]. right; right. by exists item.
Qed.

Lemma wrapper_after_uninstall_witness :
  let p' := Cache.uninstallFetchCache (Cache.installFetchCache CacheFixtures.page0) in
  fst (Cache.wrapper CacheFixtures.offline (Cache.plain "model.json") p') = p'.
Proof.
  apply (proj1 (wrapper_after_uninstall CacheFixtures.offline (Cache.plain "model.json")
                  (Cache.installFetchCache CacheFixtures.page0) eq_refl)).
Defined.

(** X24.  Installing the wrapper does not change [cacheFetch]:
    on a page with nothing installed, [cacheFetch] through the wrapper
    settles as it does through the browser's [fetch], sends the same
    request and leaves the same database. *)
Theorem cacheFetch_same_through_wrapper (net : Cache.network) u p :
  Cache.installed p = false -> Cache.originalFetch p = None ->
  Cache.window_fetch p = Cache.Native ->
  Cache.cacheFetch net u (Cache.installFetchCache p)
  = (Cache.installFetchCache (fst (Cache.cacheFetch net u p)),
     snd (Cache.cacheFetch net u p)).
Proof.
  intros Hi Ho Hf.
  assert (Hw : Cache.wired p) by (by left).
  assert (Hw' : Cache.wired (Cache.installFetchCache p)).
  { right. unfold Cache.installFetchCache. rewrite Hi. simpl. by rewrite Hf. }
  assert (Hfields : Cache.LoadFromCache (Cache.installFetchCache p) = Cache.LoadFromCache p
                    /\ Cache.Live2dDB (Cache.installFetchCache p) = Cache.Live2dDB p
                    /\ Cache.refreshCache (Cache.installFetchCache p) = Cache.refreshCache p).
  { unfold Cache.installFetchCache. by rewrite Hi. }
  destruct Hfields as (F1 & F2 & F3).
  assert (Hsel : Cache.selectItemIndexDB "url" u (Cache.installFetchCache p)
                 = Cache.selectItemIndexDB "url" u p).
  { unfold Cache.selectItemIndexDB. by rewrite F2. }
  set (first := if negb (Cache.refreshCache p)
                   && (Cache.LoadFromCache p && bool_decide (is_Some (Cache.Live2dDB p)))
                then Cache.selectItemIndexDB "url" u p else Cache.Fulfilled None).
  destruct first as [[item|]|r|] eqn:Efirst.
  - unfold Cache.cacheFetch. rewrite F1, F2, F3, Hsel. fold first. by rewrite Efirst.
  - rewrite (CacheAsk.cacheFetch_asks net u _ Hw'); [|by rewrite F1, F2, F3, Hsel].
    rewrite (CacheAsk.cacheFetch_asks net u p Hw); [|done].
    rewrite F1, F2.
    assert (Hsend : Cache.send (Cache.plain u) (Cache.installFetchCache p)
                    = Cache.installFetchCache (Cache.send (Cache.plain u) p)).
    { unfold Cache.installFetchCache. simpl. by rewrite Hi. }
    destruct (net (Cache.plain u)) as [resp|]; cbn [fst snd]; [|by rewrite Hsend].
    destruct (Cache.LoadFromCache p && _); [|by rewrite Hsend].
    by rewrite Hsend, CacheCalls.create_install.
  - unfold Cache.cacheFetch. rewrite F1, F2, F3, Hsel. fold first. by rewrite Efirst.
  - unfold Cache.cacheFetch. rewrite F1, F2, F3, Hsel. fold first. by rewrite Efirst.
Qed.

Lemma cacheFetch_same_through_wrapper_witness :
  Cache.cacheFetch CacheFixtures.missing "model.json"
    (Cache.installFetchCache CacheFixtures.page0)
  = (Cache.installFetchCache
       (fst (Cache.cacheFetch CacheFixtures.missing "model.json" CacheFixtures.page0)),
     snd (Cache.cacheFetch CacheFixtures.missing "model.json" CacheFixtures.page0)).
Proof.
  apply (cacheFetch_same_through_wrapper CacheFixtures.missing "model.json"
           CacheFixtures.page0); reflexivity.
Defined.

(** X25.  The wrapper stores the body of a GET it had to fetch only
    when the response is [ok] (status 200 to 299); [cacheFetch] stores the
    body of every response, so the body of an error page is served from the
    cache afterwards. *)
Theorem error_bodies (net : Cache.network) u p resp :
  Cache.installed p = true -> Cache.originalFetch p = Some Cache.Native ->
  Cache.window_fetch p = Cache.Wrapper ->
  Cache.LoadFromCache p = true -> Cache.refreshCache p = false ->
  is_Some (Cache.Live2dDB p ≫= (.!! Cache.storeName)) ->
  Cache.cached u p = None ->
  net (Cache.plain u) = Some resp -> Cache.ok resp = false ->
  Cache.fetch net (Cache.plain u) p
  = (Cache.send (Cache.plain u) p, Cache.Fulfilled resp)
  /\ Cache.cached u (fst (Cache.fetch net (Cache.plain u) p)) = None
  /\ Cache.cached u (fst (Cache.cacheFetch net u p))
     = Some {| Cache.url := u; Cache.arraybuffer := Cache.body resp |}
  /\ forall net',
       snd (Cache.cacheFetch net' u (fst (Cache.cacheFetch net u p)))
       = Cache.Fulfilled (Cache.body resp).
Proof.
  intros Hi Ho Hf Hl Hr Hst Hc Hnet Hok.
  assert (Hw : Cache.wired p) by (by right).
  assert (Hsome : is_Some (Cache.Live2dDB p)).
  { destruct (Cache.Live2dDB p); [eauto|by destruct Hst]. }
  assert (Hfetch : Cache.fetch net (Cache.plain u) p
                   = (Cache.send (Cache.plain u) p, Cache.Fulfilled resp)).
  { unfold Cache.fetch. rewrite Hf.
    rewrite (CacheCalls.wrapper_asks net (Cache.plain u) p Ho Hl Hsome eq_refl).
    - by rewrite Hnet, Hok.
    - right. cbn [Cache.plain Cache.urlOf Cache.rq_input].
      by rewrite CacheCalls.select_cached, Hc. }
  split; [done|]. split; [by rewrite Hfetch|].
  destruct (CacheRoundTrip.round_trip net u p resp Hw Hl Hr Hst Hc Hnet) as (_ & _ & H3 & H4).
  split; [done|]. intros net'. by rewrite H4.
Qed.

Lemma error_bodies_witness :
  let p := Cache.installFetchCache CacheFixtures.page0 in
  Cache.cached "model.json" (fst (Cache.fetch CacheFixtures.missing (Cache.plain "model.json") p))
  = None
  /\ Cache.cached "model.json" (fst (Cache.cacheFetch CacheFixtures.missing "model.json" p))
     = Some {| Cache.url := "model.json"; Cache.arraybuffer := Fixtures.tag "Not Found" |}.
Proof.
  intros p.
  destruct (error_bodies CacheFixtures.missing "model.json" p
              {| Cache.status := 404; Cache.body := Fixtures.tag "Not Found" |})
    as (_ & H2 & H3 & _); try reflexivity.
  - vm_compute. eauto.
  - split; [exact H2|exact H3].
Defined.

(** X26.  [initialiseIndexDB] creates the store it is given, and
    the cache reads the store [live2d]: when a page opens a database the
    browser did not have with [initialiseIndexDB(dbName, version,
    storeName)] for a [storeName] other than [live2d] and uses it for its
    cache, every [cacheFetch] is rejected while [refreshCache] is off, and
    nothing is sent. *)
Theorem store_name_must_be_live2d (net : Cache.network) (b : Cache.browser)
    dbName version storeName p :
  b !! dbName = None -> storeName <> ""%string -> storeName <> Cache.storeName ->
  Cache.LoadFromCache p = true -> Cache.refreshCache p = false ->
  Cache.Live2dDB p = snd (Cache.initialiseIndexDB true dbName version (Some storeName) b) ->
  forall u, Cache.cacheFetch net u p = (p, Cache.RejectedWith Cache.NotFoundError).
Proof.
  intros Hnew Hne Hother Hl Hr Hdb u.
  rewrite (InitFacts.initialise_new _ _ _ _ Hnew Hne) in Hdb. simpl in Hdb.
  assert (Hsome : is_Some (Cache.Live2dDB p)) by (rewrite Hdb; eauto).
  unfold Cache.cacheFetch.
  rewrite Hl, Hr, (bool_decide_eq_true_2 _ Hsome). cbn [negb andb].
  unfold Cache.selectItemIndexDB. rewrite Hdb.
  rewrite lookup_insert_ne by done. by rewrite lookup_empty.
Qed.

(** A new browser, and [models] as the store name. *)
Lemma store_name_must_be_live2d_witness :
  let p := Cache.set_Live2dDB
             (snd (Cache.initialiseIndexDB true "db" 1 (Some "models"%string) ∅))
             CacheFixtures.page0 in
  Cache.cacheFetch (CacheFixtures.site (Fixtures.tag "v1")) "model.json" p
  = (p, Cache.RejectedWith Cache.NotFoundError).
Proof.
  intros p.
  refine (store_name_must_be_live2d (CacheFixtures.site (Fixtures.tag "v1")) ∅
            "db" 1 "models" p _ _ _ _ _ _ "model.json").
  - apply lookup_empty.
  - discriminate.
  - discriminate.
  - reflexivity.
  - reflexivity.
  - reflexivity.
Defined.

(** X27.  [initialiseIndexDB] honours a store name only when it
    creates or upgrades the database: on a browser without the database it
    gives one whose only store is the store named, empty; and a second call
    with the same version gives the result of the first and leaves the
    browser as the first call left it, whatever store the second call
    names. *)
Theorem initialiseIndexDB_store_once indexedDB (b : Cache.browser) dbName version :
  (forall s1 s2,
      Cache.initialiseIndexDB indexedDB dbName version s2
        (fst (Cache.initialiseIndexDB indexedDB dbName version s1 b))
      = Cache.initialiseIndexDB indexedDB dbName version s1 b)
  /\ (forall storeName,
        b !! dbName = None -> storeName <> ""%string ->
        Cache.initialiseIndexDB true dbName version (Some storeName) b
        = (<[dbName := {| Cache.dbVersion := Z.pos version;
                          Cache.objectStores := <[storeName := []]> ∅ |}]> b,
           Some (<[storeName := []]> ∅))).
Proof.
  split.
  - intros s1 s2. apply InitFacts.initialise_again.
  - intros storeName. apply InitFacts.initialise_new.
Qed.

(** The store [models] first, then [live2d]: the database still has the
    store [models] alone. *)
Lemma initialiseIndexDB_store_once_witness :
  let b1 := fst (Cache.initialiseIndexDB true "db" 1 (Some "models"%string) ∅) in
  snd (Cache.initialiseIndexDB true "db" 1 (Some "live2d"%string) b1)
  = Some (<["models"%string := []]> ∅).
Proof.
  intros b1. unfold b1.
  rewrite (proj1 (initialiseIndexDB_store_once true ∅ "db" 1) (Some "models"%string)
             (Some "live2d"%string)).
  rewrite (proj2 (initialiseIndexDB_store_once true ∅ "db" 1) "models"%string
             ltac:(apply lookup_empty) ltac:(discriminate)).
  reflexivity.
Defined.
